(** * MeetingMind: the AI meeting-intelligence core

    A shallow embedding of the processing pipeline (ai.service.ts), of the
    retrieval and question answering service (qa.service.ts) and of the
    orchestrator that drives them, with the properties the design document
    states about them.

    Conventions of the embedding.
    - A JavaScript string is a sequence of code units.  Rocq's [ascii] holds
      the code units 0..255, so the development covers strings of the Latin-1
      range; [is_ws], [toLowerCase] and [trim] follow ECMAScript on that range.
    - A JavaScript number is an element of a type with the operations the code
      uses (class [Num]); the instance on [float] is binary64 arithmetic, the
      arithmetic of the program.
    - A meeting identifier is a string; the identifier the store generates for
      a new row is a number.  A time is a reading of the clock, the number of
      events so far.
    - [throw] / [try ... catch] is an error monad over a world made of the
      relational store and the trace of what the services did: the statements
      applied by the store, the requests to the providers, the pauses.
      Messages written to the console are left out.
    - The store is the database of schema.sql as the signed-in owner of the
      meetings sees it: a statement reaches the rows that the row level
      security policies of the schema let it reach, and fails only on a
      constraint of the schema (foreign key, NOT NULL, primary key,
      [.single()] on a result that is not one row) or on a value that a
      column cannot hold.  Transport faults are outside the model.
    - The replies of the providers are given by an environment.  The answer
      of the language model is text that the services parse and do not
      validate: [JSON.parse] is a function of the environment, and what it
      returns is handled as a JavaScript value.  An exception is an [Error]
      with its message. *)

From Stdlib Require Import ZArith List String Ascii Lia Sorted.
From Stdlib Require Import Floats.
From stdpp Require Import gmap strings list fin_maps pretty.

#[local] Set Warnings "-clear-no-such-hyp,-register-all".

(** ** Text: the string functions of ECMAScript used by the services *)

Module Text.

(** [\s] of a regular expression and the characters removed by
    [String.prototype.trim]: TAB, LF, VT, FF, CR, SPACE and NO-BREAK SPACE. *)
Definition is_ws (c : ascii) : bool :=
  existsb (N.eqb (N_of_ascii c)) [9; 10; 11; 12; 13; 32; 160]%N.

Definition lower_char (c : ascii) : ascii :=
  let n := N_of_ascii c in
  if ((65 <=? n) && (n <=? 90) ||
      (192 <=? n) && (n <=? 222) && negb (n =? 215))%N
  then ascii_of_N (n + 32) else c.

(** [s.toLowerCase()] *)
Fixpoint toLowerCase (s : string) : string :=
  match s with
  | EmptyString => EmptyString
  | String c s' => String (lower_char c) (toLowerCase s')
  end.

Fixpoint trimStart (s : string) : string :=
  match s with
  | EmptyString => EmptyString
  | String c s' => if is_ws c then trimStart s' else s
  end.

Fixpoint trimEnd (s : string) : string :=
  match s with
  | EmptyString => EmptyString
  | String c s' =>
      match trimEnd s' with
      | EmptyString => if is_ws c then EmptyString else String c EmptyString
      | r => String c r
      end
  end.

(** [s.trim()] *)
Definition trim (s : string) : string := trimEnd (trimStart s).

(** [!s || s.trim().length === 0] *)
Definition blank (s : string) : bool := Nat.eqb (String.length (trim s)) 0.

Definition snoc (s : string) (c : ascii) : string := s +:+ String c EmptyString.

(** [s.split(/\s+/)]: the pieces between the maximal runs of white space.
    [cur] is the piece being read and [prev_ws] tells that the previous code
    unit belonged to a separator.  A separator at the start or at the end of
    the string leaves an empty piece there, and the empty string splits into
    one empty piece. *)
Fixpoint split_go (s : string) (cur : string) (prev_ws : bool) : list string :=
  match s with
  | EmptyString => [cur]
  | String c s' =>
      if is_ws c then
        if prev_ws then split_go s' cur true
        else cur :: split_go s' EmptyString true
      else split_go s' (snoc cur c) false
  end.

Definition split_ws (s : string) : list string := split_go s EmptyString false.

(** [l.join(sep)] *)
Fixpoint join (sep : string) (l : list string) : string :=
  match l with
  | [] => EmptyString
  | [x] => x
  | x :: rest => x +:+ sep +:+ join sep rest
  end.

(** [l.slice(i, j)] for [0 <= i <= j] *)
Definition slice {A} (i j : nat) (l : list A) : list A := take (j - i) (drop i l).

(** [l.slice(0, n)] for an integer [n] of either sign: a negative end counts
    from the end of the array. *)
Definition slice_to {A} (n : Z) (l : list A) : list A :=
  if (n <? 0)%Z then take (Z.to_nat (Z.max (Z.of_nat (List.length l) + n) 0)) l
  else take (Z.to_nat n) l.

(** The loop of [splitIntoChunks]:
    [for (let i = 0; i < words.length; i += wordsPerChunk)].
    One unit of fuel is one iteration; [None] is a loop that has not ended
    when the fuel is spent. *)
Fixpoint chunk_loop (fuel : nat) (words : list string) (i wordsPerChunk : nat)
  : option (list string) :=
  if (List.length words <=? i)%nat then Some []
  else
    match fuel with
    | O => None
    | S fuel' =>
        let chunk := join " " (slice i (i + wordsPerChunk) words) in
        match chunk_loop fuel' words (i + wordsPerChunk) wordsPerChunk with
        | Some rest =>
            Some (if (0 <? String.length (trim chunk))%nat then chunk :: rest else rest)
        | None => None
        end
    end.

(** [splitIntoChunks(text, wordsPerChunk)] of ai.service.ts.  With a positive
    chunk size the loop runs at most [words.length] times. *)
Definition splitIntoChunks (text : string) (wordsPerChunk : nat) : option (list string) :=
  let words := split_ws text in
  chunk_loop (List.length words) words 0 wordsPerChunk.

(** The words of a text: its non-empty pieces. *)
Definition words (text : string) : list string :=
  List.filter (fun t => negb (String.eqb t EmptyString)) (split_ws text).

Definition starts_with_ws (s : string) : bool :=
  match s with
  | EmptyString => false
  | String c _ => is_ws c
  end.

(** ceil(n / w) *)
Definition ceil_div (n w : nat) : nat := (n + w - 1) / w.

End Text.


(** ** Numbers and cosine similarity *)

Module Numbers.

(** The operations on JavaScript numbers used by the services. *)
Class Num (T : Type) := {
  num_zero : T;
  num_add : T -> T -> T;
  num_sub : T -> T -> T;
  num_mul : T -> T -> T;
  num_div : T -> T -> T;
  num_sqrt : T -> T;
  num_eqb : T -> T -> bool;   (* [===] *)
  num_ltb : T -> T -> bool;   (* [<] *)
}.

(** binary64, as the program computes *)
#[global] Instance float_Num : Num float := {|
  num_zero := 0%float;
  num_add := PrimFloat.add;
  num_sub := PrimFloat.sub;
  num_mul := PrimFloat.mul;
  num_div := PrimFloat.div;
  num_sqrt := PrimFloat.sqrt;
  num_eqb := PrimFloat.eqb;
  num_ltb := PrimFloat.ltb;
|}.

Section Cosine.
Context {T : Type} `{Num T}.

(** The accumulation loop shared by the two copies of [cosineSimilarity]:
    [dotProduct += a[i] * b[i]; normA += a[i] * a[i]; normB += b[i] * b[i]]
    for [i] from 0 to [a.length - 1], on vectors of the same length. *)
Definition cosine_step (acc : T * T * T) (xy : T * T) : T * T * T :=
  let '(dotProduct, normA, normB) := acc in
  let '(x, y) := xy in
  (num_add dotProduct (num_mul x y), num_add normA (num_mul x x), num_add normB (num_mul y y)).

Definition cosine_loop (a b : list T) : T * T * T :=
  fold_left cosine_step (combine a b) (num_zero, num_zero, num_zero).

Definition cosine_result (acc : T * T * T) : T :=
  let '(dotProduct, normA, normB) := acc in
  let denominator := num_mul (num_sqrt normA) (num_sqrt normB) in
  if num_eqb denominator num_zero then num_zero else num_div dotProduct denominator.

(** [cosineSimilarity] of ai.service.ts *)
Definition cosineSimilarity_ai (a b : list T) : T :=
  if negb (List.length a =? List.length b)%nat then num_zero
  else cosine_result (cosine_loop a b).

(** [cosineSimilarity] of qa.service.ts *)
Definition cosineSimilarity (a b : list T) : T :=
  if negb (List.length a =? List.length b)%nat || (List.length a =? 0)%nat then num_zero
  else cosine_result (cosine_loop a b).

End Cosine.

End Numbers.

(** ** The store, the providers and the effects of the services *)

Module Sys.

(** [x || null] on a nullable string: the empty string is falsy. *)
Definition truthy (x : option string) : option string :=
  match x with
  | Some EmptyString => None
  | _ => x
  end.

Inductive ProcessingStatus := processing | ready | failed.
Inductive ItemStatus := pending | in_progress | completed.

#[global] Instance ProcessingStatus_eq_dec : EqDecision ProcessingStatus.
Proof. solve_decision. Defined.

(** A row of [meetings]; the primary key is the key of the map that holds it. *)
Record Meeting := {
  m_status : ProcessingStatus;
  m_transcript : option string;
  m_summary : option string;
  m_video_url : option string;
}.

(** A row of [action_items].  [priority] is a TEXT column without a check
    constraint: it holds whatever text was sent. *)
Record ActionItem := {
  ai_id : nat;
  ai_meeting_id : string;
  ai_description : string;
  ai_priority : string;
  ai_due_date : option string;
  ai_status : ItemStatus;
}.

Record Decision := {
  d_id : nat;
  d_meeting_id : string;
  d_decision_text : string;
  d_context : option string;
  d_tags : option (list string);
}.

(** A row of [topics]: [meeting_count] is nullable, [last_discussed] is a
    reading of the clock. *)
Record Topic := {
  t_name : string;
  t_meeting_count : option Z;
  t_last_discussed : option nat;
}.

(** The values [JSON.parse] returns.  The services do not validate what the
    language model answers, so a response is any of them, whatever the
    interfaces [GeminiInsightsResponse], [ExtractedActionItem] and
    [ExtractedDecision] declare.  The members of an object have distinct
    names ([JSON.parse] keeps the last of two). *)
Inductive Json :=
| JNull
| JBool (b : bool)
| JNumber (x : float)
| JString (s : string)
| JArray (items : list Json)
| JObject (members : list (string * Json)).

(** A JavaScript value read from a parsed response: [None] is [undefined]. *)
Definition Value : Type := option Json.

(** [v.key] for a value [v] that is neither [null] nor [undefined], and a
    [key] other than [length]: an own member of an object, [undefined]
    otherwise (arrays, strings, numbers and booleans have no property of the
    names the services read). *)
Definition member (key : string) (v : Json) : Value :=
  match v with
  | JObject members => snd <$> List.find (fun kv => String.eqb (fst kv) key) members
  | _ => None
  end.

(** [!!v] *)
Definition js_truthy (v : Value) : bool :=
  match v with
  | None | Some JNull => false
  | Some (JBool b) => b
  | Some (JNumber x) => negb (x =? 0)%float && (x =? x)%float
  | Some (JString s) => negb (String.eqb s EmptyString)
  | Some (JArray _) | Some (JObject _) => true
  end.

(** [v || d] *)
Definition js_or (v : Value) (d : Json) : Json :=
  match v with
  | Some x => if js_truthy v then x else d
  | None => d
  end.

Fixpoint code_units (s : string) : list Json :=
  match s with
  | EmptyString => []
  | String c s' => JString (String c EmptyString) :: code_units s'
  end.

(** What [for (const x of v)] iterates over: the elements of an array, the
    characters of a string; nothing else that [JSON.parse] returns is
    iterable. *)
Definition iterate (v : Json) : option (list Json) :=
  match v with
  | JArray items => Some items
  | JString s => Some (code_units s)
  | _ => None
  end.

(** The outcome of a promise, and the replies of the transcription provider. *)
Inductive Reply (A : Type) :=
| Rejected (message : string)
| Resolved (a : A).
Arguments Rejected {A} _.
Arguments Resolved {A} _.

Inductive SubmitReply :=
| SubmitNotOk (error : string)      (* [!submitResponse.ok] *)
| SubmitOk (id : string).

Inductive TranscriptStatus := st_queued | st_processing | st_completed | st_error.

Inductive PollReply :=
| PollNotOk (statusText : string)   (* [!pollResponse.ok] *)
| PollOk (status : TranscriptStatus) (text : option string) (error : string).

(** [throw] and [return] *)
Inductive Result (A : Type) :=
| Ok (a : A)
| Throw (message : string).
Arguments Ok {A} _.
Arguments Throw {A} _.

Section WithNumbers.
Context {T : Type}.

Record EmbeddingRow := {
  e_id : nat;
  e_meeting_id : string;
  e_embedding : list T;
  e_content_chunk : string;
  e_chunk_index : nat;
}.

(** The relational store.  A table read by primary key is a map, the table of
    links with its composite primary key is a set, a table that is only
    appended to, scanned and deleted from is the list of its rows in insertion
    order.  [next_id] stands for [uuid_generate_v4()] in the tables kept as
    lists; the key of a new topic is a key that is not in use. *)
Record Store := {
  meetings : gmap string Meeting;
  action_items : list ActionItem;
  decisions : list Decision;
  topics : gmap nat Topic;
  meeting_topics : gset (string * nat);
  meeting_embeddings : list EmbeddingRow;
  next_id : nat;
}.

(** The statements the services send to the store. *)
Inductive Stmt :=
| UpdateStatus (id : string) (s : ProcessingStatus)
| UpdateTranscript (id : string) (transcript : string)
| UpdateSummary (id : string) (summary : string)
| InsertActionItem (row : ActionItem)
| InsertDecision (row : Decision)
| InsertTopic (id : nat) (t : Topic)
| UpdateTopic (id : nat) (meeting_count : Z) (last_discussed : nat)
| InsertMeetingTopic (meeting_id : string) (topic_id : nat)
| InsertEmbedding (row : EmbeddingRow)
| DeleteActionItems (meeting_id : string)
| DeleteDecisions (meeting_id : string)
| DeleteMeetingTopics (meeting_id : string)
| DeleteEmbeddings (meeting_id : string).

(** Everything the services do to the outside: a statement applied by the
    store, a request to a provider, a pause. *)
Inductive Event :=
| Db (stmt : Stmt)
| Submit (audio_url : string)
| Poll (transcript_id : string)
| Generate (prompt : string)
| Embed (text : string)
| Sleep (ms : Z).

Definition set_status (s : ProcessingStatus) (m : Meeting) : Meeting :=
  {| m_status := s; m_transcript := m_transcript m;
     m_summary := m_summary m; m_video_url := m_video_url m |}.

Definition set_transcript (text : string) (m : Meeting) : Meeting :=
  {| m_status := ready; m_transcript := Some text;
     m_summary := m_summary m; m_video_url := m_video_url m |}.

Definition set_summary (summary : string) (m : Meeting) : Meeting :=
  {| m_status := m_status m; m_transcript := m_transcript m;
     m_summary := Some summary; m_video_url := m_video_url m |}.

Definition set_count (meeting_count : Z) (last_discussed : nat) (t : Topic) : Topic :=
  {| t_name := t_name t; t_meeting_count := Some meeting_count;
     t_last_discussed := Some last_discussed |}.

Definition with_meetings (f : gmap string Meeting -> gmap string Meeting) (s : Store) : Store :=
  {| meetings := f (meetings s); action_items := action_items s; decisions := decisions s;
     topics := topics s; meeting_topics := meeting_topics s;
     meeting_embeddings := meeting_embeddings s; next_id := next_id s |}.

(** What a statement does to the rows it reaches. *)
Definition effect (stmt : Stmt) (s : Store) : Store :=
  match stmt with
  | UpdateStatus id st => with_meetings (alter (set_status st) id) s
  | UpdateTranscript id text => with_meetings (alter (set_transcript text) id) s
  | UpdateSummary id summary => with_meetings (alter (set_summary summary) id) s
  | InsertActionItem row =>
      {| meetings := meetings s; action_items := action_items s ++ [row];
         decisions := decisions s; topics := topics s; meeting_topics := meeting_topics s;
         meeting_embeddings := meeting_embeddings s; next_id := S (next_id s) |}
  | InsertDecision row =>
      {| meetings := meetings s; action_items := action_items s;
         decisions := decisions s ++ [row]; topics := topics s;
         meeting_topics := meeting_topics s;
         meeting_embeddings := meeting_embeddings s; next_id := S (next_id s) |}
  | InsertTopic id t =>
      {| meetings := meetings s; action_items := action_items s; decisions := decisions s;
         topics := <[id := t]> (topics s); meeting_topics := meeting_topics s;
         meeting_embeddings := meeting_embeddings s; next_id := next_id s |}
  | UpdateTopic id c ts =>
      {| meetings := meetings s; action_items := action_items s; decisions := decisions s;
         topics := alter (set_count c ts) id (topics s); meeting_topics := meeting_topics s;
         meeting_embeddings := meeting_embeddings s; next_id := next_id s |}
  | InsertMeetingTopic m t =>
      {| meetings := meetings s; action_items := action_items s; decisions := decisions s;
         topics := topics s; meeting_topics := {[ (m, t) ]} ∪ meeting_topics s;
         meeting_embeddings := meeting_embeddings s; next_id := next_id s |}
  | InsertEmbedding row =>
      {| meetings := meetings s; action_items := action_items s; decisions := decisions s;
         topics := topics s; meeting_topics := meeting_topics s;
         meeting_embeddings := meeting_embeddings s ++ [row]; next_id := S (next_id s) |}
  | DeleteActionItems m =>
      {| meetings := meetings s;
         action_items := filter (fun r => ai_meeting_id r ≠ m) (action_items s);
         decisions := decisions s; topics := topics s; meeting_topics := meeting_topics s;
         meeting_embeddings := meeting_embeddings s; next_id := next_id s |}
  | DeleteDecisions m =>
      {| meetings := meetings s; action_items := action_items s;
         decisions := filter (fun r => d_meeting_id r ≠ m) (decisions s);
         topics := topics s; meeting_topics := meeting_topics s;
         meeting_embeddings := meeting_embeddings s; next_id := next_id s |}
  | DeleteMeetingTopics m =>
      {| meetings := meetings s; action_items := action_items s; decisions := decisions s;
         topics := topics s;
         meeting_topics := filter (fun l => l.1 ≠ m) (meeting_topics s);
         meeting_embeddings := meeting_embeddings s; next_id := next_id s |}
  | DeleteEmbeddings m =>
      {| meetings := meetings s; action_items := action_items s; decisions := decisions s;
         topics := topics s; meeting_topics := meeting_topics s;
         meeting_embeddings := filter (fun r => e_meeting_id r ≠ m) (meeting_embeddings s);
         next_id := next_id s |}
  end.

(** schema.sql enables row level security on every table and creates, for
    the role [authenticated], the policies below; a command on a table
    without a policy for it reaches no row.  The conditions of the policies
    are on the owner of the meeting ([auth.uid() = created_by]): the store is
    the store as the signed-in user who created the meetings sees it, for
    whom they hold. *)
Inductive Table :=
| tbl_meetings | tbl_action_items | tbl_decisions | tbl_topics | tbl_meeting_topics
| tbl_meeting_embeddings.

Inductive Command := cmd_select | cmd_insert | cmd_update | cmd_delete.

Definition has_policy (t : Table) (c : Command) : bool :=
  match t, c with
  | tbl_meetings, _ => true
  | tbl_action_items, _ => true
  | tbl_decisions, cmd_update => false
  | tbl_decisions, _ => true
  | tbl_topics, (cmd_select | cmd_insert) => true
  | tbl_topics, _ => false
  | tbl_meeting_topics, (cmd_select | cmd_insert) => true
  | tbl_meeting_topics, _ => false
  | tbl_meeting_embeddings, cmd_update => false
  | tbl_meeting_embeddings, _ => true
  end.

Definition target (stmt : Stmt) : Table * Command :=
  match stmt with
  | UpdateStatus _ _ | UpdateTranscript _ _ | UpdateSummary _ _ => (tbl_meetings, cmd_update)
  | InsertActionItem _ => (tbl_action_items, cmd_insert)
  | InsertDecision _ => (tbl_decisions, cmd_insert)
  | InsertTopic _ _ => (tbl_topics, cmd_insert)
  | UpdateTopic _ _ _ => (tbl_topics, cmd_update)
  | InsertMeetingTopic _ _ => (tbl_meeting_topics, cmd_insert)
  | InsertEmbedding _ => (tbl_meeting_embeddings, cmd_insert)
  | DeleteActionItems _ => (tbl_action_items, cmd_delete)
  | DeleteDecisions _ => (tbl_decisions, cmd_delete)
  | DeleteMeetingTopics _ => (tbl_meeting_topics, cmd_delete)
  | DeleteEmbeddings _ => (tbl_meeting_embeddings, cmd_delete)
  end.

(** The effect of a statement on the store: an [UPDATE] or a [DELETE] that
    no policy allows matches no row and reports no error.  (The statements
    whose [INSERT] the services send are all on tables with a policy.) *)
Definition apply_stmt (stmt : Stmt) (s : Store) : Store :=
  let '(table, command) := target stmt in
  if has_policy table command then effect stmt s else s.

(** The world: the store and the trace of what has been done so far, oldest
    event first.  The length of the trace is the clock. *)
Record World := {
  store : Store;
  trace : list Event;
}.

Definition step (ev : Event) (w : World) : World :=
  {| store := match ev with Db stmt => apply_stmt stmt (store w) | _ => store w end;
     trace := trace w ++ [ev] |}.

Definition now (w : World) : nat := List.length (trace w).

(** The environment: the configuration, the behaviour of the providers and
    what the services use of the platform.  A reply may depend on the moment
    of the request.
    - [json_parse] is [JSON.parse] on a response stripped of its code fences:
      the value, or [None] for a [SyntaxError].
    - [to_number] is [ToNumber] of ECMAScript on a string, an array or an
      object.
    - [pg_text], [pg_date] and [pg_text_array] are the store reading a value
      that is not [null] for a column of type TEXT, DATE and TEXT[]: what the
      row holds, or [None] when the store refuses the row (a text that is not
      a date, for instance). *)
Record Env := {
  VITE_ASSEMBLYAI_API_KEY : option string;
  VITE_GEMINI_API_KEY : option string;
  assemblyai_submit : nat -> string -> Reply SubmitReply;
  assemblyai_poll : nat -> string -> Reply PollReply;
  gemini_generate : nat -> string -> Reply string;
  gemini_embed : nat -> string -> Reply (list T);
  json_parse : string -> option Json;
  to_number : Json -> float;
  pg_text : Json -> option string;
  pg_date : Json -> option string;
  pg_text_array : Json -> option (list string);
}.

(** [v.length > 0] for a value [v] that is neither [null] nor [undefined] *)
Definition length_positive (env : Env) (v : Json) : bool :=
  match v with
  | JArray items => (0 <? List.length items)%nat
  | JString s => (0 <? String.length s)%nat
  | JObject _ =>
      match member "length" v with
      | None | Some JNull | Some (JBool false) => false
      | Some (JBool true) => true
      | Some (JNumber x) => (0 <? x)%float
      | Some x => (0 <? to_number env x)%float
      end
  | _ => false
  end.

(** Computations: they may change the world and end with a value or an
    exception. *)
Definition M (A : Type) : Type := World -> Result A * World.

Definition ret {A} (a : A) : M A := fun w => (Ok a, w).

Definition bind {A B} (m : M A) (f : A -> M B) : M B :=
  fun w => match m w with
           | (Ok a, w') => f a w'
           | (Throw e, w') => (Throw e, w')
           end.

Definition throw {A} (message : string) : M A := fun w => (Throw message, w).

(** [try { body } catch (err) { handler(err.message) }] *)
Definition try_catch {A} (body : M A) (handler : string -> M A) : M A :=
  fun w => match body w with
           | (Ok a, w') => (Ok a, w')
           | (Throw e, w') => handler e w'
           end.

Definition get : M World := fun w => (Ok w, w).

Definition emit (ev : Event) : M unit := fun w => (Ok tt, step ev w).

Definition exec (stmt : Stmt) : M unit := emit (Db stmt).

(** [await promise]: a rejected promise throws its message. *)
Definition await {A} (r : Reply A) : M A :=
  match r with
  | Rejected e => throw e
  | Resolved a => ret a
  end.

(** [for (const x of l) { body(x) }] *)
Fixpoint for_each {A} (l : list A) (body : A -> M unit) : M unit :=
  match l with
  | [] => ret tt
  | x :: rest => bind (body x) (fun _ => for_each rest body)
  end.

End WithNumbers.

Arguments apply_stmt {T} !stmt s /.
Arguments EmbeddingRow : clear implicits.
Arguments Store : clear implicits.
Arguments Stmt : clear implicits.
Arguments Event : clear implicits.
Arguments World : clear implicits.
Arguments Env : clear implicits.
Arguments M : clear implicits.

Declare Scope sys_scope.
Delimit Scope sys_scope with sys.
Notation "'do' x <- m ; k" := (bind m (fun x => k))
  (at level 10, x name, m at level 100, k at level 200,
   format "'[v' 'do'  x  <-  m ; '/' k ']'") : sys_scope.
Notation "'run' m ; k" := (bind m (fun _ => k))
  (at level 10, m at level 100, k at level 200,
   format "'[v' 'run'  m ; '/' k ']'") : sys_scope.

End Sys.

(** ** ai.service.ts *)

Module AiService.
Import Sys.
Local Open Scope sys_scope.

Record MeetingInsightsResult := {
  actionItems : list ActionItem;
  decisions : list Decision;
}.

Record ProcessedMeeting := {
  p_transcript : string;
  p_actionItems : list ActionItem;
  p_decisions : list Decision;
}.

Section AiService.
Context {T : Type}.
Variable env : Env T.

Definition getAssemblyAIKey : M T string :=
  match truthy (VITE_ASSEMBLYAI_API_KEY env) with
  | Some key => ret key
  | None => throw "VITE_ASSEMBLYAI_API_KEY environment variable is not set"
  end.

Definition getGeminiKey : M T string :=
  match truthy (VITE_GEMINI_API_KEY env) with
  | Some key => ret key
  | None => throw "VITE_GEMINI_API_KEY environment variable is not set"
  end.

(** Requests to the providers: the request is recorded, the reply is the one
    the environment gives at that moment. *)
Definition fetch_submit (audioUrl : string) : M T SubmitReply :=
  do w <- get; run emit (Submit audioUrl); await (assemblyai_submit env (now w) audioUrl).

Definition fetch_poll (transcriptId : string) : M T PollReply :=
  do w <- get; run emit (Poll transcriptId); await (assemblyai_poll env (now w) transcriptId).

Definition generateContent (prompt : string) : M T string :=
  do w <- get; run emit (Generate prompt); await (gemini_generate env (now w) prompt).

Definition embedContent (text : string) : M T (list T) :=
  do w <- get; run emit (Embed text); await (gemini_embed env (now w) text).

Definition maxAttempts : nat := 60.

(** [while (attempts < maxAttempts) { ... attempts++ }]: [remaining] is
    [maxAttempts - attempts] and [last] the variable [transcript]. *)
Fixpoint poll_loop (remaining : nat) (transcriptId : string)
    (last : option (TranscriptStatus * option string))
  : M T (option (TranscriptStatus * option string)) :=
  match remaining with
  | O => ret last
  | S remaining' =>
      do reply <- fetch_poll transcriptId;
      match reply with
      | PollNotOk statusText => throw ("AssemblyAI polling failed: " +:+ statusText)
      | PollOk st_completed text _ => ret (Some (st_completed, text))
      | PollOk st_error _ error => throw ("AssemblyAI transcription error: " +:+ error)
      | PollOk st text _ =>
          run emit (Sleep 5000);
          poll_loop remaining' transcriptId (Some (st, text))
      end
  end.

Definition transcribeMeeting (meetingId audioUrl : string) : M T string :=
  do apiKey <- getAssemblyAIKey;
  try_catch
    (do submitResponse <- fetch_submit audioUrl;
     match submitResponse with
     | SubmitNotOk error => throw ("AssemblyAI submission failed: " +:+ error)
     | SubmitOk transcriptId =>
         do transcript <- poll_loop maxAttempts transcriptId None;
         match transcript with
         | Some (st_completed, text) =>
             let transcriptText := default "" (truthy text) in
             run exec (UpdateTranscript meetingId transcriptText);
             ret transcriptText
         | _ => throw "Transcription timed out"
         end
     end)
    (fun errorMessage =>
       run exec (UpdateStatus meetingId failed);
       throw errorMessage).

(** The prompts, as the source has them. *)
Definition dq : string := String "034" EmptyString.

Definition insightsPrompt (transcript : string) : string :=
  "Analyze the following meeting transcript and extract structured information.

Return a JSON object with the following structure:
{
  " +:+ dq +:+ "actionItems" +:+ dq +:+ ": [
    {
      " +:+ dq +:+ "description" +:+ dq +:+ ": " +:+ dq +:+ "Clear description of the action item" +:+ dq +:+ ",
      " +:+ dq +:+ "priority" +:+ dq +:+ ": " +:+ dq +:+ "high" +:+ dq +:+ " | " +:+ dq +:+ "medium" +:+ dq +:+ " | " +:+ dq +:+ "low" +:+ dq +:+ ",
      " +:+ dq +:+ "due_date" +:+ dq +:+ ": " +:+ dq +:+ "YYYY-MM-DD or null if not mentioned" +:+ dq +:+ "
    }
  ],
  " +:+ dq +:+ "decisions" +:+ dq +:+ ": [
    {
      " +:+ dq +:+ "decision_text" +:+ dq +:+ ": " +:+ dq +:+ "The decision that was made" +:+ dq +:+ ",
      " +:+ dq +:+ "context" +:+ dq +:+ ": " +:+ dq +:+ "Context or reasoning behind the decision" +:+ dq +:+ ",
      " +:+ dq +:+ "tags" +:+ dq +:+ ": [" +:+ dq +:+ "relevant" +:+ dq +:+ ", " +:+ dq +:+ "topic" +:+ dq +:+ ", " +:+ dq +:+ "tags" +:+ dq +:+ "]
    }
  ],
  " +:+ dq +:+ "topics" +:+ dq +:+ ": [" +:+ dq +:+ "main topics discussed in the meeting" +:+ dq +:+ "]
}

Guidelines:
- Extract all actionable tasks mentioned
- Identify clear decisions that were made
- Set priority based on urgency mentioned
- Extract dates if mentioned, otherwise leave null
- Be concise but complete

Transcript:
" +:+ transcript +:+ "

Return ONLY valid JSON, no markdown or additional text.".

Definition summaryPrompt (transcript : string) : string :=
  "Summarize the following meeting transcript in 2-3 concise paragraphs. 
Focus on key discussion points, decisions made, and next steps.

Transcript:
" +:+ transcript.

Definition topicsPrompt (transcript : string) : string :=
  "Extract the main topics discussed in this meeting transcript.
Return ONLY a JSON array of topic strings (3-7 topics).
Topics should be concise (1-3 words each).

Transcript:
" +:+ transcript +:+ "

Return format: [" +:+ dq +:+ "topic1" +:+ dq +:+ ", " +:+ dq +:+ "topic2" +:+ dq +:+ ", " +:+ dq +:+ "topic3" +:+ dq +:+ "]".

(** [v.key] where [v] is not [undefined]: reading a property of [null]
    throws a [TypeError] (the messages of the [TypeError]s are those of V8). *)
Definition prop (v : Json) (key : string) : M T Value :=
  match v with
  | JNull => throw ("Cannot read properties of null (reading '" +:+ key +:+ "')")
  | _ => ret (member key v)
  end.

(** What the store holds for a nullable column when it is sent [v || null]:
    [Some None] is NULL, [None] a refusal. *)
Definition nullable {A} (read : Json -> option A) (v : Value) : option (option A) :=
  match v with
  | Some x => if js_truthy v then Some <$> read x else Some None
  | None => Some None
  end.

(** The row the store makes of the object sent to [action_items], when it
    accepts it.  A description that is [undefined] is left out of the request
    and, like [null], violates NOT NULL. *)
Definition action_item_row (id : nat) (meetingId : string)
    (description priority due_date : Value) : option ActionItem :=
  match description with
  | None | Some JNull => None
  | Some description =>
      match pg_text env description, pg_text env (js_or priority (JString "medium")),
            nullable (pg_date env) due_date with
      | Some description, Some priority, Some due_date =>
          Some {| ai_id := id; ai_meeting_id := meetingId; ai_description := description;
                  ai_priority := priority; ai_due_date := due_date; ai_status := pending |}
      | _, _, _ => None
      end
  end.

Definition decision_row (id : nat) (meetingId : string)
    (decision_text context tags : Value) : option Decision :=
  match decision_text with
  | None | Some JNull => None
  | Some decision_text =>
      match pg_text env decision_text, nullable (pg_text env) context,
            nullable (pg_text_array env) tags with
      | Some decision_text, Some context, Some tags =>
          Some {| d_id := id; d_meeting_id := meetingId; d_decision_text := decision_text;
                  d_context := context; d_tags := tags |}
      | _, _, _ => None
      end
  end.

(** [insert({...}).select().single()] into a table that references
    [meetings]: the properties of the element are read first; the row is
    refused when the meeting does not exist or a column cannot hold what is
    sent. *)
Definition insertActionItem (meetingId : string) (item : Json) : M T (option ActionItem) :=
  do description <- prop item "description";
  do priority <- prop item "priority";
  do due_date <- prop item "due_date";
  do w <- get;
  match meetings (store w) !! meetingId,
        action_item_row (next_id (store w)) meetingId description priority due_date with
  | Some _, Some row => run exec (InsertActionItem row); ret (Some row)
  | _, _ => ret None
  end.

Definition insertDecision (meetingId : string) (decision : Json) : M T (option Decision) :=
  do decision_text <- prop decision "decision_text";
  do context <- prop decision "context";
  do tags <- prop decision "tags";
  do w <- get;
  match meetings (store w) !! meetingId,
        decision_row (next_id (store w)) meetingId decision_text context tags with
  | Some _, Some row => run exec (InsertDecision row); ret (Some row)
  | _, _ => ret None
  end.

(** [for (const x of l) { const { data, error } = await insert(x);
    if (error) continue; if (data) created.push(data); }] *)
Fixpoint insert_all {A B} (insert : A -> M T (option B)) (l : list A) (created : list B)
  : M T (list B) :=
  match l with
  | [] => ret created
  | x :: rest =>
      do r <- insert x;
      insert_all insert rest (match r with Some row => created ++ [row] | None => created end)
  end.

(** [const created = []; if (v && v.length > 0) { for (const x of v) ... }]:
    [name] is the expression, for the message of the [TypeError]. *)
Definition insert_each {B} (name : string) (v : Value) (insert : Json -> M T (option B))
  : M T (list B) :=
  match v with
  | Some x =>
      if js_truthy v && length_positive env x
      then match iterate x with
           | Some items => insert_all insert items []
           | None => throw (name +:+ " is not iterable")
           end
      else ret []
  | None => ret []
  end.

Definition generateMeetingSummary (transcript : string) : M T (option string) :=
  try_catch
    (do text <- generateContent (summaryPrompt transcript); ret (Some text))
    (fun _ => ret None).

Definition extractMeetingInsights (meetingId transcript : string)
  : M T MeetingInsightsResult :=
  do apiKey <- getGeminiKey;
  try_catch
    (do responseText <- generateContent (insightsPrompt transcript);
     match json_parse env responseText with
     | None => throw "Failed to parse AI response as JSON"
     | Some insights =>
         do actionItems <- prop insights "actionItems";
         do createdActionItems <-
           insert_each "insights.actionItems" actionItems (insertActionItem meetingId);
         do decisions <- prop insights "decisions";
         do createdDecisions <-
           insert_each "insights.decisions" decisions (insertDecision meetingId);
         do summary <- generateMeetingSummary transcript;
         run match truthy summary with
             | Some s => exec (UpdateSummary meetingId s)
             | None => ret tt
             end;
         ret {| actionItems := createdActionItems; decisions := createdDecisions |}
     end)
    (fun errorMessage => throw errorMessage).

(** [topics.filter(t => typeof t === 'string' && t.length > 0)] *)
Definition topic_names (items : list Json) : list string :=
  omap (fun t => match t with
                 | JString s => if (0 <? String.length s)%nat then Some s else None
                 | _ => None
                 end) items.

(** A response that is not JSON, or not an array, throws ([JSON.parse], or
    the call of [filter]); the [catch] answers no topic, whatever the
    message. *)
Definition extractTopics (transcript : string) : M T (list string) :=
  try_catch
    (do responseText <- generateContent (topicsPrompt transcript);
     match json_parse env responseText with
     | Some (JArray topics) => ret (topic_names topics)
     | Some _ => throw "topics.filter is not a function"
     | None => throw "Unexpected token"
     end)
    (fun _ => ret []).

(** [.eq('name', name).single()]: the row, when exactly one row has the name. *)
Definition single_topic (name : string) (s : Store T) : option (nat * Topic) :=
  match map_to_list (filter (fun kv => t_name kv.2 = name) (topics s)) with
  | [kv] => Some kv
  | _ => None
  end.

Definition upsertTopicAndLink (meetingId topicName : string) : M T unit :=
  let normalizedName := Text.trim (Text.toLowerCase topicName) in
  do w <- get;
  do topicId <-
    match single_topic normalizedName (store w) with
    | Some (id, existingTopic) =>
        run exec (UpdateTopic id (default 0%Z (t_meeting_count existingTopic) + 1) (now w));
        ret id
    | None =>
        let id := fresh (dom (topics (store w))) in
        run exec (InsertTopic id {| t_name := normalizedName;
                                    t_meeting_count := Some 1%Z;
                                    t_last_discussed := Some (now w) |});
        ret id
    end;
  do w' <- get;
  if decide ((meetingId, topicId) ∈ meeting_topics (store w')) then ret tt
  else match meetings (store w') !! meetingId with
       | None => ret tt
       | Some _ => exec (InsertMeetingTopic meetingId topicId)
       end.

Definition insertEmbedding (meetingId : string) (embedding : list T) (chunk : string)
    (i : nat) : M T unit :=
  do w <- get;
  match meetings (store w) !! meetingId with
  | None => ret tt
  | Some _ =>
      exec (InsertEmbedding {| e_id := next_id (store w); e_meeting_id := meetingId;
                               e_embedding := embedding; e_content_chunk := chunk;
                               e_chunk_index := i |})
  end.

(** [for (let i = 0; i < chunks.length; i++) { try { ... } catch { } }] *)
Fixpoint embed_chunks (meetingId : string) (chunks : list string) (i : nat) : M T unit :=
  match chunks with
  | [] => ret tt
  | chunk :: rest =>
      run try_catch
            (do embedding <- embedContent chunk;
             insertEmbedding meetingId embedding chunk i)
            (fun _ => ret tt);
      embed_chunks meetingId rest (S i)
  end.

Definition chunks_of (transcript : string) : list string :=
  default [] (Text.splitIntoChunks transcript 500).

Definition generateAndStoreEmbeddings (meetingId transcript : string) : M T unit :=
  let chunks := chunks_of transcript in
  run exec (DeleteEmbeddings meetingId);
  embed_chunks meetingId chunks 0.

Definition updateTopicsAndEmbeddings (meetingId transcript : string) : M T unit :=
  do apiKey <- getGeminiKey;
  try_catch
    (do topics <- extractTopics transcript;
     run for_each topics (upsertTopicAndLink meetingId);
     generateAndStoreEmbeddings meetingId transcript)
    (fun errorMessage => throw errorMessage).

Definition processMeeting (meetingId audioUrl : string) : M T ProcessedMeeting :=
  try_catch
    (do transcript <- transcribeMeeting meetingId audioUrl;
     do insights <- extractMeetingInsights meetingId transcript;
     run updateTopicsAndEmbeddings meetingId transcript;
     ret {| p_transcript := transcript;
            p_actionItems := actionItems insights;
            p_decisions := decisions insights |})
    (fun errorMessage => throw errorMessage).

End AiService.
End AiService.

(** ** Ranking, qa.service.ts and the search of ai.service.ts *)

Module QaService.
Import Sys Numbers.
Local Open Scope sys_scope.

Record MeetingSearchResult (T : Type) := {
  meetingId : string;
  snippet : string;
  relevance : T;
}.
Arguments meetingId {T} _.
Arguments snippet {T} _.
Arguments relevance {T} _.

Record AnswerSource := {
  s_meetingId : string;
  s_snippet : string;
}.

Record QAResult := {
  answer : string;
  sources : list AnswerSource;
}.

Record RelevantChunk (T : Type) := {
  c_meetingId : string;
  c_content : string;
  c_relevance : T;
}.
Arguments c_meetingId {T} _.
Arguments c_content {T} _.
Arguments c_relevance {T} _.

(** [truncateSnippet(text, maxLength)] *)
Definition truncateSnippet (text : string) (maxLength : nat) : string :=
  if (String.length text <=? maxLength)%nat then text
  else Text.trim (String.substring 0 maxLength text) +:+ "...".

(** [array.sort(compare)]: the sort is stable, and for a consistent
    comparison function every stable sort gives the same array.  [before x y]
    is [compare(x, y) <= 0]: [x] need not move behind [y]. *)
Fixpoint insert_by {A} (before : A -> A -> bool) (x : A) (l : list A) : list A :=
  match l with
  | [] => [x]
  | y :: l' => if before x y then x :: y :: l' else y :: insert_by before x l'
  end.

Definition sort_by {A} (before : A -> A -> bool) (l : list A) : list A :=
  fold_right (insert_by before) [] l.

Definition canned_answer : string :=
  "I could not find any relevant meeting content to answer your question. Please try rephrasing your question or ensure meetings have been processed.".

Section QaService.
Context {T : Type} `{Num T}.
Variable env : Env T.

(** [(a, b) => b.relevance - a.relevance] is not positive *)
Definition desc (x y : T) : bool := negb (num_ltb num_zero (num_sub y x)).

(** [.from('meeting_embeddings').select('meeting_id, embedding, content_chunk')] *)
Definition fetchEmbeddings : M T (list (EmbeddingRow T)) :=
  do w <- get; ret (meeting_embeddings (store w)).

(** Step 5 of [searchMeetings]: the loop over the sorted results with the set
    [seenMeetings], the array [deduplicatedResults] and its [break]. *)
Fixpoint dedupe_loop (topK : Z) (scoredResults : list (MeetingSearchResult T))
    (seenMeetings : gset string) (deduplicatedResults : list (MeetingSearchResult T))
  : list (MeetingSearchResult T) :=
  match scoredResults with
  | [] => deduplicatedResults
  | result :: rest =>
      if decide (meetingId result ∈ seenMeetings)
      then dedupe_loop topK rest seenMeetings deduplicatedResults
      else
        let deduplicatedResults' := deduplicatedResults ++ [result] in
        if (Z.of_nat (List.length deduplicatedResults') >=? topK)%Z
        then deduplicatedResults'
        else dedupe_loop topK rest ({[ meetingId result ]} ∪ seenMeetings) deduplicatedResults'
  end.

Definition score (queryEmbedding : list T) (record : EmbeddingRow T) : MeetingSearchResult T :=
  {| meetingId := e_meeting_id record;
     snippet := truncateSnippet (e_content_chunk record) 300;
     relevance := cosineSimilarity queryEmbedding (e_embedding record) |}.

(** Steps 3 to 5 of [searchMeetings] *)
Definition rank (queryEmbedding : list T) (embeddings : list (EmbeddingRow T)) (topK : Z)
  : list (MeetingSearchResult T) :=
  let scoredResults := map (score queryEmbedding) embeddings in
  let sorted := sort_by (fun a b => desc (relevance a) (relevance b)) scoredResults in
  dedupe_loop topK sorted ∅ [].

(** [searchMeetings(query, topK)] of qa.service.ts *)
Definition searchMeetings (query : string) (topK : Z) : M T (list (MeetingSearchResult T)) :=
  if Text.blank query then throw "Search query cannot be empty"
  else
    do apiKey <- AiService.getGeminiKey env;
    try_catch
      (do queryEmbedding <- AiService.embedContent env (Text.trim query);
       do embeddings <- fetchEmbeddings;
       match embeddings with
       | [] => ret []
       | _ => ret (rank queryEmbedding embeddings topK)
       end)
      (fun errorMessage => throw ("Search failed: " +:+ errorMessage)).

Definition score_chunk (queryEmbedding : list T) (record : EmbeddingRow T) : RelevantChunk T :=
  {| c_meetingId := e_meeting_id record;
     c_content := e_content_chunk record;
     c_relevance := cosineSimilarity queryEmbedding (e_embedding record) |}.

Definition findRelevantChunks (query : string) (topK : Z) : M T (list (RelevantChunk T)) :=
  do queryEmbedding <- AiService.embedContent env (Text.trim query);
  do embeddings <- fetchEmbeddings;
  match embeddings with
  | [] => ret []
  | _ =>
      let scoredChunks :=
        sort_by (fun a b => desc (c_relevance a) (c_relevance b))
                (map (score_chunk queryEmbedding) embeddings) in
      ret (Text.slice_to topK scoredChunks)
  end.

Fixpoint label_sources (chunks : list (RelevantChunk T)) (index : nat) : list string :=
  match chunks with
  | [] => []
  | chunk :: rest =>
      ("[Source " +:+ pretty (index + 1) +:+ "]
" +:+ c_content chunk) :: label_sources rest (S index)
  end.

(** The prompt of the answer. *)
Definition answerPrompt (context question : string) : string :=
  "You are an AI assistant that answers questions about meetings based on transcript content.

Use ONLY the following meeting transcript excerpts to answer the question. If the information is not in the provided context, say so clearly.

Context from meeting transcripts:
" +:+ context +:+ "

Question: " +:+ question +:+ "

Instructions:
- Answer concisely and accurately based on the provided context
- If multiple sources discuss the topic, synthesize the information
- If the context doesn't contain enough information, acknowledge this
- Do not make up information not present in the context
- Keep the answer focused and relevant

Answer:".

(** [answerMeetingQuestion(question, topK)] *)
Definition answerMeetingQuestion (question : string) (topK : Z) : M T QAResult :=
  if Text.blank question then throw "Question cannot be empty"
  else
    do apiKey <- AiService.getGeminiKey env;
    try_catch
      (do relevantChunks <- findRelevantChunks question topK;
       match relevantChunks with
       | [] => ret {| answer := canned_answer; sources := [] |}
       | _ =>
           let context := Text.join "

" (label_sources relevantChunks 0) in
           do text <- AiService.generateContent env (answerPrompt context question);
           ret {| answer := Text.trim text;
                  sources := map (fun chunk =>
                                    {| s_meetingId := c_meetingId chunk;
                                       s_snippet := truncateSnippet (c_content chunk) 200 |})
                                 relevantChunks |}
       end)
      (fun errorMessage => throw ("Q&A failed: " +:+ errorMessage)).

(** [searchMeetings(query, limit)] of ai.service.ts: no snippet, the
    duplicates removed by [reduce] and [find], the cut made by [slice]. *)
Record ScoredRow := {
  r_meeting_id : string;
  r_content_chunk : string;
  r_similarity : T;
}.

Definition score_row (queryEmbedding : list T) (row : EmbeddingRow T) : ScoredRow :=
  {| r_meeting_id := e_meeting_id row;
     r_content_chunk := e_content_chunk row;
     r_similarity := cosineSimilarity_ai queryEmbedding (e_embedding row) |}.

Definition dedupe_reduce (acc : list ScoredRow) (curr : ScoredRow) : list ScoredRow :=
  if existsb (fun r => String.eqb (r_meeting_id r) (r_meeting_id curr)) acc
  then acc else acc ++ [curr].

Definition searchMeetings_ai (query : string) (limit : Z) : M T (list ScoredRow) :=
  do apiKey <- AiService.getGeminiKey env;
  try_catch
    (do queryEmbedding <- AiService.embedContent env query;
     do embeddings <- fetchEmbeddings;
     let results := map (score_row queryEmbedding) embeddings in
     let sortedResults :=
       fold_left dedupe_reduce
         (sort_by (fun a b => desc (r_similarity a) (r_similarity b)) results) [] in
     ret (Text.slice_to limit sortedResults))
    (fun errorMessage => throw errorMessage).

End QaService.
End QaService.

(** ** The orchestrator service *)

Module Orchestrator.
Import Sys.
Local Open Scope sys_scope.

Record MeetingProcessingResult := {
  success : bool;
  meetingId : string;
  transcript : option string;
  actionItems : list ActionItem;
  decisions : list Decision;
  error : option string;
}.

Definition failure (meetingId errorMessage : string) : MeetingProcessingResult :=
  {| success := false; meetingId := meetingId; transcript := None;
     actionItems := []; decisions := []; error := Some errorMessage |}.

(** The pauses between the items of a batch and between two retries. *)
Definition batch_delay : Z := 1000.
Definition retry_delay : Z := 2000.

Section Orchestrator.
Context {T : Type}.
Variable env : Env T.

Definition updateMeetingStatus (meetingId : string) (status : ProcessingStatus) : M T unit :=
  exec (UpdateStatus meetingId status).

(** [.select('*').eq('id', meetingId).single()] *)
Definition getMeeting (meetingId : string) : M T (option Meeting) :=
  do w <- get; ret (meetings (store w) !! meetingId).

Definition deleteExistingActionItems (meetingId : string) : M T unit :=
  exec (DeleteActionItems meetingId).
Definition deleteExistingDecisions (meetingId : string) : M T unit :=
  exec (DeleteDecisions meetingId).
Definition deleteExistingMeetingTopics (meetingId : string) : M T unit :=
  exec (DeleteMeetingTopics meetingId).
Definition deleteExistingEmbeddings (meetingId : string) : M T unit :=
  exec (DeleteEmbeddings meetingId).

Definition handleNewMeeting (meetingId audioUrl : string) : M T MeetingProcessingResult :=
  try_catch
    (run updateMeetingStatus meetingId processing;
     do result <- AiService.processMeeting env meetingId audioUrl;
     ret {| success := true; meetingId := meetingId;
            transcript := Some (AiService.p_transcript result);
            actionItems := AiService.p_actionItems result;
            decisions := AiService.p_decisions result;
            error := None |})
    (fun errorMessage =>
       run updateMeetingStatus meetingId failed;
       ret (failure meetingId errorMessage)).

(** The four deletions of [Promise.all] are on four tables and commute; they
    are taken in the order of the array. *)
Definition handleUpdatedMeeting (meetingId : string) (newAudioUrl : option string)
  : M T MeetingProcessingResult :=
  try_catch
    (do meeting <- getMeeting meetingId;
     match meeting with
     | None => throw ("Meeting " +:+ meetingId +:+ " not found")
     | Some meeting =>
         run updateMeetingStatus meetingId processing;
         run deleteExistingActionItems meetingId;
         run deleteExistingDecisions meetingId;
         run deleteExistingMeetingTopics meetingId;
         run deleteExistingEmbeddings meetingId;
         do transcript <-
           match truthy newAudioUrl with
           | Some url => AiService.transcribeMeeting env meetingId url
           | None =>
               match truthy (m_transcript meeting) with
               | Some text => ret text
               | None => throw "No audio URL provided and no existing transcript found"
               end
           end;
         do insights <- AiService.extractMeetingInsights env meetingId transcript;
         run AiService.updateTopicsAndEmbeddings env meetingId transcript;
         run updateMeetingStatus meetingId ready;
         ret {| success := true; meetingId := meetingId;
                transcript := Some transcript;
                actionItems := AiService.actionItems insights;
                decisions := AiService.decisions insights;
                error := None |}
     end)
    (fun errorMessage =>
       run updateMeetingStatus meetingId failed;
       ret (failure meetingId errorMessage)).

(** [for (let i = 0; i < meetings.length; i++)] with the pause
    [if (i < meetings.length - 1)] *)
Fixpoint batch_loop (meetings : list (string * string))
    (results : list MeetingProcessingResult) : M T (list MeetingProcessingResult) :=
  match meetings with
  | [] => ret results
  | (meetingId, audioUrl) :: rest =>
      do result <- handleNewMeeting meetingId audioUrl;
      run match rest with
          | [] => ret tt
          | _ => emit (Sleep batch_delay)
          end;
      batch_loop rest (results ++ [result])
  end.

Definition batchProcessMeetings (meetings : list (string * string))
  : M T (list MeetingProcessingResult) :=
  batch_loop meetings [].

(** [.from('meetings').select('id, video_url').eq('status', 'failed')] *)
Definition fetchFailedMeetings : M T (list (string * option string)) :=
  do w <- get;
  ret (map (fun kv => (kv.1, m_video_url kv.2))
           (map_to_list (filter (fun kv => m_status kv.2 = failed) (meetings (store w))))).

Fixpoint retry_loop (failedMeetings : list (string * option string))
    (results : list MeetingProcessingResult) : M T (list MeetingProcessingResult) :=
  match failedMeetings with
  | [] => ret results
  | (id, video_url) :: rest =>
      do result <-
        match truthy video_url with
        | Some url => handleNewMeeting id url
        | None => handleUpdatedMeeting id None
        end;
      run emit (Sleep retry_delay);
      retry_loop rest (results ++ [result])
  end.

Definition reprocessFailedMeetings : M T (list MeetingProcessingResult) :=
  do failedMeetings <- fetchFailedMeetings;
  retry_loop failedMeetings [].

End Orchestrator.

Section Answer.
Context {T : Type} `{Numbers.Num T}.
Variable env : Env T.

Definition getAnswerForQuestion (question : string) (topK : Z) : M T QaService.QAResult :=
  if Text.blank question
  then ret {| QaService.answer := "Please provide a valid question."; QaService.sources := [] |}
  else
    try_catch
      (do result <- QaService.answerMeetingQuestion env question topK;
       ret {| QaService.answer := QaService.answer result;
              QaService.sources := QaService.sources result |})
      (fun errorMessage =>
         ret {| QaService.answer :=
                  "I encountered an error while trying to answer your question: "
                  +:+ errorMessage +:+ ". Please try again.";
                QaService.sources := [] |}).

End Answer.
End Orchestrator.
(** * Properties *)

(** ** Chunking *)

Example split_ws_ex1 : Text.split_ws " a b " = [""; "a"; "b"; ""].
Proof. reflexivity. Qed.
Example split_ws_ex2 : Text.split_ws "" = [""].
Proof. reflexivity. Qed.
Example chunks_ex1 : Text.splitIntoChunks " a b" 2 = Some [" a"; "b"].
Proof. reflexivity. Qed.
Example chunks_ex2 : Text.splitIntoChunks "a b c d e " 2 = Some ["a b"; "c d"; "e "].
Proof. reflexivity. Qed.
Example chunks_ex3 : Text.splitIntoChunks "a b " 2 = Some ["a b"].
Proof. reflexivity. Qed.
Example chunks_ex4 : Text.splitIntoChunks "a b" 0 = None.
Proof. reflexivity. Qed.

Section StringFacts.

Lemma app_cons_s (c : ascii) (a b : string) : String c a +:+ b = String c (a +:+ b).
Proof. reflexivity. Qed.

Lemma app_nil_l_s (s : string) : "" +:+ s = s.
Proof. reflexivity. Qed.

Lemma app_nil_r_s (s : string) : s +:+ "" = s.
Proof. induction s as [|c s IH]; [reflexivity | by rewrite app_cons_s, IH]. Qed.

Lemma app_assoc_s (a b c : string) : (a +:+ b) +:+ c = a +:+ (b +:+ c).
Proof.
  induction a as [|x a IH]; [reflexivity | by rewrite !app_cons_s, IH].
Qed.

Lemma snoc_app (a : string) (c : ascii) (b : string) :
  Text.snoc a c +:+ b = a +:+ String c b.
Proof. unfold Text.snoc. now rewrite app_assoc_s. Qed.

End StringFacts.

(** A string without white space, and a string made of white space only. *)
Fixpoint ws_free (s : string) : Prop :=
  match s with
  | EmptyString => True
  | String c s' => Text.is_ws c = false /\ ws_free s'
  end.

Fixpoint all_ws (s : string) : Prop :=
  match s with
  | EmptyString => True
  | String c s' => Text.is_ws c = true /\ all_ws s'
  end.

Definition nonempty (t : string) : bool := negb (String.eqb t "").
Definition nonblank (c : string) : bool := (0 <? String.length (Text.trim c))%nat.

Section SplitFacts.

Lemma ws_free_snoc cur c : ws_free cur -> Text.is_ws c = false -> ws_free (Text.snoc cur c).
Proof.
  intros H Hc. induction cur as [|x cur IH]; [by split|].
  destruct H as [Hx H]. unfold Text.snoc. rewrite app_cons_s. split; [done | by apply IH].
Qed.

Lemma snoc_nonempty cur c : Text.snoc cur c <> "".
Proof. destruct cur; discriminate. Qed.

Lemma split_go_ws_free s : forall cur prev,
  ws_free cur -> Forall ws_free (Text.split_go s cur prev).
Proof.
  induction s as [|c s IH]; intros cur prev Hc; simpl.
  - by constructor.
  - destruct (Text.is_ws c) eqn:E.
    + destruct prev; [by apply IH | constructor; [done | by apply IH]].
    + apply IH. by apply ws_free_snoc.
Qed.

(** Reading a stretch without white space only extends the current piece. *)
Lemma split_go_app_free s1 : forall s2 cur prev,
  ws_free s1 ->
  Text.split_go (s1 +:+ s2) cur prev =
  Text.split_go s2 (cur +:+ s1) (match s1 with EmptyString => prev | _ => false end).
Proof.
  induction s1 as [|c s1 IH]; intros s2 cur prev H.
  - by rewrite app_nil_l_s, app_nil_r_s.
  - destruct H as [Hc H]. rewrite app_cons_s. simpl. rewrite Hc, IH by done.
    rewrite snoc_app. by destruct s1.
Qed.

Lemma filter_split_go_prev s :
  List.filter nonempty (Text.split_go s "" true) =
  List.filter nonempty (Text.split_go s "" false).
Proof. destruct s as [|c s]; simpl; [done|]. by destruct (Text.is_ws c). Qed.

(** The pieces are the words, followed by an empty piece when the text ends
    with white space, as soon as the first piece is not empty. *)
Lemma split_go_words s : forall cur prev,
  (prev = false /\ cur <> "") \/ (prev = true /\ cur = "") ->
  exists tail, (tail = [] \/ tail = [""]) /\
    Text.split_go s cur prev = List.filter nonempty (Text.split_go s cur prev) ++ tail.
Proof.
  induction s as [|c s IH]; intros cur prev H; simpl.
  - destruct H as [[-> H]|[-> ->]].
    + exists []. split; [by left|]. unfold nonempty.
      destruct (String.eqb_spec cur ""); [done | by simpl].
    + exists [""]. split; [by right | done].
  - destruct (Text.is_ws c) eqn:E.
    + destruct H as [[-> H]|[-> ->]].
      * destruct (IH "" true) as (tail & Ht & Heq); [by right|].
        exists tail. split; [done|]. simpl. unfold nonempty at 1.
        destruct (String.eqb_spec cur ""); [done|]. simpl. by rewrite <- Heq.
      * apply IH. by right.
    + apply IH. left. split; [done | apply snoc_nonempty].
Qed.

Lemma words_nonempty text : Forall (fun t => t <> "") (Text.words text).
Proof.
  unfold Text.words. apply Forall_forall. intros t Ht.
  apply list_elem_of_In, filter_In in Ht as [_ Ht].
  destruct (String.eqb_spec t ""); [discriminate | done].
Qed.

Lemma words_ws_free text : Forall ws_free (Text.words text).
Proof.
  unfold Text.words. pose proof (split_go_ws_free text "" false I) as H.
  rewrite Forall_forall in *. intros t Ht.
  apply list_elem_of_In, filter_In in Ht as [Ht _]. apply H. by apply list_elem_of_In.
Qed.

(** A text that does not begin with white space splits into its words and at
    most one empty piece at the end. *)
Lemma split_ws_words text :
  Text.starts_with_ws text = false -> text <> "" ->
  exists tail, (tail = [] \/ tail = [""]) /\ Text.split_ws text = Text.words text ++ tail.
Proof.
  intros Hs Hne. destruct text as [|c s]; [done|]. simpl in Hs.
  unfold Text.words, Text.split_ws. simpl. rewrite Hs.
  apply split_go_words. left. split; [done | apply snoc_nonempty].
Qed.

End SplitFacts.

Section TrimFacts.

Lemma trimStart_empty s : Text.trimStart s = "" <-> all_ws s.
Proof.
  induction s as [|c s IH]; simpl; [done|].
  destruct (Text.is_ws c); [rewrite IH; intuition | intuition discriminate].
Qed.

Lemma trimEnd_empty s : Text.trimEnd s = "" <-> all_ws s.
Proof.
  induction s as [|c s IH]; simpl; [done|].
  destruct (Text.trimEnd s) eqn:E.
  - destruct (Text.is_ws c); [intuition | intuition discriminate].
  - split; [discriminate|]. intros [_ H]. apply IH in H. discriminate.
Qed.

Lemma all_ws_trimStart s : all_ws (Text.trimStart s) <-> all_ws s.
Proof.
  induction s as [|c s IH]; simpl; [done|].
  destruct (Text.is_ws c) eqn:E; [rewrite IH; intuition | simpl; by rewrite E].
Qed.

Lemma nonblank_false s : nonblank s = false <-> all_ws s.
Proof.
  unfold nonblank, Text.trim. rewrite <- all_ws_trimStart, <- trimEnd_empty.
  destruct (Text.trimEnd (Text.trimStart s)); simpl; intuition discriminate.
Qed.

Lemma all_ws_app a b : all_ws (a +:+ b) <-> all_ws a /\ all_ws b.
Proof.
  induction a as [|c a IH]; [rewrite app_nil_l_s; simpl; intuition|].
  rewrite app_cons_s. simpl. rewrite IH. intuition.
Qed.

Lemma all_ws_free s : ws_free s -> all_ws s -> s = "".
Proof. destruct s as [|c s]; [done|]. simpl. intros [H _] [H' _]. congruence. Qed.

Lemma all_ws_join p : all_ws (Text.join " " p) <-> Forall all_ws p.
Proof.
  induction p as [|x p IH]; simpl; [by split; [constructor|]|].
  destruct p as [|y p].
  - split; [by repeat constructor | by inversion 1].
  - rewrite !all_ws_app, IH. split.
    + intros (Hx & _ & H). by constructor.
    + inversion 1; subst. by repeat split.
Qed.

(** A chunk is dropped exactly when every piece in it is empty. *)
Lemma nonblank_join_false p :
  Forall ws_free p -> nonblank (Text.join " " p) = false <-> Forall (fun t => t = "") p.
Proof.
  intros Hp. rewrite nonblank_false, all_ws_join, !Forall_forall. split; intros H t Ht.
  - apply all_ws_free; [by eapply Forall_forall in Hp | by apply H].
  - by rewrite (H t Ht).
Qed.

End TrimFacts.

Section JoinFacts.

Lemma lfilter_cons {A} (f : A -> bool) x l :
  List.filter f (x :: l) = if f x then x :: List.filter f l else List.filter f l.
Proof. reflexivity. Qed.

Lemma join_cons sep x l : l <> [] -> Text.join sep (x :: l) = x +:+ sep +:+ Text.join sep l.
Proof. by destruct l. Qed.

Lemma join_app sep p q :
  p <> [] -> q <> [] -> Text.join sep (p ++ q) = Text.join sep p +:+ sep +:+ Text.join sep q.
Proof.
  intros Hp Hq. induction p as [|x p IH]; [done|].
  destruct p as [|y p].
  - simpl. by destruct q.
  - change ((x :: y :: p) ++ q) with (x :: ((y :: p) ++ q)).
    rewrite !join_cons by (try done; by destruct q). rewrite IH by done.
    by rewrite !app_assoc_s.
Qed.

Lemma join_concat sep ls :
  Forall (fun p => p <> []) ls ->
  Text.join sep (map (Text.join sep) ls) = Text.join sep (concat ls).
Proof.
  induction 1 as [|p ls Hp Hls IH]; [done|].
  destruct ls as [|q ls].
  - simpl. by rewrite app_nil_r.
  - rewrite map_cons, join_cons by done. rewrite IH.
    change (concat (p :: q :: ls)) with (p ++ concat (q :: ls)).
    rewrite join_app; [done | done |].
    inversion Hls; subst. simpl. by destruct q.
Qed.

(** Splitting the pieces joined by single spaces gives the words back. *)
Lemma words_join t :
  Forall ws_free t -> Text.words (Text.join " " t) = List.filter nonempty t.
Proof.
  unfold Text.words, Text.split_ws. fold nonempty.
  induction 1 as [|x t Hx Ht IH]; [done|].
  destruct t as [|y t].
  - simpl Text.join. rewrite <- (app_nil_r_s x) at 1.
    rewrite split_go_app_free by done. rewrite app_nil_l_s. by destruct x.
  - rewrite join_cons by done. rewrite split_go_app_free by done.
    rewrite app_nil_l_s, app_cons_s. simpl Text.split_go.
    change (Text.is_ws " ") with true. cbv iota.
    assert (List.filter nonempty (x :: Text.split_go ("" +:+ Text.join " " (y :: t)) "" true)
            = List.filter nonempty (x :: y :: t)) as Hgoal.
    { rewrite app_nil_l_s, !lfilter_cons, filter_split_go_prev, IH.
      by rewrite lfilter_cons. }
    by destruct x.
Qed.

End JoinFacts.

(** The successive slices [l.slice(i, i + w)] taken by the chunking loop. *)
Fixpoint pieces {A} (fuel w : nat) (l : list A) : list (list A) :=
  match fuel, l with
  | _, [] => []
  | O, _ => []
  | S fuel', _ => take w l :: pieces fuel' w (drop w l)
  end.

Section ChunkFacts.

Variable w : nat.
Hypothesis w_pos : 0 < w.

Lemma pieces_nil {A} fuel : pieces fuel w (@nil A) = [].
Proof. by destruct fuel. Qed.

Lemma pieces_concat {A} fuel : forall l : list A,
  List.length l <= fuel -> concat (pieces fuel w l) = l.
Proof.
  induction fuel as [|fuel IH]; intros l Hl.
  - destruct l; [done | simpl in Hl; lia].
  - destruct l as [|x l]; [done|].
    change (pieces (S fuel) w (x :: l)) with (take w (x :: l) :: pieces fuel w (drop w (x :: l))).
    simpl concat. rewrite IH; [apply take_drop|].
    rewrite length_drop. simpl in *. lia.
Qed.

Lemma pieces_nonempty {A} fuel : forall l : list A,
  Forall (fun p => p <> []) (pieces fuel w l).
Proof.
  induction fuel as [|fuel IH]; intros l; destruct l as [|x l]; try by constructor.
  change (pieces (S fuel) w (x :: l)) with (take w (x :: l) :: pieces fuel w (drop w (x :: l))).
  constructor; [|apply IH]. destruct w; [lia | done].
Qed.

(** The loop over the index [i] computes the kept joins of the slices of the
    rest of the array, and ends within [words.length - i] iterations. *)
Lemma chunk_loop_pieces words fuel : forall i,
  List.length words - i <= fuel ->
  Text.chunk_loop fuel words i w =
  Some (List.filter nonblank (map (Text.join " ") (pieces fuel w (drop i words)))).
Proof.
  induction fuel as [|fuel IH]; intros i Hi; simpl Text.chunk_loop.
  - destruct (Nat.leb_spec (List.length words) i); [|lia].
    rewrite drop_ge by done. by rewrite pieces_nil.
  - destruct (Nat.leb_spec (List.length words) i) as [Hle|Hlt].
    + rewrite drop_ge by done. by rewrite pieces_nil.
    + rewrite IH by lia.
      destruct (drop i words) as [|x l] eqn:E.
      { apply (f_equal List.length) in E. rewrite length_drop in E. simpl in E. lia. }
      change (pieces (S fuel) w (x :: l)) with (take w (x :: l) :: pieces fuel w (drop w (x :: l))).
      rewrite <- E, drop_drop. unfold Text.slice.
      replace (i + w - i) with w by lia.
      simpl map. rewrite lfilter_cons. unfold nonblank at 3.
      by destruct (0 <? String.length _)%nat.
Qed.

Lemma splitIntoChunks_pieces text :
  Text.splitIntoChunks text w =
  Some (List.filter nonblank
          (map (Text.join " ") (pieces (List.length (Text.split_ws text)) w (Text.split_ws text)))).
Proof.
  unfold Text.splitIntoChunks. cbv zeta. rewrite chunk_loop_pieces by lia. by rewrite drop_0.
Qed.

Lemma ceil_div_small n : 0 < n -> n <= w -> Text.ceil_div n w = 1.
Proof.
  intros H1 H2. unfold Text.ceil_div.
  replace (n + w - 1) with ((n - 1) + 1 * w) by lia.
  rewrite Nat.div_add by lia. rewrite Nat.div_small by lia. done.
Qed.

Lemma ceil_div_step n : w <= n -> Text.ceil_div n w = S (Text.ceil_div (n - w) w).
Proof.
  intros H. unfold Text.ceil_div.
  replace (n + w - 1) with ((n - w + w - 1) + 1 * w) by lia.
  rewrite Nat.div_add by lia. lia.
Qed.

Lemma ceil_div_0 : Text.ceil_div 0 w = 0.
Proof. unfold Text.ceil_div. apply Nat.div_small. lia. Qed.

(** Counting the chunks kept for an array of non-empty words followed by at
    most one empty piece. *)
Lemma kept_count fuel : forall ws tail,
  Forall (fun t => t <> "") ws -> Forall ws_free ws ->
  tail = [] \/ tail = [""] ->
  List.length (ws ++ tail) <= fuel ->
  List.length (List.filter nonblank (map (Text.join " ") (pieces fuel w (ws ++ tail))))
  = Text.ceil_div (List.length ws) w.
Proof.
  induction fuel as [|fuel IH]; intros ws tail Hne Hfree Htail Hlen.
  - destruct ws; [|simpl in Hlen; lia].
    destruct Htail as [->| ->]; [|simpl in Hlen; lia].
    change (List.length (@nil string)) with 0. by rewrite ceil_div_0.
  - destruct ws as [|x ws].
    + change (List.length (@nil string)) with 0.
      rewrite ceil_div_0. destruct Htail as [->| ->]; [done|].
      simpl app. change (pieces (S fuel) w [""]) with (take w [""] :: pieces fuel w (drop w [""])).
      rewrite take_ge, drop_ge, pieces_nil by (simpl; lia). done.
    + change ((x :: ws) ++ tail) with (x :: (ws ++ tail)) in *.
      change (pieces (S fuel) w (x :: (ws ++ tail)))
        with (take w (x :: (ws ++ tail)) :: pieces fuel w (drop w (x :: (ws ++ tail)))).
      rewrite map_cons, lfilter_cons.
      assert (nonblank (Text.join " " (take w (x :: ws ++ tail))) = true) as ->.
      { destruct (nonblank _) eqn:E; [done|]. exfalso.
        apply nonblank_join_false in E.
        - replace w with (S (w - 1)) in E by lia.
          simpl in E. inversion E; subst. by inversion Hne.
        - apply Forall_take. constructor; [by inversion Hfree|].
          apply Forall_app. split; [by inversion Hfree|].
          destruct Htail as [->| ->]; by repeat constructor. }
      simpl List.length.
      destruct (Nat.le_gt_cases w (S (List.length ws))) as [Hle|Hgt].
      * rewrite ceil_div_step by (simpl; lia). f_equal.
        change (x :: ws ++ tail) with ((x :: ws) ++ tail).
        rewrite drop_app_le by (simpl; lia).
        rewrite IH; [by rewrite length_drop | | | done |].
        -- by apply Forall_drop.
        -- by apply Forall_drop.
        -- rewrite length_app, length_drop. simpl in *. rewrite length_app in Hlen. lia.
      * rewrite ceil_div_small by (simpl; lia). f_equal.
        rewrite drop_ge, pieces_nil; [done|].
        simpl. rewrite length_app. destruct Htail as [->| ->]; simpl; lia.
Qed.

(** Dropping the chunks made of empty pieces loses no word. *)
Lemma kept_words (ps : list (list string)) :
  Forall (Forall ws_free) ps ->
  List.filter nonempty (concat (List.filter (fun p => nonblank (Text.join " " p)) ps))
  = List.filter nonempty (concat ps).
Proof.
  induction 1 as [|p ps Hp Hps IH]; [done|].
  rewrite lfilter_cons. simpl concat.
  destruct (nonblank (Text.join " " p)) eqn:E.
  - simpl concat. by rewrite !List.filter_app, IH.
  - rewrite IH, List.filter_app.
    apply nonblank_join_false in E; [|done].
    assert (List.filter nonempty p = []) as ->; [|done].
    clear -E. induction E as [|t p -> _ IH]; [done | by rewrite lfilter_cons].
Qed.

Lemma filter_map_comm {A B} (f : A -> B) (P : B -> bool) l :
  List.filter P (map f l) = map f (List.filter (fun x => P (f x)) l).
Proof.
  induction l as [|x l IH]; [done|].
  rewrite map_cons, !lfilter_cons, IH. by destruct (P (f x)).
Qed.

End ChunkFacts.

(** For every text and every positive chunk size the chunking ends, keeps no
    blank chunk, and the chunks joined by single spaces have the words of the
    text, in order. *)
Lemma splitIntoChunks_words (text : string) (w : nat) :
  0 < w ->
  exists chunks, Text.splitIntoChunks text w = Some chunks /\
    Forall (fun c => 0 < String.length (Text.trim c)) chunks /\
    Text.words (Text.join " " chunks) = Text.words text.
Proof.
  intros Hw. eexists. split; [by apply splitIntoChunks_pieces|]. split.
  - apply Forall_forall. intros c Hc.
    apply list_elem_of_In, filter_In in Hc as [_ Hc]. unfold nonblank in Hc.
    by apply Nat.ltb_lt in Hc.
  - set (toks := Text.split_ws text).
    assert (Forall ws_free toks) as Hfree by (by apply split_go_ws_free).
    set (ps := pieces (List.length toks) w toks).
    assert (concat ps = toks) as Hcat by (by apply pieces_concat).
    assert (Forall (Forall ws_free) ps) as Hps.
    { apply Forall_forall. intros p Hp. apply Forall_forall. intros t Ht.
      eapply Forall_forall in Hfree; [done|]. rewrite <- Hcat.
      apply list_elem_of_In, in_concat. exists p. by rewrite <- !list_elem_of_In. }
    rewrite filter_map_comm, join_concat.
    + rewrite words_join.
      * rewrite kept_words by done. by rewrite Hcat.
      * apply Forall_concat. apply Forall_forall. intros p Hp.
        apply list_elem_of_In, filter_In in Hp as [Hp _].
        eapply Forall_forall in Hps; [done | by apply list_elem_of_In].
    + apply Forall_forall. intros p Hp.
      apply list_elem_of_In, filter_In in Hp as [Hp _].
      pose proof (pieces_nonempty w Hw (List.length toks) toks) as Hn.
      eapply Forall_forall in Hn; [done | by apply list_elem_of_In].
Qed.

(** C5 (as amended).  For a transcript of N > 0 words that does not begin with
    white space and a chunk size W > 0, [splitIntoChunks] returns exactly
    ceil(N / W) chunks, none of them blank, and the chunks joined by single
    spaces have the word sequence of the transcript; a transcript of 1000
    words cut by 500 gives 2 chunks. *)
Theorem splitIntoChunks_count (text : string) (w : nat) :
  0 < w -> 0 < List.length (Text.words text) -> Text.starts_with_ws text = false ->
  exists chunks, Text.splitIntoChunks text w = Some chunks /\
    List.length chunks = Text.ceil_div (List.length (Text.words text)) w /\
    Forall (fun c => 0 < String.length (Text.trim c)) chunks /\
    Text.words (Text.join " " chunks) = Text.words text /\
    (List.length (Text.words text) = 1000 -> w = 500 -> List.length chunks = 2).
Proof.
  intros Hw Hn Hs.
  destruct (splitIntoChunks_words text w Hw) as (chunks & Heq & Hnb & Hwords).
  exists chunks. split; [done|].
  assert (List.length chunks = Text.ceil_div (List.length (Text.words text)) w) as Hlen.
  { rewrite splitIntoChunks_pieces in Heq by done. injection Heq as <-.
    destruct (split_ws_words text Hs) as (tail & Htail & Htoks).
    { intros ->. simpl in Hn. lia. }
    rewrite Htoks. apply kept_count; try done.
    - apply words_nonempty.
    - apply words_ws_free. }
  repeat split; try done.
  intros H1000 ->. rewrite Hlen, H1000. reflexivity.
Qed.

Lemma splitIntoChunks_count_witness :
  exists chunks, Text.splitIntoChunks "one two three" 2 = Some chunks /\
    List.length chunks = Text.ceil_div (List.length (Text.words "one two three")) 2 /\
    Forall (fun c => 0 < String.length (Text.trim c)) chunks /\
    Text.words (Text.join " " chunks) = Text.words "one two three" /\
    (List.length (Text.words "one two three") = 1000 -> 2 = 500 -> List.length chunks = 2).
Proof.
  apply (splitIntoChunks_count "one two three" 2).
  - lia.
  - vm_compute. lia.
  - reflexivity.
Defined.

(** C5 as stated fails on a transcript that begins with white space: the two
    words of [" a b"] cut by 2 give two chunks, not ceil(2 / 2) = 1, because
    the empty piece before the first separator is counted as a word. *)
Lemma splitIntoChunks_leading_space :
  Text.splitIntoChunks " a b" 2 = Some [" a"; "b"] /\
  List.length (Text.words " a b") = 2 /\
  Text.ceil_div 2 2 = 1 /\
  ~ (forall text w, 0 < w -> 0 < List.length (Text.words text) ->
       exists chunks, Text.splitIntoChunks text w = Some chunks /\
         List.length chunks = Text.ceil_div (List.length (Text.words text)) w).
Proof.
  repeat split; try reflexivity.
  intros H. destruct (H " a b" 2) as (chunks & Heq & Hlen); [lia | vm_compute; lia |].
  vm_compute in Heq. injection Heq as <-. vm_compute in Hlen. discriminate.
Qed.

(** A chunk size of zero never advances the index: the loop does not end. *)
Lemma chunk_loop_zero_diverges (words : list string) (fuel i : nat) :
  i < List.length words -> Text.chunk_loop fuel words i 0 = None.
Proof.
  intros Hi. induction fuel as [|fuel IH]; simpl.
  - destruct (Nat.leb_spec (List.length words) i); [lia | done].
  - destruct (Nat.leb_spec (List.length words) i); [lia|].
    replace (i + 0) with i by lia. by rewrite IH.
Qed.

(** ** Normalizing a name *)

Section Normalize.

Lemma lower_char_idem c : Text.lower_char (Text.lower_char c) = Text.lower_char c.
Proof. by destruct c as [[] [] [] [] [] [] [] []]. Qed.

Lemma lower_char_ws c : Text.is_ws (Text.lower_char c) = Text.is_ws c.
Proof. by destruct c as [[] [] [] [] [] [] [] []]. Qed.

Lemma toLowerCase_idem s : Text.toLowerCase (Text.toLowerCase s) = Text.toLowerCase s.
Proof. induction s as [|c s IH]; simpl; [done | by rewrite lower_char_idem, IH]. Qed.

Lemma toLowerCase_trimStart s :
  Text.toLowerCase (Text.trimStart s) = Text.trimStart (Text.toLowerCase s).
Proof.
  induction s as [|c s IH]; simpl; [done|]. rewrite lower_char_ws.
  by destruct (Text.is_ws c).
Qed.

Lemma toLowerCase_trimEnd s :
  Text.toLowerCase (Text.trimEnd s) = Text.trimEnd (Text.toLowerCase s).
Proof.
  induction s as [|c s IH]; simpl; [done|]. rewrite <- IH, lower_char_ws.
  destruct (Text.trimEnd s); simpl; [by destruct (Text.is_ws c) | done].
Qed.

Lemma trimEnd_idem s : Text.trimEnd (Text.trimEnd s) = Text.trimEnd s.
Proof.
  induction s as [|c s IH]; simpl; [done|].
  destruct (Text.trimEnd s) as [|c' r] eqn:E.
  - destruct (Text.is_ws c) eqn:Ec; simpl; [done | by rewrite Ec].
  - simpl in *. by rewrite IH.
Qed.

Lemma trimStart_trim s : Text.trimStart (Text.trim s) = Text.trim s.
Proof.
  unfold Text.trim. induction s as [|c s IH]; simpl; [done|].
  destruct (Text.is_ws c) eqn:Ec; [exact IH|]. simpl.
  destruct (Text.trimEnd s); simpl; rewrite Ec; simpl; by rewrite ?Ec.
Qed.

Lemma trim_idem s : Text.trim (Text.trim s) = Text.trim s.
Proof.
  unfold Text.trim at 1. rewrite trimStart_trim. unfold Text.trim. apply trimEnd_idem.
Qed.

(** Lower-casing and trimming a normalized name changes nothing: a name and
    its normalized form designate the same topic. *)
Lemma normalize_idem s :
  Text.trim (Text.toLowerCase (Text.trim (Text.toLowerCase s)))
  = Text.trim (Text.toLowerCase s).
Proof.
  unfold Text.trim at 2.
  rewrite toLowerCase_trimEnd, toLowerCase_trimStart, toLowerCase_idem.
  apply trim_idem.
Qed.

Example normalize_ex : Text.trim (Text.toLowerCase "  Budget PLAN ") = "budget plan".
Proof. reflexivity. Qed.

End Normalize.
(** ** Cosine similarity in binary64 *)

Example cosine_float_same :
  Numbers.cosineSimilarity [3%float; 4%float] [3%float; 4%float] = 1%float.
Proof. reflexivity. Qed.
Example cosine_float_opposite :
  Numbers.cosineSimilarity [3%float; 4%float] [(-3)%float; (-4)%float] = (-1)%float.
Proof. reflexivity. Qed.
Example cosine_float_zero :
  Numbers.cosineSimilarity [0%float; 0%float] [3%float; 4%float] = 0%float.
Proof. reflexivity. Qed.
Example cosine_float_mismatch :
  Numbers.cosineSimilarity [1%float] [3%float; 4%float] = 0%float.
Proof. reflexivity. Qed.




Section Binary64.

Local Open Scope float_scope.




Lemma zero_is_zero (x : float) s : Prim2SF x = S754_zero s -> (x =? 0) = true.
Proof. intros Hx. rewrite FloatAxioms.eqb_spec, Hx. by destruct s. Qed.









(** The two copies agree: on empty vectors the loop leaves a zero
    denominator. *)
Lemma cosine_copies_agree (a b : list float) :
  Numbers.cosineSimilarity a b = Numbers.cosineSimilarity_ai a b.
Proof.
  unfold Numbers.cosineSimilarity, Numbers.cosineSimilarity_ai.
  destruct (Nat.eqb_spec (List.length a) (List.length b)) as [E|E]; simpl; [|done].
  destruct a as [|x a]; [|done]. by destruct b.
Qed.






(** The product of two numbers does not depend on their order. *)
Lemma float_mul_comm (x y : float) : x * y = y * x.
Proof.
  apply Prim2SF_inj. rewrite !mul_spec. unfold SF64mul.
  destruct (Prim2SF x) as [sx|sx| |sx mx ex], (Prim2SF y) as [sy|sy| |sy my ey]; simpl;
    rewrite ?(xorb_comm sx sy); try reflexivity.
  by rewrite Pos.mul_comm, Z.add_comm.
Qed.

End Binary64.

(** ** Ranking *)

(** The first occurrence of every key that is not in [seen], in order. *)
Fixpoint firsts {A} (key : A -> string) (l : list A) (seen : gset string) : list A :=
  match l with
  | [] => []
  | x :: rest =>
      if decide (key x ∈ seen) then firsts key rest seen
      else x :: firsts key rest ({[ key x ]} ∪ seen)
  end.

Section SortFacts.
Context {A : Type}.
Variable before : A -> A -> bool.

Lemma insert_by_perm x l : QaService.insert_by before x l ≡ₚ x :: l.
Proof.
  induction l as [|y l IH]; simpl; [done|].
  destruct (before x y); [done|]. rewrite IH. apply Permutation_swap.
Qed.

Lemma sort_by_perm l : QaService.sort_by before l ≡ₚ l.
Proof.
  induction l as [|x l IH]; simpl; [done|].
  rewrite insert_by_perm. by rewrite IH.
Qed.

(** The comparison function is consistent on the elements that satisfy
    [D]: total and transitive. *)
Variable D : A -> Prop.
Hypothesis before_total : forall x y, D x -> D y -> before x y = true \/ before y x = true.
Hypothesis before_trans : forall x y z, D x -> D y -> D z ->
  before x y = true -> before y z = true -> before x z = true.



End SortFacts.

Section FirstsFacts.
Context {A : Type}.
Variable key : A -> string.

Lemma firsts_sublist l : forall seen, sublist (firsts key l seen) l.
Proof.
  induction l as [|x l IH]; intros seen; simpl; [done|].
  destruct (decide (key x ∈ seen)); [by apply sublist_cons | by apply sublist_skip].
Qed.




End FirstsFacts.

Section RankFacts.
Context {T : Type} `{Numbers.Num T}.

Lemma dedupe_loop_firsts (topK : Z) (input : list (QaService.MeetingSearchResult T)) :
  forall seen acc,
  (Z.of_nat (List.length acc) < topK)%Z ->
  QaService.dedupe_loop topK input seen acc =
  acc ++ take (Z.to_nat topK - List.length acc) (firsts QaService.meetingId input seen).
Proof.
  induction input as [|r input IH]; intros seen acc Hacc; simpl.
  - by rewrite take_nil, app_nil_r.
  - destruct (decide (QaService.meetingId r ∈ seen)); [by apply IH|].
    rewrite length_app. simpl List.length.
    destruct (Z.geb_spec (Z.of_nat (List.length acc + 1)) topK) as [Hge|Hlt].
    + replace (Z.to_nat topK - List.length acc) with 1 by lia. simpl. by rewrite ?take_0.
    + rewrite IH by (rewrite length_app; simpl; lia).
      rewrite length_app. simpl List.length. rewrite <- app_assoc. simpl. f_equal.
      replace (Z.to_nat topK - List.length acc) with (S (Z.to_nat topK - (List.length acc + 1)))
        by lia.
      done.
Qed.

(** With a bound below 1 the test [length >= topK] holds after the first
    [push]: the loop keeps one result. *)
Lemma dedupe_loop_nonpos (topK : Z) (input : list (QaService.MeetingSearchResult T)) seen :
  (topK <= 0)%Z ->
  QaService.dedupe_loop topK input seen [] = take 1 (firsts QaService.meetingId input seen).
Proof.
  intros Hk. revert seen. induction input as [|r input IH]; intros seen; simpl; [done|].
  destruct (decide (QaService.meetingId r ∈ seen)); [by apply IH|].
  destruct (Z.geb_spec (Z.of_nat 1) topK); [simpl; by rewrite ?take_0 | lia].
Qed.

Lemma rank_firsts (q : list T) embeddings (topK : Z) :
  (1 <= topK)%Z ->
  QaService.rank q embeddings topK =
  take (Z.to_nat topK)
    (firsts QaService.meetingId
       (QaService.sort_by
          (fun a b => QaService.desc (QaService.relevance a) (QaService.relevance b))
          (map (QaService.score q) embeddings)) ∅).
Proof.
  intros Hk. unfold QaService.rank. rewrite dedupe_loop_firsts by (simpl; lia).
  simpl. by rewrite Nat.sub_0_r.
Qed.

Lemma fold_dedupe_reduce (input : list (QaService.ScoredRow (T:=T))) : forall acc seen,
  (forall k, k ∈ seen <-> k ∈ map QaService.r_meeting_id acc) ->
  fold_left QaService.dedupe_reduce input acc =
  acc ++ firsts QaService.r_meeting_id input seen.
Proof.
  induction input as [|r input IH]; intros acc seen Hseen; simpl.
  - by rewrite app_nil_r.
  - unfold QaService.dedupe_reduce at 2.
    destruct (existsb _ acc) eqn:E.
    + destruct (decide (QaService.r_meeting_id r ∈ seen)) as [Hin|Hnin]; [by apply IH|].
      exfalso. apply Hnin, Hseen.
      apply existsb_exists in E as (x & Hx & Hk). apply String.eqb_eq in Hk.
      rewrite <- Hk. apply list_elem_of_fmap. exists x. by rewrite list_elem_of_In.
    + destruct (decide (QaService.r_meeting_id r ∈ seen)) as [Hin|Hnin].
      * exfalso. apply Hseen, list_elem_of_fmap in Hin as (x & Hk & Hx).
        assert (existsb (fun r0 => (QaService.r_meeting_id r0 =? QaService.r_meeting_id r)%string)
                  acc = true) as E'; [|congruence].
        apply existsb_exists. exists x. split; [by apply list_elem_of_In|].
        by apply String.eqb_eq.
      * rewrite (IH _ ({[QaService.r_meeting_id r]} ∪ seen)).
        { by rewrite <- app_assoc. }
        intros k. rewrite map_app, elem_of_app, elem_of_union, Hseen, elem_of_singleton.
        simpl. rewrite list_elem_of_singleton. tauto.
Qed.

End RankFacts.

(** Unfolding the operations on computations. *)
Ltac run_m :=
  repeat (unfold Sys.bind, Sys.try_catch, Sys.ret, Sys.throw, Sys.get, Sys.emit,
            Sys.exec, Sys.await; simpl).


Section SearchFacts.
Context {T : Type} `{Numbers.Num T}.
Variable env : Sys.Env T.










End SearchFacts.

(** Providers that answer: the language model returns a list of topics to
    the prompt of the topics, an object with one action item to the prompt of
    the insights, and plain text otherwise; the store takes a string as it
    is for a TEXT or a DATE column. *)
Definition example_response (prompt : string) : string :=
  if String.prefix "Extract the main topics" prompt then "[topics]"
  else if String.prefix "Analyze the following" prompt then "{insights}"
  else "text".

Definition example_json (text : string) : option Sys.Json :=
  if String.eqb text "[topics]" then Some (Sys.JArray [Sys.JString "Budget"])
  else if String.eqb text "{insights}" then
    Some (Sys.JObject
            [ ("actionItems",
               Sys.JArray [ Sys.JObject [ ("description", Sys.JString "send the budget");
                                          ("priority", Sys.JString "high");
                                          ("due_date", Sys.JNull) ] ]);
              ("decisions", Sys.JArray []);
              ("topics", Sys.JArray [Sys.JString "Budget"]) ])
  else None.

Definition example_text (v : Sys.Json) : option string :=
  match v with
  | Sys.JString s => Some s
  | _ => None
  end.

Definition example_env {T : Type} (embedding : list T) : Sys.Env T :=
  {| Sys.VITE_ASSEMBLYAI_API_KEY := Some "assemblyai-key";
     Sys.VITE_GEMINI_API_KEY := Some "gemini-key";
     Sys.assemblyai_submit := fun _ _ => Sys.Resolved (Sys.SubmitOk "job-1");
     Sys.assemblyai_poll := fun _ _ =>
       Sys.Resolved (Sys.PollOk Sys.st_completed (Some "we agreed on the budget") "");
     Sys.gemini_generate := fun _ prompt => Sys.Resolved (example_response prompt);
     Sys.gemini_embed := fun _ _ => Sys.Resolved embedding;
     Sys.json_parse := example_json;
     Sys.to_number := fun _ => 0%float;
     Sys.pg_text := example_text;
     Sys.pg_date := example_text;
     Sys.pg_text_array := fun v =>
       match v with
       | Sys.JArray items => Some (omap example_text items)
       | _ => None
       end |}.

Definition example_meeting (status : Sys.ProcessingStatus) : Sys.Meeting :=
  {| Sys.m_status := status; Sys.m_transcript := Some "we agreed on the budget";
     Sys.m_summary := None; Sys.m_video_url := Some "https://example.org/a.mp3" |}.

(** A corpus of three chunks from two meetings. *)
Definition example_corpus {T : Type} (e1 e2 e3 : list T) : Sys.World T :=
  {| Sys.store :=
       {| Sys.meetings := {[ "m1" := example_meeting Sys.ready; "m2" := example_meeting Sys.ready ]};
          Sys.action_items := []; Sys.decisions := []; Sys.topics := ∅;
          Sys.meeting_topics := ∅;
          Sys.meeting_embeddings :=
            [ {| Sys.e_id := 0; Sys.e_meeting_id := "m1"; Sys.e_embedding := e1;
                 Sys.e_content_chunk := "budget"; Sys.e_chunk_index := 0 |};
              {| Sys.e_id := 1; Sys.e_meeting_id := "m2"; Sys.e_embedding := e2;
                 Sys.e_content_chunk := "budget"; Sys.e_chunk_index := 0 |};
              {| Sys.e_id := 2; Sys.e_meeting_id := "m1"; Sys.e_embedding := e3;
                 Sys.e_content_chunk := "hiring"; Sys.e_chunk_index := 1 |} ];
          Sys.next_id := 3 |};
     Sys.trace := [] |}.



(** ** Question answering *)

Section AnswerFacts.
Context {T : Type} `{Numbers.Num T}.
Variable env : Sys.Env T.

(** The events a computation adds to the trace. *)
Definition new_events (w w' : Sys.World T) : list (Sys.Event T) :=
  drop (List.length (Sys.trace w)) (Sys.trace w').

(** An empty corpus retrieves no chunk. *)
Lemma findRelevantChunks_empty (question : string) (topK : Z) (w : Sys.World T) q :
  Sys.meeting_embeddings (Sys.store w) = [] ->
  Sys.gemini_embed env (Sys.now w) (Text.trim question) = Sys.Resolved q ->
  QaService.findRelevantChunks env question topK w
  = (Sys.Ok [], Sys.step (Sys.Embed (Text.trim question)) w).
Proof.
  intros Hrows Hq. unfold QaService.findRelevantChunks, AiService.embedContent,
    QaService.fetchEmbeddings. run_m. rewrite Hq. run_m. by rewrite Hrows.
Qed.

(** When no chunk is retrieved the answer is the canned one, and the only
    request made is the embedding of the question. *)
Lemma answer_no_chunks (question : string) (topK : Z) (w w' : Sys.World T) :
  Text.blank question = false ->
  Sys.truthy (Sys.VITE_GEMINI_API_KEY env) <> None ->
  QaService.findRelevantChunks env question topK w = (Sys.Ok [], w') ->
  QaService.answerMeetingQuestion env question topK w
  = (Sys.Ok {| QaService.answer := QaService.canned_answer; QaService.sources := [] |}, w').
Proof.
  intros Hq Hkey Hfind. unfold QaService.answerMeetingQuestion. rewrite Hq.
  unfold AiService.getGeminiKey.
  destruct (Sys.truthy (Sys.VITE_GEMINI_API_KEY env)); [|done].
  run_m. by rewrite Hfind.
Qed.

(** C7.  Over an empty corpus [answerMeetingQuestion] returns the canned
    message with no source, sends no request to the generation model (its
    only request is the embedding of the question) and leaves the store as it
    was. *)
Theorem answer_empty_corpus (question : string) (topK : Z) (w : Sys.World T) (q : list T) :
  Text.blank question = false ->
  Sys.truthy (Sys.VITE_GEMINI_API_KEY env) <> None ->
  Sys.gemini_embed env (Sys.now w) (Text.trim question) = Sys.Resolved q ->
  Sys.meeting_embeddings (Sys.store w) = [] ->
  let '(r, w') := QaService.answerMeetingQuestion env question topK w in
  r = Sys.Ok {| QaService.answer := QaService.canned_answer; QaService.sources := [] |} /\
  new_events w w' = [Sys.Embed (Text.trim question)] /\
  (forall prompt, Sys.Generate prompt ∉ new_events w w') /\
  Sys.store w' = Sys.store w.
Proof.
  intros Hq Hkey Hemb Hrows.
  rewrite (answer_no_chunks question topK w _ Hq Hkey
             (findRelevantChunks_empty question topK w q Hrows Hemb)).
  assert (new_events w (Sys.step (Sys.Embed (Text.trim question)) w)
          = [Sys.Embed (Text.trim question)]) as Hev.
  { unfold new_events. simpl. by rewrite drop_app_length. }
  split; [done|]. split; [done|]. split; [|done].
  intros prompt. rewrite Hev. by intros ?%list_elem_of_singleton.
Qed.

(** C10.  [getAnswerForQuestion] returns for every question and bound.  A
    blank question gets the fixed answer with no source and nothing is done;
    otherwise the result of the service is handed over, and an exception of
    the service becomes an answer that quotes its message, with no source. *)
Theorem getAnswerForQuestion_total (question : string) (topK : Z) (w : Sys.World T) :
  exists r w', Orchestrator.getAnswerForQuestion env question topK w = (Sys.Ok r, w') /\
    (Text.blank question = true ->
       r = {| QaService.answer := "Please provide a valid question."; QaService.sources := [] |}
       /\ w' = w) /\
    (Text.blank question = false ->
       match QaService.answerMeetingQuestion env question topK w with
       | (Sys.Ok result, w'') => r = result /\ w' = w''
       | (Sys.Throw errorMessage, w'') =>
           QaService.answer r =
             "I encountered an error while trying to answer your question: "
             +:+ errorMessage +:+ ". Please try again."
           /\ QaService.sources r = [] /\ w' = w''
       end).
Proof.
  unfold Orchestrator.getAnswerForQuestion.
  destruct (Text.blank question) eqn:Hq.
  - eexists _, _. split; [reflexivity|]. split; [done | discriminate].
  - unfold Sys.try_catch, Sys.bind.
    destruct (QaService.answerMeetingQuestion env question topK w) as [[result|e] w''].
    + eexists _, _. split; [reflexivity|]. split; [discriminate|]. intros _.
      by destruct result.
    + eexists _, _. split; [reflexivity|]. split; [discriminate | done].
Qed.

End AnswerFacts.

Definition empty_world {T : Type} : Sys.World T :=
  {| Sys.store :=
       {| Sys.meetings := ∅; Sys.action_items := []; Sys.decisions := []; Sys.topics := ∅;
          Sys.meeting_topics := ∅; Sys.meeting_embeddings := []; Sys.next_id := 0 |};
     Sys.trace := [] |}.

Lemma answer_empty_corpus_witness :
  let env := example_env [1%float; 0%float] in
  let '(r, w') := QaService.answerMeetingQuestion env "what was decided?" 5 empty_world in
  r = Sys.Ok {| QaService.answer := QaService.canned_answer; QaService.sources := [] |} /\
  new_events empty_world w' = [Sys.Embed (Text.trim "what was decided?")] /\
  (forall prompt, Sys.Generate prompt ∉ new_events empty_world w') /\
  Sys.store w' = Sys.store empty_world.
Proof.
  intros env.
  apply (answer_empty_corpus env "what was decided?" 5 empty_world [1%float; 0%float]).
  - reflexivity.
  - discriminate.
  - reflexivity.
  - reflexivity.
Defined.

(** The service throws on a rejected embedding request, the orchestrator
    answers with the message. *)
Example getAnswerForQuestion_failure :
  let env := {| Sys.VITE_ASSEMBLYAI_API_KEY := None; Sys.VITE_GEMINI_API_KEY := Some "k";
                Sys.assemblyai_submit := fun _ _ => Sys.Rejected "offline";
                Sys.assemblyai_poll := fun _ _ => Sys.Rejected "offline";
                Sys.gemini_generate := fun _ _ => Sys.Rejected "offline";
                Sys.gemini_embed := fun _ _ => @Sys.Rejected (list float) "quota exceeded";
                Sys.json_parse := fun _ => None;
                Sys.to_number := fun _ => 0%float;
                Sys.pg_text := fun _ => None;
                Sys.pg_date := fun _ => None;
                Sys.pg_text_array := fun _ => None |} in
  (Orchestrator.getAnswerForQuestion env "what was decided?" 5 empty_world).1
  = Sys.Ok {| QaService.answer :=
                "I encountered an error while trying to answer your question: Q&A failed: quota exceeded. Please try again.";
              QaService.sources := [] |}.
Proof. reflexivity. Qed.

(** ** The pipeline: what a computation may do to the world *)

(** A computation respects a relation when the world it leaves is related to
    the world it started from, whatever its outcome. *)
Definition respects {T A : Type} (R : relation (Sys.World T)) (m : Sys.M T A) : Prop :=
  forall w, R w (m w).2.

Section Respects.
Context {T : Type}.
Variable R : relation (Sys.World T).
Context `{!PreOrder R}.

Lemma respects_ret {A} (a : A) : respects R (Sys.ret a).
Proof. intros w. simpl. reflexivity. Qed.

Lemma respects_throw {A} e : respects R (@Sys.throw T A e).
Proof. intros w. simpl. reflexivity. Qed.

Lemma respects_get : respects R (@Sys.get T).
Proof. intros w. simpl. reflexivity. Qed.

Lemma respects_await {A} (r : Sys.Reply A) : respects R (@Sys.await T A r).
Proof. destruct r; [apply respects_throw | apply respects_ret]. Qed.

Lemma respects_bind {A B} (m : Sys.M T A) (f : A -> Sys.M T B) :
  respects R m -> (forall a, respects R (f a)) -> respects R (Sys.bind m f).
Proof.
  intros Hm Hf w. unfold Sys.bind. specialize (Hm w).
  destruct (m w) as [[a|e] w']; simpl in *; [|done].
  etrans; [exact Hm | apply Hf].
Qed.

Lemma respects_try_catch {A} (m : Sys.M T A) (h : string -> Sys.M T A) :
  respects R m -> (forall e, respects R (h e)) -> respects R (Sys.try_catch m h).
Proof.
  intros Hm Hh w. unfold Sys.try_catch. specialize (Hm w).
  destruct (m w) as [[a|e] w']; simpl in *; [done|].
  etrans; [exact Hm | apply Hh].
Qed.

Lemma respects_emit ev : (forall w, R w (Sys.step ev w)) -> respects R (Sys.emit ev).
Proof. intros Hev w. apply Hev. Qed.

Lemma respects_exec stmt :
  (forall w, R w (Sys.step (Sys.Db stmt) w)) -> respects R (Sys.exec stmt).
Proof. apply respects_emit. Qed.

Lemma respects_for_each {A} (l : list A) (body : A -> Sys.M T unit) :
  (forall x, respects R (body x)) -> respects R (Sys.for_each l body).
Proof.
  intros Hb. induction l as [|x l IH]; simpl; [by apply respects_ret|].
  apply respects_bind; [apply Hb | by intros _].
Qed.

Lemma respects_insert_all {A B} (insert : A -> Sys.M T (option B)) (l : list A) :
  (forall x, respects R (insert x)) -> forall created, respects R (AiService.insert_all insert l created).
Proof.
  intros Hi. induction l as [|x l IH]; intros created; simpl; [apply respects_ret|].
  apply respects_bind; [apply Hi | intros r; apply IH].
Qed.

Lemma respects_prop (v : Sys.Json) key : respects R (@AiService.prop T v key).
Proof. destruct v; first [apply respects_throw | apply respects_ret]. Qed.

Lemma respects_insert_each {B} env name (v : Sys.Value) (insert : Sys.Json -> Sys.M T (option B)) :
  (forall x, respects R (insert x)) -> respects R (AiService.insert_each env name v insert).
Proof.
  intros Hi. unfold AiService.insert_each.
  destruct v as [x|]; [|apply respects_ret].
  destruct (_ && _); [|apply respects_ret].
  destruct (Sys.iterate x); [by apply respects_insert_all | apply respects_throw].
Qed.

(** The rows that the store makes of what it is sent. *)
Lemma action_item_row_spec (env : Sys.Env T) id meetingId description priority due_date row :
  AiService.action_item_row env id meetingId description priority due_date = Some row ->
  Sys.ai_id row = id /\ Sys.ai_meeting_id row = meetingId /\ Sys.ai_status row = Sys.pending.
Proof.
  unfold AiService.action_item_row. intros Hrow.
  repeat match type of Hrow with
         | match ?x with _ => _ end = _ => destruct x; try discriminate
         end.
  all: by injection Hrow as <-.
Qed.

Lemma decision_row_spec (env : Sys.Env T) id meetingId decision_text context tags row :
  AiService.decision_row env id meetingId decision_text context tags = Some row ->
  Sys.d_id row = id /\ Sys.d_meeting_id row = meetingId.
Proof.
  unfold AiService.decision_row. intros Hrow.
  repeat match type of Hrow with
         | match ?x with _ => _ end = _ => destruct x; try discriminate
         end.
  all: by injection Hrow as <-.
Qed.

(** An insertion ends in one of three ways: the row is stored and returned,
    the store refuses it and nothing is done, or the element is [null] and
    reading its first property throws. *)
Lemma insertActionItem_run (env : Sys.Env T) meetingId item (w : Sys.World T) :
  match AiService.insertActionItem env meetingId item w with
  | (Sys.Ok (Some row), w') =>
      w' = Sys.step (Sys.Db (Sys.InsertActionItem row)) w /\
      Sys.ai_id row = Sys.next_id (Sys.store w) /\ Sys.ai_meeting_id row = meetingId /\
      Sys.ai_status row = Sys.pending /\ is_Some (Sys.meetings (Sys.store w) !! meetingId)
  | (Sys.Ok None, w') => w' = w
  | (Sys.Throw e, w') =>
      w' = w /\ item = Sys.JNull /\ e = "Cannot read properties of null (reading 'description')"
  end.
Proof.
  unfold AiService.insertActionItem, AiService.prop.
  destruct item; try done;
    unfold Sys.bind, Sys.ret, Sys.get, Sys.exec, Sys.emit; cbn beta iota;
    (destruct (Sys.meetings (Sys.store w) !! meetingId) eqn:Hm; [|done]);
    (destruct (AiService.action_item_row _ _ _ _ _ _) as [row|] eqn:Hrow; [|done]);
    apply action_item_row_spec in Hrow as (? & ? & ?); by rewrite ?Hm.
Qed.

Lemma insertDecision_run (env : Sys.Env T) meetingId item (w : Sys.World T) :
  match AiService.insertDecision env meetingId item w with
  | (Sys.Ok (Some row), w') =>
      w' = Sys.step (Sys.Db (Sys.InsertDecision row)) w /\
      Sys.d_id row = Sys.next_id (Sys.store w) /\ Sys.d_meeting_id row = meetingId /\
      is_Some (Sys.meetings (Sys.store w) !! meetingId)
  | (Sys.Ok None, w') => w' = w
  | (Sys.Throw e, w') =>
      w' = w /\ item = Sys.JNull /\ e = "Cannot read properties of null (reading 'decision_text')"
  end.
Proof.
  unfold AiService.insertDecision, AiService.prop.
  destruct item; try done;
    unfold Sys.bind, Sys.ret, Sys.get, Sys.exec, Sys.emit; cbn beta iota;
    (destruct (Sys.meetings (Sys.store w) !! meetingId) eqn:Hm; [|done]);
    (destruct (AiService.decision_row _ _ _ _ _ _) as [row|] eqn:Hrow; [|done]);
    apply decision_row_spec in Hrow as (? & ?); by rewrite ?Hm.
Qed.

Lemma respects_insertActionItem (env : Sys.Env T) meetingId item :
  (forall row w, Sys.ai_meeting_id row = meetingId ->
     R w (Sys.step (Sys.Db (Sys.InsertActionItem row)) w)) ->
  respects R (AiService.insertActionItem env meetingId item).
Proof.
  intros Hrow w. pose proof (insertActionItem_run env meetingId item w) as Hrun.
  destruct (AiService.insertActionItem env meetingId item w) as [[[row|]|e] w']; simpl.
  - destruct Hrun as (-> & _ & Hid & _). by apply Hrow.
  - by rewrite Hrun.
  - destruct Hrun as (-> & _). reflexivity.
Qed.

Lemma respects_insertDecision (env : Sys.Env T) meetingId item :
  (forall row w, Sys.d_meeting_id row = meetingId ->
     R w (Sys.step (Sys.Db (Sys.InsertDecision row)) w)) ->
  respects R (AiService.insertDecision env meetingId item).
Proof.
  intros Hrow w. pose proof (insertDecision_run env meetingId item w) as Hrun.
  destruct (AiService.insertDecision env meetingId item w) as [[[row|]|e] w']; simpl.
  - destruct Hrun as (-> & _ & Hid & _). by apply Hrow.
  - by rewrite Hrun.
  - destruct Hrun as (-> & _). reflexivity.
Qed.

End Respects.

(** Worlds reached by events of a given kind. *)
Inductive steps {T : Type} (P : Sys.Event T -> Prop) : relation (Sys.World T) :=
| steps_refl w : steps P w w
| steps_cons w ev w' : P ev -> steps P (Sys.step ev w) w' -> steps P w w'.

#[global] Instance steps_preorder {T} (P : Sys.Event T -> Prop) : PreOrder (steps P).
Proof.
  split; [intros w; constructor|].
  intros x y z Hxy Hyz. induction Hxy; [done|].
  econstructor; [done | by apply IHHxy].
Qed.

Lemma steps_one {T} (P : Sys.Event T -> Prop) ev w : P ev -> steps P w (Sys.step ev w).
Proof. intros Hev. econstructor; [done | constructor]. Qed.

Lemma steps_mono {T} (P Q : Sys.Event T -> Prop) w w' :
  (forall ev, P ev -> Q ev) -> steps P w w' -> steps Q w w'.
Proof. intros HPQ. induction 1; [constructor | econstructor; eauto]. Qed.

Lemma respects_mono {T A} (P Q : Sys.Event T -> Prop) (m : Sys.M T A) :
  (forall ev, P ev -> Q ev) -> respects (steps P) m -> respects (steps Q) m.
Proof. intros HPQ Hm w. eapply steps_mono; [exact HPQ | apply Hm]. Qed.

(** An invariant of the steps is an invariant of the computation. *)
Lemma steps_ind_rel {T} (P : Sys.Event T -> Prop) (R : relation (Sys.World T)) `{!PreOrder R} :
  (forall ev w, P ev -> R w (Sys.step ev w)) ->
  forall w w', steps P w w' -> R w w'.
Proof.
  intros Hstep w w'. induction 1 as [|w ev w' Hev _ IH]; [reflexivity|].
  etrans; [by apply Hstep | exact IH].
Qed.

(** Decomposing a computation along its structure. *)
Ltac respects_step :=
  lazymatch goal with
  | |- respects _ (Sys.bind _ _) => apply respects_bind; try exact _; [|intros ?]
  | |- respects _ (Sys.try_catch _ _) => apply respects_try_catch; try exact _; [|intros ?]
  | |- respects _ (Sys.ret _) => apply respects_ret; exact _
  | |- respects _ (Sys.throw _) => apply respects_throw; exact _
  | |- respects _ Sys.get => apply respects_get; exact _
  | |- respects _ (Sys.await _) => apply respects_await; exact _
  | |- respects _ (Sys.for_each _ _) => apply respects_for_each; try exact _; intros ?
  | |- respects _ (AiService.insert_all _ _ _) =>
      apply respects_insert_all; try exact _; intros ?
  | |- respects _ (AiService.insert_each _ _ _ _) =>
      apply respects_insert_each; try exact _; intros ?
  | |- respects _ (AiService.prop _ _) => apply respects_prop; exact _
  | |- respects _ (AiService.insertActionItem _ _ _) =>
      apply respects_insertActionItem; try exact _; intros ? ? ?
  | |- respects _ (AiService.insertDecision _ _ _) =>
      apply respects_insertDecision; try exact _; intros ? ? ?
  | |- respects _ (Sys.exec _) => apply respects_exec; intros ?
  | |- respects _ (Sys.emit _) => apply respects_emit; intros ?
  | |- respects _ (match ?x with _ => _ end) => destruct x
  end.

Ltac respects_tac := repeat (respects_step; try assumption).

(** *** The events of each stage *)

Section Footprints.
Context {T : Type}.
Variable env : Sys.Env T.
Variable meetingId : string.

Definition transcribe_kind (ev : Sys.Event T) : Prop :=
  match ev with
  | Sys.Submit _ | Sys.Poll _ | Sys.Sleep _ => True
  | Sys.Db (Sys.UpdateTranscript id _) | Sys.Db (Sys.UpdateStatus id _) => id = meetingId
  | _ => False
  end.

Definition insights_kind (ev : Sys.Event T) : Prop :=
  match ev with
  | Sys.Generate _ => True
  | Sys.Db (Sys.InsertActionItem row) => Sys.ai_meeting_id row = meetingId
  | Sys.Db (Sys.InsertDecision row) => Sys.d_meeting_id row = meetingId
  | Sys.Db (Sys.UpdateSummary id _) => id = meetingId
  | _ => False
  end.

Definition topics_kind (ev : Sys.Event T) : Prop :=
  match ev with
  | Sys.Generate _ => True
  | Sys.Db (Sys.InsertTopic _ _) | Sys.Db (Sys.UpdateTopic _ _ _) => True
  | Sys.Db (Sys.InsertMeetingTopic id _) => id = meetingId
  | _ => False
  end.

Definition embed_kind (ev : Sys.Event T) : Prop :=
  match ev with
  | Sys.Embed _ => True
  | Sys.Db (Sys.InsertEmbedding row) => Sys.e_meeting_id row = meetingId
  | _ => False
  end.

Ltac kind_tac := respects_tac; try (apply steps_one; simpl; done).

Lemma poll_loop_kind remaining id last :
  respects (steps transcribe_kind) (AiService.poll_loop env remaining id last).
Proof.
  revert last. induction remaining as [|n IH]; intros last; simpl.
  - apply respects_ret. exact _.
  - unfold AiService.fetch_poll. kind_tac; apply IH.
Qed.

Lemma transcribeMeeting_kind audioUrl :
  respects (steps transcribe_kind) (AiService.transcribeMeeting env meetingId audioUrl).
Proof.
  unfold AiService.transcribeMeeting, AiService.getAssemblyAIKey, AiService.fetch_submit.
  kind_tac. apply poll_loop_kind.
Qed.

Lemma generateContent_kind (P : Sys.Event T -> Prop) prompt :
  (forall p, P (Sys.Generate p)) -> respects (steps P) (AiService.generateContent env prompt).
Proof.
  intros HP. unfold AiService.generateContent. respects_tac. by apply steps_one.
Qed.

Lemma extractMeetingInsights_kind transcript :
  respects (steps insights_kind) (AiService.extractMeetingInsights env meetingId transcript).
Proof.
  unfold AiService.extractMeetingInsights, AiService.getGeminiKey,
    AiService.generateMeetingSummary.
  kind_tac; by apply generateContent_kind.
Qed.

Lemma extractTopics_kind transcript :
  respects (steps topics_kind) (AiService.extractTopics env transcript).
Proof.
  unfold AiService.extractTopics. kind_tac. by apply generateContent_kind.
Qed.

Lemma upsertTopicAndLink_kind topicName :
  respects (steps topics_kind) (AiService.upsertTopicAndLink meetingId topicName).
Proof. unfold AiService.upsertTopicAndLink. kind_tac. Qed.

Lemma embed_chunks_kind chunks : forall i,
  respects (steps embed_kind) (AiService.embed_chunks env meetingId chunks i).
Proof.
  induction chunks as [|chunk chunks IH]; intros i; simpl.
  - apply respects_ret. exact _.
  - unfold AiService.embedContent, AiService.insertEmbedding. kind_tac. apply IH.
Qed.

End Footprints.

(** *** What the events leave unchanged *)

Definition same {T B : Type} (f : Sys.World T -> B) : relation (Sys.World T) :=
  fun w w' => f w = f w'.

#[global] Instance same_preorder {T B} (f : Sys.World T -> B) : PreOrder (same f).
Proof. split; [by intros w | intros x y z Hxy Hyz; unfold same in *; congruence]. Qed.

(** The data derived from the transcripts. *)
Definition derived {T} (w : Sys.World T) :=
  (Sys.action_items (Sys.store w), Sys.decisions (Sys.store w), Sys.topics (Sys.store w),
   Sys.meeting_topics (Sys.store w), Sys.meeting_embeddings (Sys.store w)).

Definition status_of {T} (meetingId : string) (w : Sys.World T) : option Sys.ProcessingStatus :=
  Sys.m_status <$> Sys.meetings (Sys.store w) !! meetingId.

(** No statement creates or deletes a meeting. *)
Definition meetings_kept {T} : relation (Sys.World T) :=
  fun w w' => forall id, is_Some (Sys.meetings (Sys.store w) !! id) <->
                         is_Some (Sys.meetings (Sys.store w') !! id).

#[global] Instance meetings_kept_preorder {T} : PreOrder (@meetings_kept T).
Proof.
  split; [by intros w id|].
  intros x y z Hxy Hyz id. by rewrite (Hxy id), (Hyz id).
Qed.

Lemma step_meetings_kept {T} (ev : Sys.Event T) w : meetings_kept w (Sys.step ev w).
Proof.
  intros id. destruct ev as [stmt| | | | |]; simpl; try done.
  destruct stmt; simpl; try done; by rewrite lookup_alter_is_Some.
Qed.

Lemma steps_meetings_kept {T} (P : Sys.Event T -> Prop) w w' :
  steps P w w' -> meetings_kept w w'.
Proof. apply steps_ind_rel; [exact _|]. intros ev w0 _. apply step_meetings_kept. Qed.

Lemma status_after_update {T} meetingId s (w : Sys.World T) :
  is_Some (Sys.meetings (Sys.store w) !! meetingId) ->
  status_of meetingId (Sys.step (Sys.Db (Sys.UpdateStatus meetingId s)) w) = Some s.
Proof.
  intros [mt Hmt]. unfold status_of. simpl. rewrite lookup_alter_eq, Hmt. done.
Qed.

Lemma transcribe_keeps_derived {T} meetingId (w w' : Sys.World T) :
  steps (transcribe_kind meetingId) w w' -> derived w = derived w'.
Proof.
  apply (steps_ind_rel _ (same derived)). intros ev w0 Hev.
  destruct ev as [stmt| | | | |]; try done. by destruct stmt.
Qed.

(** *** A failed run *)

Section Failure.
Context {T : Type}.
Variable env : Sys.Env T.

(** Every event of a run of the pipeline for a meeting. *)
Definition pipeline_kind (meetingId : string) (ev : Sys.Event T) : Prop :=
  transcribe_kind meetingId ev \/ insights_kind meetingId ev \/ topics_kind meetingId ev \/
  embed_kind meetingId ev \/ ev = Sys.Db (Sys.DeleteEmbeddings meetingId).

Lemma updateTopicsAndEmbeddings_kind meetingId transcript :
  respects (steps (pipeline_kind meetingId))
    (AiService.updateTopicsAndEmbeddings env meetingId transcript).
Proof.
  unfold AiService.updateTopicsAndEmbeddings, AiService.getGeminiKey,
    AiService.generateAndStoreEmbeddings.
  respects_tac.
  - eapply respects_mono; [|apply extractTopics_kind]. unfold pipeline_kind. eauto.
  - eapply respects_mono; [|apply upsertTopicAndLink_kind]. unfold pipeline_kind. eauto.
  - apply steps_one. unfold pipeline_kind. eauto 6.
  - eapply respects_mono; [|apply embed_chunks_kind]. unfold pipeline_kind. eauto 6.
Qed.

Lemma processMeeting_kind meetingId audioUrl :
  respects (steps (pipeline_kind meetingId)) (AiService.processMeeting env meetingId audioUrl).
Proof.
  unfold AiService.processMeeting. respects_tac.
  - eapply respects_mono; [|apply transcribeMeeting_kind]. unfold pipeline_kind. eauto.
  - eapply respects_mono; [|apply extractMeetingInsights_kind]. unfold pipeline_kind. eauto.
  - apply updateTopicsAndEmbeddings_kind.
Qed.

(** When the transcription throws, so does the whole pipeline, in the same
    world. *)
Lemma processMeeting_transcribe_throws meetingId audioUrl w e w2 :
  AiService.transcribeMeeting env meetingId audioUrl w = (Sys.Throw e, w2) ->
  AiService.processMeeting env meetingId audioUrl w = (Sys.Throw e, w2).
Proof.
  intros Htr. unfold AiService.processMeeting, Sys.try_catch, Sys.bind. by rewrite Htr.
Qed.

(** C3.  When a stage of the pipeline throws, [handleNewMeeting] does not:
    it returns [{success: false, error}] with the message of the exception,
    without transcript, action items or decisions, and the status of the
    meeting is ['failed']; when the stage that throws is the transcription,
    no action item, decision, topic, link or embedding chunk has been
    created. *)
Theorem handleNewMeeting_failure (meetingId audioUrl : string) (w : Sys.World T)
    (e : string) (w2 : Sys.World T) :
  let w1 := Sys.step (Sys.Db (Sys.UpdateStatus meetingId Sys.processing)) w in
  AiService.processMeeting env meetingId audioUrl w1 = (Sys.Throw e, w2) ->
  exists result w',
    Orchestrator.handleNewMeeting env meetingId audioUrl w = (Sys.Ok result, w') /\
    Orchestrator.success result = false /\
    Orchestrator.error result = Some e /\
    Orchestrator.meetingId result = meetingId /\
    Orchestrator.transcript result = None /\
    Orchestrator.actionItems result = [] /\
    Orchestrator.decisions result = [] /\
    (is_Some (Sys.meetings (Sys.store w) !! meetingId) ->
       status_of meetingId w' = Some Sys.failed) /\
    (forall e' w3, AiService.transcribeMeeting env meetingId audioUrl w1 = (Sys.Throw e', w3) ->
       e' = e /\ derived w' = derived w).
Proof.
  intros w1 Hrun. unfold Orchestrator.handleNewMeeting, Orchestrator.updateMeetingStatus.
  run_m. fold w1.
  pose proof (processMeeting_kind meetingId audioUrl w1) as Hkind.
  rewrite Hrun in *. simpl in *.
  eexists _, _. split; [reflexivity|]. repeat (split; [reflexivity|]). split.
  - intros Hm. apply status_after_update.
    apply (steps_meetings_kept _ _ _ Hkind), (step_meetings_kept _ w). done.
  - intros e' w3 Htr.
    pose proof (transcribeMeeting_kind env meetingId audioUrl w1) as Htk.
    rewrite Htr in Htk. simpl in Htk.
    apply processMeeting_transcribe_throws in Htr. rewrite Hrun in Htr.
    injection Htr as <- <-. split; [done|].
    apply transcribe_keeps_derived in Htk. unfold derived in *. simpl in *. congruence.
Qed.

End Failure.

(** *** The status when a run starts *)

Section StartOfRun.
Context {T : Type}.
Variable env : Sys.Env T.

(** The world in which the status of a meeting has been overwritten. *)
Definition with_status (meetingId : string) (s : Sys.ProcessingStatus) (w : Sys.World T)
  : Sys.World T :=
  {| Sys.store := Sys.with_meetings (alter (Sys.set_status s) meetingId) (Sys.store w);
     Sys.trace := Sys.trace w |}.

Lemma update_status_overwrites meetingId s s' (w : Sys.World T) :
  Sys.step (Sys.Db (Sys.UpdateStatus meetingId s')) (with_status meetingId s w)
  = Sys.step (Sys.Db (Sys.UpdateStatus meetingId s')) w.
Proof.
  unfold Sys.step, with_status. simpl. unfold Sys.with_meetings. simpl.
  by rewrite alter_alter_eq.
Qed.

(** C1 (as amended).  Neither [handleNewMeeting] nor [handleUpdatedMeeting]
    reads the status of the meeting before writing ['processing'] over it:
    whatever the status is, ['processing'] included, the run is the same run,
    with the same result and the same final world; no request is rejected on
    account of the status. *)
Theorem run_ignores_status (meetingId audioUrl : string) (newAudioUrl : option string)
    (s : Sys.ProcessingStatus) (w : Sys.World T) :
  Orchestrator.handleNewMeeting env meetingId audioUrl (with_status meetingId s w)
  = Orchestrator.handleNewMeeting env meetingId audioUrl w /\
  Orchestrator.handleUpdatedMeeting env meetingId newAudioUrl (with_status meetingId s w)
  = Orchestrator.handleUpdatedMeeting env meetingId newAudioUrl w.
Proof.
  split.
  - unfold Orchestrator.handleNewMeeting, Orchestrator.updateMeetingStatus.
    run_m. by rewrite update_status_overwrites.
  - unfold Orchestrator.handleUpdatedMeeting, Orchestrator.getMeeting,
      Orchestrator.updateMeetingStatus, Orchestrator.deleteExistingActionItems,
      Orchestrator.deleteExistingDecisions, Orchestrator.deleteExistingMeetingTopics,
      Orchestrator.deleteExistingEmbeddings.
    run_m. rewrite lookup_alter_eq.
    destruct (Sys.meetings (Sys.store w) !! meetingId) as [mt|] eqn:Hmt; simpl.
    + by rewrite update_status_overwrites.
    + by rewrite update_status_overwrites.
Qed.

End StartOfRun.

(** A meeting whose run is in flight, with what an earlier run left. *)
Definition stale_item : Sys.ActionItem :=
  {| Sys.ai_id := 0; Sys.ai_meeting_id := "m1"; Sys.ai_description := "book a room";
     Sys.ai_priority := "low"; Sys.ai_due_date := None; Sys.ai_status := Sys.pending |}.

Definition example_world (status : Sys.ProcessingStatus) (video_url : option string)
  : Sys.World float :=
  {| Sys.store :=
       {| Sys.meetings :=
            {[ "m1" := {| Sys.m_status := status;
                          Sys.m_transcript := Some "we agreed on the budget";
                          Sys.m_summary := None; Sys.m_video_url := video_url |} ]};
          Sys.action_items := [stale_item]; Sys.decisions := []; Sys.topics := ∅;
          Sys.meeting_topics := ∅; Sys.meeting_embeddings := []; Sys.next_id := 1 |};
     Sys.trace := [] |}.

(** A transcription provider that never finishes the job. *)
Definition stuck_env : Sys.Env float :=
  {| Sys.VITE_ASSEMBLYAI_API_KEY := Some "assemblyai-key";
     Sys.VITE_GEMINI_API_KEY := Some "gemini-key";
     Sys.assemblyai_submit := fun _ _ => Sys.Resolved (Sys.SubmitOk "job-1");
     Sys.assemblyai_poll := fun _ _ => Sys.Resolved (Sys.PollOk Sys.st_processing None "");
     Sys.gemini_generate := fun _ prompt => Sys.Resolved (example_response prompt);
     Sys.gemini_embed := fun _ _ => Sys.Resolved [1%float; 0%float];
     Sys.json_parse := example_json;
     Sys.to_number := fun _ => 0%float;
     Sys.pg_text := example_text;
     Sys.pg_date := example_text;
     Sys.pg_text_array := fun _ => None |}.

Lemma handleNewMeeting_failure_witness :
  let w := example_world Sys.ready None in
  exists result w',
    Orchestrator.handleNewMeeting stuck_env "m1" "https://example.org/a.mp3" w
    = (Sys.Ok result, w') /\
    Orchestrator.success result = false /\
    Orchestrator.error result = Some "Transcription timed out" /\
    status_of "m1" w' = Some Sys.failed /\
    derived w' = derived w.
Proof.
  intros w.
  destruct (handleNewMeeting_failure stuck_env "m1" "https://example.org/a.mp3" w
              "Transcription timed out"
              (AiService.processMeeting stuck_env "m1" "https://example.org/a.mp3"
                 (Sys.step (Sys.Db (Sys.UpdateStatus "m1" Sys.processing)) w)).2)
    as (result & w' & Hrun & Hs & He & _ & _ & _ & _ & Hst & Hd).
  { vm_compute. reflexivity. }
  exists result, w'. split; [exact Hrun|]. split; [exact Hs|]. split; [exact He|].
  split; [apply Hst; eexists; reflexivity|].
  eapply Hd. vm_compute. reflexivity.
Defined.

(** C1 as stated fails: a run requested while the status is ['processing'] is
    started and carried through, for [handleNewMeeting] and for
    [handleUpdatedMeeting]. *)
Lemma run_starts_while_processing :
  let env := example_env [1%float; 0%float] in
  let w := example_world Sys.processing None in
  status_of "m1" w = Some Sys.processing /\
  (exists result w',
     Orchestrator.handleNewMeeting env "m1" "https://example.org/a.mp3" w = (Sys.Ok result, w') /\
     Orchestrator.success result = true /\
     Sys.Submit "https://example.org/a.mp3" ∈ Sys.trace w' /\
     status_of "m1" w' = Some Sys.ready) /\
  (exists result w',
     Orchestrator.handleUpdatedMeeting env "m1" None w = (Sys.Ok result, w') /\
     Orchestrator.success result = true /\
     Sys.Db (Sys.DeleteActionItems "m1") ∈ Sys.trace w' /\
     status_of "m1" w' = Some Sys.ready).
Proof.
  intros env w. split; [reflexivity|]. split.
  - eexists _, _. split; [vm_compute; reflexivity|].
    split; [reflexivity|]. split; [|reflexivity].
    apply list_elem_of_In. vm_compute. tauto.
  - eexists _, _. split; [vm_compute; reflexivity|].
    split; [reflexivity|]. split; [|reflexivity].
    apply list_elem_of_In. vm_compute. tauto.
Qed.

(** *** Retrying the failed meetings *)

(** [reprocessFailedMeetings] selects the meetings whose status is ['failed'],
    and no other. *)
Lemma fetchFailedMeetings_spec {T} (w : Sys.World T) :
  exists l, Orchestrator.fetchFailedMeetings w = (Sys.Ok l, w) /\
    forall id url, (id, url) ∈ l <->
      exists mt, Sys.meetings (Sys.store w) !! id = Some mt /\
                 Sys.m_status mt = Sys.failed /\ Sys.m_video_url mt = url.
Proof.
  eexists. split; [reflexivity|]. intros id url.
  rewrite list_elem_of_fmap. split.
  - intros ([id' mt] & [= -> ->] & Hin).
    apply elem_of_map_to_list, map_lookup_filter_Some in Hin as [Hmt Hst].
    by exists mt.
  - intros (mt & Hmt & Hst & <-). exists (id, mt). split; [done|].
    by apply elem_of_map_to_list, map_lookup_filter_Some.
Qed.

(** The pause between two retries is longer than the pause between two items
    of a batch. *)
Lemma retry_delay_longer : (Orchestrator.batch_delay < Orchestrator.retry_delay)%Z.
Proof. reflexivity. Qed.

(** C4 fails on a failed meeting with a stored audio reference: it is
    retried by [handleNewMeeting], which deletes nothing, so the action item
    of an earlier run stays next to the new one.  Without audio reference the
    retry goes through [handleUpdatedMeeting] and the old item is deleted. *)
Lemma reprocessFailedMeetings_keeps_stale_rows :
  let env := example_env [1%float; 0%float] in
  (exists results w',
     Orchestrator.reprocessFailedMeetings env
       (example_world Sys.failed (Some "https://example.org/a.mp3")) = (Sys.Ok results, w') /\
     map Orchestrator.success results = [true] /\
     stale_item ∈ Sys.action_items (Sys.store w') /\
     List.length (Sys.action_items (Sys.store w')) = 2 /\
     Sys.Db (Sys.DeleteActionItems "m1") ∉ Sys.trace w') /\
  (exists results w',
     (Orchestrator.reprocessFailedMeetings env (example_world Sys.failed None))
       = (Sys.Ok results, w') /\
     map Orchestrator.success results = [true] /\
     (stale_item ∉ Sys.action_items (Sys.store w')) /\
     List.length (Sys.action_items (Sys.store w')) = 1 /\
     Sys.Db (Sys.DeleteActionItems "m1") ∈ Sys.trace w').
Proof.
  intros env. split.
  - eexists _, _. split; [vm_compute; reflexivity|].
    split; [reflexivity|]. split; [by left|]. split; [reflexivity|].
    rewrite list_elem_of_In. vm_compute. intuition discriminate.
  - eexists _, _. split; [vm_compute; reflexivity|].
    split; [reflexivity|]. split; [|split; [reflexivity|]].
    + rewrite list_elem_of_In. vm_compute. intuition discriminate.
    + rewrite list_elem_of_In. vm_compute. tauto.
Qed.

(** *** Topics *)

Definition count_of (t : Sys.Topic) : Z := default 0%Z (Sys.t_meeting_count t).

(** Every topic of [w] is a topic of [w'], as it was: same name, same
    counter, same time. *)
Definition topics_kept {T} : relation (Sys.World T) :=
  fun w w' => Sys.topics (Sys.store w) ⊆ Sys.topics (Sys.store w').

#[global] Instance topics_kept_preorder {T} : PreOrder (@topics_kept T).
Proof.
  split; [intros w; unfold topics_kept; reflexivity|].
  intros x y z Hxy Hyz. unfold topics_kept in *. by etrans.
Qed.

(** No two topics with the same name. *)
Definition unique_names {T} (s : Sys.Store T) : Prop :=
  forall i j ti tj, Sys.topics s !! i = Some ti -> Sys.topics s !! j = Some tj ->
    Sys.t_name ti = Sys.t_name tj -> i = j.

Section TopicFacts.
Context {T : Type}.
Variable env : Sys.Env T.

Lemma same_topics_kept (w w' : Sys.World T) :
  Sys.topics (Sys.store w) = Sys.topics (Sys.store w') -> topics_kept w w'.
Proof. intros Heq. unfold topics_kept. by rewrite Heq. Qed.

Lemma respects_impl {A} (R R' : relation (Sys.World T)) (m : Sys.M T A) :
  (forall w w', R w w' -> R' w w') -> respects R m -> respects R' m.
Proof. intros HR Hm w. apply HR, Hm. Qed.

(** The only statement that changes [topics] is the insertion of a topic: an
    update of a topic reaches no row. *)
Lemma steps_keep_topics (P : Sys.Event T -> Prop) (w w' : Sys.World T) :
  (forall ev, P ev -> match ev with
                      | Sys.Db (Sys.InsertTopic _ _) => False
                      | _ => True
                      end) ->
  steps P w w' -> topics_kept w w'.
Proof.
  intros HP Hs. apply same_topics_kept. revert Hs.
  apply (steps_ind_rel _ (same (fun w => Sys.topics (Sys.store w)))).
  intros ev w0 Hev. apply HP in Hev. destruct ev as [stmt| | | | |]; try done.
  by destruct stmt.
Qed.

Lemma single_topic_inv name (s : Sys.Store T) id t :
  AiService.single_topic name s = Some (id, t) ->
  Sys.topics s !! id = Some t /\ Sys.t_name t = name.
Proof.
  unfold AiService.single_topic.
  destruct (map_to_list _) as [|kv [|kv' l]] eqn:E; try discriminate.
  intros [= ->].
  assert ((id, t) ∈ map_to_list (filter (fun kv => Sys.t_name kv.2 = name) (Sys.topics s)))
    as Hin by (rewrite E; by left).
  by apply elem_of_map_to_list, map_lookup_filter_Some in Hin.
Qed.

Lemma single_topic_Some name (s : Sys.Store T) id t :
  unique_names s -> Sys.topics s !! id = Some t -> Sys.t_name t = name ->
  AiService.single_topic name s = Some (id, t).
Proof.
  intros Huniq Ht Hn. unfold AiService.single_topic.
  assert (filter (fun kv => Sys.t_name kv.2 = name) (Sys.topics s) = {[ id := t ]}) as ->.
  { apply map_eq. intros j. apply option_eq. intros x.
    rewrite map_lookup_filter_Some, lookup_singleton_Some. simpl. split.
    - intros [Hj Hx]. assert (j = id) as -> by (eapply Huniq; eauto; congruence).
      split; [done | congruence].
    - intros [<- <-]. done. }
  by rewrite map_to_list_singleton.
Qed.

Lemma single_topic_None name (s : Sys.Store T) :
  (forall id t, Sys.topics s !! id = Some t -> Sys.t_name t <> name) ->
  AiService.single_topic name s = None.
Proof.
  intros Hnone. unfold AiService.single_topic.
  assert (filter (fun kv => Sys.t_name kv.2 = name) (Sys.topics s) = ∅) as ->.
  { apply map_eq. intros j. apply option_eq. intros x.
    rewrite map_lookup_filter_Some, lookup_empty. simpl. split; [|done].
    intros [Hj Hx]. by apply Hnone in Hj. }
  by rewrite map_to_list_empty.
Qed.

(** What [upsertTopicAndLink] does to the table of topics: nothing when it
    finds the topic (the update it sends reaches no row), the insertion of a
    topic with counter 1 when it does not. *)
Lemma upsertTopicAndLink_topics meetingId topicName (w : Sys.World T) :
  let name := Text.trim (Text.toLowerCase topicName) in
  Sys.topics (Sys.store (AiService.upsertTopicAndLink meetingId topicName w).2) =
  match AiService.single_topic name (Sys.store w) with
  | Some _ => Sys.topics (Sys.store w)
  | None =>
      <[ fresh (dom (Sys.topics (Sys.store w))) :=
           {| Sys.t_name := name; Sys.t_meeting_count := Some 1%Z;
              Sys.t_last_discussed := Some (Sys.now w) |} ]> (Sys.topics (Sys.store w))
  end.
Proof.
  intros name. unfold AiService.upsertTopicAndLink. fold name. run_m.
  destruct (AiService.single_topic name (Sys.store w)) as [[id t]|]; run_m;
    repeat (case_decide || case_match); done.
Qed.

Lemma upsertTopicAndLink_kept meetingId topicName :
  respects topics_kept (AiService.upsertTopicAndLink (T:=T) meetingId topicName).
Proof.
  intros w. unfold topics_kept. rewrite upsertTopicAndLink_topics.
  destruct (AiService.single_topic _ (Sys.store w)) as [[id' t']|] eqn:E; [done|].
  apply insert_subseteq, not_elem_of_dom, is_fresh.
Qed.

End TopicFacts.

Section TopicsKept.
Context {T : Type}.
Variable env : Sys.Env T.

Ltac kept_tac :=
  respects_tac;
  try (apply same_topics_kept; reflexivity);
  try (eapply steps_keep_topics; [|apply steps_one; exact I]; by intros [[]| | | | |]).

Lemma transcribeMeeting_kept meetingId audioUrl :
  respects topics_kept (AiService.transcribeMeeting env meetingId audioUrl).
Proof.
  eapply respects_impl; [|apply transcribeMeeting_kind].
  intros w w'. apply steps_keep_topics. by intros [[]| | | | |].
Qed.

Lemma extractMeetingInsights_kept meetingId transcript :
  respects topics_kept (AiService.extractMeetingInsights env meetingId transcript).
Proof.
  eapply respects_impl; [|apply extractMeetingInsights_kind].
  intros w w'. apply steps_keep_topics. by intros [[]| | | | |].
Qed.

Lemma embed_chunks_kept meetingId chunks i :
  respects topics_kept (AiService.embed_chunks env meetingId chunks i).
Proof.
  eapply respects_impl; [|apply (embed_chunks_kind env meetingId)].
  intros w w'. apply steps_keep_topics. by intros [[]| | | | |].
Qed.

Lemma extractTopics_kept transcript :
  respects topics_kept (AiService.extractTopics env transcript).
Proof.
  unfold AiService.extractTopics, AiService.generateContent. kept_tac.
Qed.

Lemma updateTopicsAndEmbeddings_kept meetingId transcript :
  respects topics_kept (AiService.updateTopicsAndEmbeddings env meetingId transcript).
Proof.
  unfold AiService.updateTopicsAndEmbeddings, AiService.getGeminiKey,
    AiService.generateAndStoreEmbeddings.
  kept_tac; [apply extractTopics_kept | apply upsertTopicAndLink_kept | apply embed_chunks_kept].
Qed.

Lemma processMeeting_kept meetingId audioUrl :
  respects topics_kept (AiService.processMeeting env meetingId audioUrl).
Proof.
  unfold AiService.processMeeting.
  kept_tac; [apply transcribeMeeting_kept | apply extractMeetingInsights_kept
            | apply updateTopicsAndEmbeddings_kept].
Qed.

Lemma handleNewMeeting_kept meetingId audioUrl :
  respects topics_kept (Orchestrator.handleNewMeeting env meetingId audioUrl).
Proof.
  unfold Orchestrator.handleNewMeeting, Orchestrator.updateMeetingStatus.
  kept_tac. apply processMeeting_kept.
Qed.

Lemma handleUpdatedMeeting_kept meetingId newAudioUrl :
  respects topics_kept (Orchestrator.handleUpdatedMeeting env meetingId newAudioUrl).
Proof.
  unfold Orchestrator.handleUpdatedMeeting, Orchestrator.getMeeting,
    Orchestrator.updateMeetingStatus, Orchestrator.deleteExistingActionItems,
    Orchestrator.deleteExistingDecisions, Orchestrator.deleteExistingMeetingTopics,
    Orchestrator.deleteExistingEmbeddings.
  kept_tac; first [apply transcribeMeeting_kept | apply extractMeetingInsights_kept
                  | apply updateTopicsAndEmbeddings_kept].
Qed.

Lemma batch_loop_kept meetings : forall results,
  respects topics_kept (Orchestrator.batch_loop env meetings results).
Proof.
  induction meetings as [|[id url] rest IH]; intros results; simpl.
  - apply respects_ret. exact _.
  - kept_tac; first [apply handleNewMeeting_kept | apply IH].
Qed.

Lemma retry_loop_kept failedMeetings : forall results,
  respects topics_kept (Orchestrator.retry_loop env failedMeetings results).
Proof.
  induction failedMeetings as [|[id url] rest IH]; intros results; simpl.
  - apply respects_ret. exact _.
  - kept_tac; first [apply handleNewMeeting_kept | apply handleUpdatedMeeting_kept | apply IH].
Qed.

End TopicsKept.

Definition budget_topic : Sys.Topic :=
  {| Sys.t_name := "budget"; Sys.t_meeting_count := Some 3%Z; Sys.t_last_discussed := Some 0 |}.

Definition topics_world : Sys.World float :=
  {| Sys.store :=
       {| Sys.meetings := {[ "m1" := example_meeting Sys.ready ]};
          Sys.action_items := []; Sys.decisions := [];
          Sys.topics := {[ 7 := budget_topic ]};
          Sys.meeting_topics := ∅; Sys.meeting_embeddings := []; Sys.next_id := 8 |};
     Sys.trace := [] |}.

Lemma topics_world_unique : unique_names (Sys.store topics_world).
Proof.
  intros i j ti tj Hi Hj _. simpl in *.
  apply lookup_singleton_Some in Hi as [<- _]. by apply lookup_singleton_Some in Hj as [<- _].
Qed.

(** C8 fails on the store of schema.sql, where [topics] has no UPDATE policy.
    In a table that holds the topic "budget" with counter 3,
    [upsertTopicAndLink] for ["  Budget "] and then for ["budget"] finds the
    topic and sends, each time, the update of its counter to 4 and of its
    last-discussed time to the time of the call; the updates reach no row,
    and the topic is left with counter 3 and the time it had. *)
Lemma upsertTopicAndLink_counter_stuck :
  let w1 := (AiService.upsertTopicAndLink "m1" "  Budget " topics_world).2 in
  let w2 := (AiService.upsertTopicAndLink "m1" "budget" w1).2 in
  Sys.has_policy Sys.tbl_topics Sys.cmd_update = false /\
  Sys.trace w2 = [ Sys.Db (Sys.UpdateTopic 7 4 0); Sys.Db (Sys.InsertMeetingTopic "m1" 7);
                   Sys.Db (Sys.UpdateTopic 7 4 2) ] /\
  Sys.topics (Sys.store w1) = {[ 7 := budget_topic ]} /\
  Sys.topics (Sys.store w2) = {[ 7 := budget_topic ]}.
Proof. repeat split; vm_compute; reflexivity. Qed.

(** An invariant kept by every step is kept by the computation. *)
Definition keeps {T} (I : Sys.World T -> Prop) : relation (Sys.World T) :=
  fun w w' => I w -> I w'.

#[global] Instance keeps_preorder {T} (I : Sys.World T -> Prop) : PreOrder (keeps I).
Proof.
  split; [intros w Hw; exact Hw | intros x y z Hxy Hyz Hx; apply Hyz, Hxy, Hx].
Qed.

Section Table.
Context {T Row : Type}.
(** [stored s row]: the row is in the table, for the meeting at hand;
    [inserted ev row]: the event is the insertion of that row. *)
Variable stored : Sys.Store T -> Row -> Prop.
Variable inserted : Sys.Event T -> Row -> Prop.
Variable w0 : Sys.World T.

(** The rows stored are the rows inserted since [w0]. *)
Definition table_inv (w : Sys.World T) : Prop :=
  List.length (Sys.trace w0) <= List.length (Sys.trace w) /\
  forall row, stored (Sys.store w) row <->
    exists ev, ev ∈ new_events w0 w /\ inserted ev row.

(** No row is stored and none has been inserted since [w0]. *)
Definition table_zero (w : Sys.World T) : Prop :=
  List.length (Sys.trace w0) <= List.length (Sys.trace w) /\
  (forall row, ~ stored (Sys.store w) row) /\
  (forall ev row, ev ∈ new_events w0 w -> ~ inserted ev row).

Definition adds_only (ev : Sys.Event T) : Prop :=
  forall w row, stored (Sys.store (Sys.step ev w)) row <->
                stored (Sys.store w) row \/ inserted ev row.

Definition no_effect (ev : Sys.Event T) : Prop :=
  (forall w row, stored (Sys.store (Sys.step ev w)) row -> stored (Sys.store w) row) /\
  (forall row, ~ inserted ev row).

Lemma new_events_step (w : Sys.World T) ev :
  List.length (Sys.trace w0) <= List.length (Sys.trace w) ->
  new_events w0 (Sys.step ev w) = new_events w0 w ++ [ev].
Proof. intros Hle. unfold new_events. simpl. by rewrite drop_app_le. Qed.

Lemma table_zero_inv w : table_zero w -> table_inv w.
Proof.
  intros (Hle & Hs & Hi). split; [done|]. intros row. split.
  - intros Hrow. by apply Hs in Hrow.
  - intros (ev & Hev & Hins). by apply Hi in Hins.
Qed.

Lemma table_inv_step ev w : adds_only ev -> table_inv w -> table_inv (Sys.step ev w).
Proof.
  intros Hadd (Hle & Hinv). split.
  - simpl. rewrite length_app. simpl. lia.
  - intros row. unfold adds_only in Hadd. rewrite Hadd, Hinv, new_events_step by done. split.
    + intros [(ev' & Hin & Hins)|Hins].
      * exists ev'. split; [|done]. apply elem_of_app. by left.
      * exists ev. split; [|done]. apply elem_of_app. right. by left.
    + intros (ev' & [Hin|Hin%list_elem_of_singleton]%elem_of_app & Hins).
      * left. by exists ev'.
      * right. by subst.
Qed.

Lemma table_zero_step ev w : no_effect ev -> table_zero w -> table_zero (Sys.step ev w).
Proof.
  intros [Hst Hins] (Hle & Hs & Hi). split; [|split].
  - simpl. rewrite length_app. simpl. lia.
  - intros row Hrow. by apply Hst, Hs in Hrow.
  - intros ev' row. rewrite new_events_step by done.
    intros [Hin|Hin%list_elem_of_singleton]%elem_of_app; [by apply Hi | subst; apply Hins].
Qed.

Lemma table_inv_steps (P : Sys.Event T -> Prop) w w' :
  (forall ev, P ev -> adds_only ev) -> steps P w w' -> table_inv w -> table_inv w'.
Proof.
  intros HP. apply (steps_ind_rel _ (keeps table_inv)).
  intros ev w1 Hev Hinv. by apply table_inv_step; [apply HP|].
Qed.

(** The rows stored are the rows stored in [w0] and the rows inserted
    since. *)
Definition table_from (w : Sys.World T) : Prop :=
  List.length (Sys.trace w0) <= List.length (Sys.trace w) /\
  forall row, stored (Sys.store w) row <->
    stored (Sys.store w0) row \/ exists ev, ev ∈ new_events w0 w /\ inserted ev row.

Lemma table_from_start : table_from w0.
Proof.
  split; [done|]. intros row. unfold new_events. rewrite drop_all. split; [by left|].
  intros [Hrow|(ev & Hev & _)]; [done | by apply elem_of_nil in Hev].
Qed.

Lemma table_from_step ev w : adds_only ev -> table_from w -> table_from (Sys.step ev w).
Proof.
  intros Hadd (Hle & Hinv). split.
  - simpl. rewrite length_app. simpl. lia.
  - intros row. unfold adds_only in Hadd. rewrite Hadd, Hinv, new_events_step by done. split.
    + intros [[Hrow|(ev' & Hin & Hins)]|Hins].
      * by left.
      * right. exists ev'. split; [|done]. apply elem_of_app. by left.
      * right. exists ev. split; [|done]. apply elem_of_app. right. by left.
    + intros [Hrow|(ev' & [Hin|Hin%list_elem_of_singleton]%elem_of_app & Hins)].
      * left. by left.
      * left. right. by exists ev'.
      * right. by subst.
Qed.

Lemma table_from_steps (P : Sys.Event T -> Prop) w w' :
  (forall ev, P ev -> adds_only ev) -> steps P w w' -> table_from w -> table_from w'.
Proof.
  intros HP. apply (steps_ind_rel _ (keeps table_from)).
  intros ev w1 Hev Hinv. by apply table_from_step; [apply HP|].
Qed.

Lemma table_zero_steps (P : Sys.Event T -> Prop) w w' :
  (forall ev, P ev -> no_effect ev) -> steps P w w' -> table_zero w -> table_zero w'.
Proof.
  intros HP. apply (steps_ind_rel _ (keeps table_zero)).
  intros ev w1 Hev Hz. by apply table_zero_step; [apply HP|].
Qed.

End Table.

Section Reprocess.
Context {T : Type}.
Variable env : Sys.Env T.
Variable meetingId : string.

(** The run after the cleanup: first the stages that write no embedding
    chunk, then at most one deletion of the chunks of the meeting, then the
    insertion of the new chunks and the final status. *)
Definition pre_kind (ev : Sys.Event T) : Prop :=
  transcribe_kind meetingId ev \/ insights_kind meetingId ev \/ topics_kind meetingId ev.

Definition ins_kind (ev : Sys.Event T) : Prop :=
  embed_kind meetingId ev \/ exists s, ev = Sys.Db (Sys.UpdateStatus meetingId s).

Definition phases : relation (Sys.World T) :=
  fun w w' => exists w1 w2,
    steps pre_kind w w1 /\
    (w2 = w1 \/ w2 = Sys.step (Sys.Db (Sys.DeleteEmbeddings meetingId)) w1) /\
    steps ins_kind w2 w'.

Lemma phases_pre w w' : steps pre_kind w w' -> phases w w'.
Proof. intros Hs. exists w', w'. split; [done|]. split; [by left | reflexivity]. Qed.

Lemma pre_phases w w1 w' : steps pre_kind w w1 -> phases w1 w' -> phases w w'.
Proof.
  intros Hs (w2 & w3 & H2 & H3 & H4). exists w2, w3. split; [by etrans | done].
Qed.

Lemma phases_ins w w1 w' : phases w w1 -> steps ins_kind w1 w' -> phases w w'.
Proof.
  intros (w2 & w3 & H2 & H3 & H4) Hs. exists w2, w3. split; [done|]. split; [done | by etrans].
Qed.

Lemma respects_pre_bind {A B} (m : Sys.M T A) (f : A -> Sys.M T B) :
  respects (steps pre_kind) m -> (forall a, respects phases (f a)) ->
  respects phases (Sys.bind m f).
Proof.
  intros Hm Hf w. unfold Sys.bind. specialize (Hm w).
  destruct (m w) as [[a|e] w1]; simpl in *; [|by apply phases_pre].
  eapply pre_phases; [exact Hm | apply Hf].
Qed.

Lemma respects_bind_ins {A B} (m : Sys.M T A) (f : A -> Sys.M T B) :
  respects phases m -> (forall a, respects (steps ins_kind) (f a)) ->
  respects phases (Sys.bind m f).
Proof.
  intros Hm Hf w. unfold Sys.bind. specialize (Hm w).
  destruct (m w) as [[a|e] w1]; simpl in *; [|done].
  eapply phases_ins; [exact Hm | apply Hf].
Qed.

Lemma respects_try_ins {A} (m : Sys.M T A) (h : string -> Sys.M T A) :
  respects phases m -> (forall e, respects (steps ins_kind) (h e)) ->
  respects phases (Sys.try_catch m h).
Proof.
  intros Hm Hh w. unfold Sys.try_catch. specialize (Hm w).
  destruct (m w) as [[a|e] w1]; simpl in *; [done|].
  eapply phases_ins; [exact Hm | apply Hh].
Qed.

Lemma generateAndStoreEmbeddings_phases transcript :
  respects phases (AiService.generateAndStoreEmbeddings env meetingId transcript).
Proof.
  intros w. unfold AiService.generateAndStoreEmbeddings. run_m.
  exists w, (Sys.step (Sys.Db (Sys.DeleteEmbeddings meetingId)) w).
  split; [reflexivity|]. split; [by right|].
  eapply steps_mono; [|apply (embed_chunks_kind env meetingId)]. intros ev Hev. by left.
Qed.

Lemma updateTopicsAndEmbeddings_phases transcript :
  respects phases (AiService.updateTopicsAndEmbeddings env meetingId transcript).
Proof.
  unfold AiService.updateTopicsAndEmbeddings, AiService.getGeminiKey.
  destruct (Sys.truthy _); [|intros w; apply phases_pre; reflexivity].
  apply respects_pre_bind; [apply respects_ret; exact _|]. intros _.
  intros w. unfold Sys.try_catch.
  match goal with |- phases w (match ?m w with _ => _ end).2 =>
    assert (respects phases m) as Hm; [|specialize (Hm w); by destruct (m w) as [[?|?] ?]]
  end.
  apply respects_pre_bind.
  { eapply respects_mono; [|apply (extractTopics_kind env meetingId)].
    intros ev Hev. right. by right. }
  intros topics. apply respects_pre_bind; [|intros _; apply generateAndStoreEmbeddings_phases].
  apply respects_for_each; [exact _|]. intros topicName.
  eapply respects_mono; [|apply upsertTopicAndLink_kind]. intros ev Hev. right. by right.
Qed.

(** The cleanup of [handleUpdatedMeeting]. *)
Definition cleanup (w : Sys.World T) : Sys.World T :=
  Sys.step (Sys.Db (Sys.DeleteEmbeddings meetingId))
    (Sys.step (Sys.Db (Sys.DeleteMeetingTopics meetingId))
       (Sys.step (Sys.Db (Sys.DeleteDecisions meetingId))
          (Sys.step (Sys.Db (Sys.DeleteActionItems meetingId))
             (Sys.step (Sys.Db (Sys.UpdateStatus meetingId Sys.processing)) w)))).

(** What follows the cleanup, and the handler of the exceptions. *)
Definition reprocess_rest (newAudioUrl : option string) (meeting : Sys.Meeting)
  : Sys.M T Orchestrator.MeetingProcessingResult :=
  Sys.bind
    match Sys.truthy newAudioUrl with
    | Some url => AiService.transcribeMeeting env meetingId url
    | None =>
        match Sys.truthy (Sys.m_transcript meeting) with
        | Some text => Sys.ret text
        | None => Sys.throw "No audio URL provided and no existing transcript found"
        end
    end
    (fun transcript =>
       Sys.bind (AiService.extractMeetingInsights env meetingId transcript)
         (fun insights =>
            Sys.bind (AiService.updateTopicsAndEmbeddings env meetingId transcript)
              (fun _ =>
                 Sys.bind (Orchestrator.updateMeetingStatus meetingId Sys.ready)
                   (fun _ =>
                      Sys.ret {| Orchestrator.success := true;
                                 Orchestrator.meetingId := meetingId;
                                 Orchestrator.transcript := Some transcript;
                                 Orchestrator.actionItems := AiService.actionItems insights;
                                 Orchestrator.decisions := AiService.decisions insights;
                                 Orchestrator.error := None |})))).

Definition reprocess_handler (errorMessage : string)
  : Sys.M T Orchestrator.MeetingProcessingResult :=
  Sys.bind (Orchestrator.updateMeetingStatus meetingId Sys.failed)
    (fun _ => Sys.ret (Orchestrator.failure meetingId errorMessage)).

Lemma handleUpdatedMeeting_unfold newAudioUrl (w : Sys.World T) meeting :
  Sys.meetings (Sys.store w) !! meetingId = Some meeting ->
  Orchestrator.handleUpdatedMeeting env meetingId newAudioUrl w
  = Sys.try_catch (reprocess_rest newAudioUrl meeting) reprocess_handler (cleanup w).
Proof.
  intros Hmt.
  unfold Orchestrator.handleUpdatedMeeting, Orchestrator.getMeeting,
    Orchestrator.deleteExistingActionItems,
    Orchestrator.deleteExistingDecisions, Orchestrator.deleteExistingMeetingTopics,
    Orchestrator.deleteExistingEmbeddings, reprocess_rest, reprocess_handler, cleanup.
  unfold Sys.try_catch, Sys.bind at 1 2 3 4 5 6. simpl. by rewrite Hmt.
Qed.

Lemma reprocess_rest_phases newAudioUrl meeting :
  respects phases (reprocess_rest newAudioUrl meeting).
Proof.
  unfold reprocess_rest. apply respects_pre_bind.
  { destruct (Sys.truthy newAudioUrl).
    - eapply respects_mono; [|apply transcribeMeeting_kind]. intros ev Hev. by left.
    - destruct (Sys.truthy (Sys.m_transcript meeting));
        [apply respects_ret | apply respects_throw]; exact _. }
  intros transcript. apply respects_pre_bind.
  { eapply respects_mono; [|apply extractMeetingInsights_kind].
    intros ev Hev. right. by left. }
  intros insights. apply respects_bind_ins; [apply updateTopicsAndEmbeddings_phases|].
  intros _. apply respects_bind; [exact _ | | intros _; apply respects_ret; exact _].
  apply respects_exec. intros w1. apply steps_one. right. by eexists.
Qed.

(** With the meeting in the store, [handleUpdatedMeeting] is the cleanup
    followed by the phases above. *)
Lemma handleUpdatedMeeting_phases newAudioUrl (w : Sys.World T) :
  is_Some (Sys.meetings (Sys.store w) !! meetingId) ->
  phases (cleanup w) (Orchestrator.handleUpdatedMeeting env meetingId newAudioUrl w).2.
Proof.
  intros [mt Hmt]. rewrite (handleUpdatedMeeting_unfold _ _ mt) by done.
  apply respects_try_ins; [apply reprocess_rest_phases|].
  intros e. unfold reprocess_handler.
  apply respects_bind; [exact _ | | intros _; apply respects_ret; exact _].
  apply respects_exec. intros w1. apply steps_one. right. by eexists.
Qed.

End Reprocess.

Section ReprocessTables.
Context {T : Type}.
Variable env : Sys.Env T.
Variable meetingId : string.

Definition stored_items (s : Sys.Store T) (row : Sys.ActionItem) : Prop :=
  row ∈ Sys.action_items s /\ Sys.ai_meeting_id row = meetingId.
Definition inserted_item (ev : Sys.Event T) (row : Sys.ActionItem) : Prop :=
  ev = Sys.Db (Sys.InsertActionItem row) /\ Sys.ai_meeting_id row = meetingId.

Definition stored_decisions (s : Sys.Store T) (row : Sys.Decision) : Prop :=
  row ∈ Sys.decisions s /\ Sys.d_meeting_id row = meetingId.
Definition inserted_decision (ev : Sys.Event T) (row : Sys.Decision) : Prop :=
  ev = Sys.Db (Sys.InsertDecision row) /\ Sys.d_meeting_id row = meetingId.

Definition stored_links (s : Sys.Store T) (topicId : nat) : Prop :=
  (meetingId, topicId) ∈ Sys.meeting_topics s.
Definition inserted_link (ev : Sys.Event T) (topicId : nat) : Prop :=
  ev = Sys.Db (Sys.InsertMeetingTopic meetingId topicId).

Definition stored_chunks (s : Sys.Store T) (row : Sys.EmbeddingRow T) : Prop :=
  row ∈ Sys.meeting_embeddings s /\ Sys.e_meeting_id row = meetingId.
Definition inserted_chunk (ev : Sys.Event T) (row : Sys.EmbeddingRow T) : Prop :=
  ev = Sys.Db (Sys.InsertEmbedding row) /\ Sys.e_meeting_id row = meetingId.

Definition run_kind (ev : Sys.Event T) : Prop :=
  pre_kind meetingId ev \/ ins_kind meetingId ev \/
  ev = Sys.Db (Sys.DeleteEmbeddings meetingId).

Ltac kind_cases H :=
  unfold run_kind, pre_kind, ins_kind, transcribe_kind, insights_kind, topics_kind,
    embed_kind in H;
  simpl in H.

Ltac table_tac :=
  simpl;
  rewrite ?elem_of_app, ?list_elem_of_singleton, ?list_elem_of_filter, ?elem_of_union,
    ?elem_of_singleton, ?elem_of_filter;
  naive_solver.

Lemma items_adds_only ev : run_kind ev -> adds_only stored_items inserted_item ev.
Proof.
  intros H w row. unfold stored_items, inserted_item.
  destruct ev as [stmt| | | | |]; [destruct stmt|..]; kind_cases H; table_tac.
Qed.

Lemma decisions_adds_only ev : run_kind ev -> adds_only stored_decisions inserted_decision ev.
Proof.
  intros H w row. unfold stored_decisions, inserted_decision.
  destruct ev as [stmt| | | | |]; [destruct stmt|..]; kind_cases H; table_tac.
Qed.

(** The deletion of the links of a meeting reaches no row: [meeting_topics]
    has no DELETE policy. *)
Definition cleanup_kind (ev : Sys.Event T) : Prop :=
  match ev with
  | Sys.Db (Sys.DeleteActionItems _) | Sys.Db (Sys.DeleteDecisions _)
  | Sys.Db (Sys.DeleteMeetingTopics _) | Sys.Db (Sys.DeleteEmbeddings _)
  | Sys.Db (Sys.UpdateStatus _ _) => True
  | _ => False
  end.

Lemma links_adds_only ev :
  run_kind ev \/ cleanup_kind ev -> adds_only stored_links inserted_link ev.
Proof.
  intros H w row. unfold stored_links, inserted_link.
  destruct ev as [stmt| | | | |]; [destruct stmt|..];
    (destruct H as [H|H]; [kind_cases H|simpl in H]); try done; table_tac.
Qed.

Lemma chunks_adds_only ev : ins_kind meetingId ev -> adds_only stored_chunks inserted_chunk ev.
Proof.
  intros H w row. unfold stored_chunks, inserted_chunk.
  destruct ev as [stmt| | | | |]; [destruct stmt|..]; kind_cases H; table_tac.
Qed.

Lemma chunks_no_effect ev :
  pre_kind meetingId ev \/ ev = Sys.Db (Sys.DeleteEmbeddings meetingId) ->
  no_effect stored_chunks inserted_chunk ev.
Proof.
  intros H. unfold no_effect, stored_chunks, inserted_chunk. split; [intros w row|intros row].
  - destruct ev as [stmt| | | | |]; [destruct stmt|..]; kind_cases H; table_tac.
  - destruct ev as [stmt| | | | |]; [destruct stmt|..]; kind_cases H; naive_solver.
Qed.

Lemma new_events_cleanup (w : Sys.World T) :
  new_events w (cleanup meetingId w) =
  [ Sys.Db (Sys.UpdateStatus meetingId Sys.processing);
    Sys.Db (Sys.DeleteActionItems meetingId); Sys.Db (Sys.DeleteDecisions meetingId);
    Sys.Db (Sys.DeleteMeetingTopics meetingId); Sys.Db (Sys.DeleteEmbeddings meetingId) ].
Proof.
  unfold new_events, cleanup. simpl. rewrite <- !app_assoc. simpl.
  by rewrite drop_app_length.
Qed.

Lemma cleanup_length (w : Sys.World T) :
  List.length (Sys.trace w) <= List.length (Sys.trace (cleanup meetingId w)).
Proof. unfold cleanup. simpl. rewrite !length_app. lia. Qed.

Ltac zero_tac w :=
  split; [apply cleanup_length|]; split;
  [ intros row; unfold cleanup; table_tac
  | intros ev row; rewrite new_events_cleanup; rewrite !elem_of_cons, elem_of_nil;
    naive_solver ].

Lemma cleanup_zero_items w : table_zero stored_items inserted_item w (cleanup meetingId w).
Proof. unfold stored_items, inserted_item. zero_tac w. Qed.

Lemma cleanup_zero_decisions w :
  table_zero stored_decisions inserted_decision w (cleanup meetingId w).
Proof. unfold stored_decisions, inserted_decision. zero_tac w. Qed.

Lemma cleanup_links w : table_from stored_links inserted_link w (cleanup meetingId w).
Proof.
  unfold cleanup.
  repeat (apply table_from_step; [apply links_adds_only; by right|]).
  apply table_from_start.
Qed.

Lemma cleanup_zero_chunks w : table_zero stored_chunks inserted_chunk w (cleanup meetingId w).
Proof. unfold stored_chunks, inserted_chunk. zero_tac w. Qed.

(** After the phases, a table written by the early stages holds what the run
    inserted. *)
Lemma phases_table_inv {Row} (stored : Sys.Store T -> Row -> Prop) inserted w w' :
  (forall ev, run_kind ev -> adds_only stored inserted ev) ->
  table_zero stored inserted w (cleanup meetingId w) ->
  phases meetingId (cleanup meetingId w) w' ->
  table_inv stored inserted w w'.
Proof.
  intros Hadd Hzero (w1 & w2 & Hpre & Hdel & Hins).
  apply table_zero_inv in Hzero.
  eapply (table_inv_steps _ _ _ (pre_kind meetingId)) in Hzero;
    [| intros ev Hev; apply Hadd; by left | exact Hpre].
  assert (table_inv stored inserted w w2) as H2.
  { destruct Hdel as [->| ->]; [done|]. apply table_inv_step; [|done].
    apply Hadd. right. by right. }
  eapply (table_inv_steps _ _ _ (ins_kind meetingId)); [|exact Hins | exact H2].
  intros ev Hev. apply Hadd. right. by left.
Qed.

Lemma phases_chunks_inv w w' :
  phases meetingId (cleanup meetingId w) w' ->
  table_inv stored_chunks inserted_chunk w w'.
Proof.
  intros (w1 & w2 & Hpre & Hdel & Hins).
  pose proof (cleanup_zero_chunks w) as Hzero.
  eapply (table_zero_steps _ _ _ (pre_kind meetingId)) in Hzero;
    [| intros ev Hev; apply chunks_no_effect; by left | exact Hpre].
  assert (table_zero stored_chunks inserted_chunk w w2) as H2.
  { destruct Hdel as [->| ->]; [done|]. apply table_zero_step; [|done].
    apply chunks_no_effect. by right. }
  apply table_zero_inv in H2.
  eapply (table_inv_steps _ _ _ (ins_kind meetingId)); [|exact Hins | exact H2].
  apply chunks_adds_only.
Qed.

(** X29.  After [handleUpdatedMeeting] on a meeting of the store, whatever
    the outcome of the run, the action items, the decisions and the embedding
    chunks stored for the meeting are exactly the rows that this run
    inserted: no row of an earlier run is left.  The topic links of the
    meeting are the links it had and the links this run inserted: the
    deletion of the links reaches no row.  Every topic is still in the store,
    as it was. *)
Theorem reprocess_replaces_rows (newAudioUrl : option string) (w : Sys.World T) :
  is_Some (Sys.meetings (Sys.store w) !! meetingId) ->
  let w' := (Orchestrator.handleUpdatedMeeting env meetingId newAudioUrl w).2 in
  let run := new_events w w' in
  (forall row, row ∈ Sys.action_items (Sys.store w') /\ Sys.ai_meeting_id row = meetingId <->
               Sys.Db (Sys.InsertActionItem row) ∈ run /\ Sys.ai_meeting_id row = meetingId) /\
  (forall row, row ∈ Sys.decisions (Sys.store w') /\ Sys.d_meeting_id row = meetingId <->
               Sys.Db (Sys.InsertDecision row) ∈ run /\ Sys.d_meeting_id row = meetingId) /\
  (forall row, row ∈ Sys.meeting_embeddings (Sys.store w') /\ Sys.e_meeting_id row = meetingId <->
               Sys.Db (Sys.InsertEmbedding row) ∈ run /\ Sys.e_meeting_id row = meetingId) /\
  (forall topicId, (meetingId, topicId) ∈ Sys.meeting_topics (Sys.store w') <->
                   (meetingId, topicId) ∈ Sys.meeting_topics (Sys.store w) \/
                   Sys.Db (Sys.InsertMeetingTopic meetingId topicId) ∈ run) /\
  topics_kept w w'.
Proof.
  intros Hm w' run.
  pose proof (handleUpdatedMeeting_phases env meetingId newAudioUrl w Hm) as Hph.
  fold w' in Hph.
  split; [|split; [|split; [|split]]].
  - intros row.
    destruct (phases_table_inv stored_items inserted_item w w' items_adds_only
                (cleanup_zero_items w) Hph) as [_ Hinv].
    rewrite (Hinv row). unfold inserted_item. fold run. naive_solver.
  - intros row.
    destruct (phases_table_inv stored_decisions inserted_decision w w' decisions_adds_only
                (cleanup_zero_decisions w) Hph) as [_ Hinv].
    rewrite (Hinv row). unfold inserted_decision. fold run. naive_solver.
  - intros row.
    destruct (phases_chunks_inv w w' Hph) as [_ Hinv].
    rewrite (Hinv row). unfold inserted_chunk. fold run. naive_solver.
  - intros topicId.
    assert (table_from stored_links inserted_link w w') as [_ Hinv].
    { destruct Hph as (w1 & w2 & Hpre & Hdel & Hins).
      pose proof (cleanup_links w) as H0.
      eapply (table_from_steps _ _ _ (pre_kind meetingId)) in H0;
        [| intros ev Hev; apply links_adds_only; by left; left | exact Hpre].
      assert (table_from stored_links inserted_link w w2) as H2.
      { destruct Hdel as [->| ->]; [done|]. apply table_from_step; [|done].
        apply links_adds_only. left. right. by right. }
      eapply (table_from_steps _ _ _ (ins_kind meetingId)); [|exact Hins | exact H2].
      intros ev Hev. apply links_adds_only. left. right. by left. }
    rewrite (Hinv topicId). unfold stored_links, inserted_link. fold run. naive_solver.
  - apply handleUpdatedMeeting_kept.
Qed.

End ReprocessTables.

Lemma reprocess_replaces_rows_witness :
  let env := example_env [1%float; 0%float] in
  let w := example_world Sys.ready None in
  let w' := (Orchestrator.handleUpdatedMeeting env "m1" None w).2 in
  let run := new_events w w' in
  (forall row, row ∈ Sys.action_items (Sys.store w') /\ Sys.ai_meeting_id row = "m1" <->
               Sys.Db (Sys.InsertActionItem row) ∈ run /\ Sys.ai_meeting_id row = "m1") /\
  (forall row, row ∈ Sys.decisions (Sys.store w') /\ Sys.d_meeting_id row = "m1" <->
               Sys.Db (Sys.InsertDecision row) ∈ run /\ Sys.d_meeting_id row = "m1") /\
  (forall row, row ∈ Sys.meeting_embeddings (Sys.store w') /\ Sys.e_meeting_id row = "m1" <->
               Sys.Db (Sys.InsertEmbedding row) ∈ run /\ Sys.e_meeting_id row = "m1") /\
  (forall topicId, ("m1", topicId) ∈ Sys.meeting_topics (Sys.store w') <->
                   ("m1", topicId) ∈ Sys.meeting_topics (Sys.store w) \/
                   Sys.Db (Sys.InsertMeetingTopic "m1" topicId) ∈ run) /\
  topics_kept w w'.
Proof.
  intros env w.
  apply (reprocess_replaces_rows env "m1" None w).
  eexists. reflexivity.
Defined.

(** The run of the witness: the old action item is gone, the new one is
    there. *)
Example reprocess_example :
  let env := example_env [1%float; 0%float] in
  let w' := (Orchestrator.handleUpdatedMeeting env "m1" None (example_world Sys.ready None)).2 in
  map Sys.ai_description (Sys.action_items (Sys.store w')) = ["send the budget"] /\
  map Sys.e_content_chunk (Sys.meeting_embeddings (Sys.store w')) = ["we agreed on the budget"] /\
  status_of "m1" w' = Some Sys.ready.
Proof. repeat split; reflexivity. Qed.

(** A meeting that an earlier run has linked to the topic "roadmap". *)
Definition linked_world : Sys.World float :=
  {| Sys.store :=
       {| Sys.meetings :=
            {[ "m1" := {| Sys.m_status := Sys.ready;
                          Sys.m_transcript := Some "we agreed on the budget";
                          Sys.m_summary := None; Sys.m_video_url := None |} ]};
          Sys.action_items := [stale_item]; Sys.decisions := [];
          Sys.topics := {[ 7 := {| Sys.t_name := "roadmap"; Sys.t_meeting_count := Some 1%Z;
                                   Sys.t_last_discussed := Some 0 |} ]};
          Sys.meeting_topics := {[ ("m1", 7) ]};
          Sys.meeting_embeddings := []; Sys.next_id := 8 |};
     Sys.trace := [] |}.

(** C2 fails on the store of schema.sql, where [meeting_topics] has no DELETE
    policy (the three other derived tables have one).  The reprocessing of a
    meeting linked to "roadmap" by an earlier run sends the four deletions;
    the action item of the earlier run is deleted, the link is not: after a
    run that found the topic "budget" only, the meeting is still linked to
    "roadmap". *)
Lemma reprocess_keeps_stale_links :
  let env := example_env [1%float; 0%float] in
  Sys.has_policy Sys.tbl_meeting_topics Sys.cmd_delete = false /\
  exists result w',
    Orchestrator.handleUpdatedMeeting env "m1" None linked_world = (Sys.Ok result, w') /\
    Orchestrator.success result = true /\
    Sys.Db (Sys.DeleteMeetingTopics "m1") ∈ Sys.trace w' /\
    map Sys.ai_description (Sys.action_items (Sys.store w')) = ["send the budget"] /\
    List.filter (fun ev => match ev with Sys.Db (Sys.InsertMeetingTopic _ _) => true | _ => false end)
           (Sys.trace w') = [Sys.Db (Sys.InsertMeetingTopic "m1" 8)] /\
    Sys.t_name <$> Sys.topics (Sys.store w') !! 8 = Some "budget" /\
    Sys.t_name <$> Sys.topics (Sys.store w') !! 7 = Some "roadmap" /\
    ("m1", 7) ∈ Sys.meeting_topics (Sys.store w').
Proof.
  intros env. split; [reflexivity|].
  eexists _, _. split; [vm_compute; reflexivity|].
  split; [reflexivity|]. split; [apply list_elem_of_In; vm_compute; tauto|].
  split; [reflexivity|]. split; [vm_compute; reflexivity|].
  split; [vm_compute; reflexivity|]. split; [vm_compute; reflexivity|].
  apply (bool_decide_unpack _). vm_compute. reflexivity.
Qed.

(** *** The poll budget *)

Section Timeout.
Context {T : Type}.
Variable env : Sys.Env T.

(** A provider that never completes exhausts the 60 polls. *)
Lemma poll_loop_pending id remaining :
  (forall t, Sys.assemblyai_poll env t id = Sys.Resolved (Sys.PollOk Sys.st_processing None "")) ->
  forall last w, exists w',
    AiService.poll_loop env remaining id last w =
    (Sys.Ok (match remaining with
             | O => last
             | S _ => Some (Sys.st_processing, None)
             end), w').
Proof.
  intros Hpoll. induction remaining as [|n IH]; intros last w; simpl.
  - by eexists.
  - unfold AiService.fetch_poll. run_m. rewrite Hpoll. run_m.
    destruct (IH (Some (Sys.st_processing, None))
                (Sys.step (Sys.Sleep 5000) (Sys.step (Sys.Poll id) w))) as [w' Hw'].
    rewrite Hw'. exists w'. by destruct n.
Qed.

Lemma transcribeMeeting_times_out meetingId audioUrl id key (w : Sys.World T) :
  Sys.truthy (Sys.VITE_ASSEMBLYAI_API_KEY env) = Some key ->
  (forall t, Sys.assemblyai_submit env t audioUrl = Sys.Resolved (Sys.SubmitOk id)) ->
  (forall t, Sys.assemblyai_poll env t id = Sys.Resolved (Sys.PollOk Sys.st_processing None "")) ->
  exists w', AiService.transcribeMeeting env meetingId audioUrl w
             = (Sys.Throw "Transcription timed out", w').
Proof.
  intros Hkey Hsubmit Hpoll.
  unfold AiService.transcribeMeeting, AiService.getAssemblyAIKey, AiService.fetch_submit.
  rewrite Hkey. generalize AiService.maxAttempts. intros n.
  unfold Sys.bind at 1. unfold Sys.ret at 1. unfold Sys.try_catch.
  unfold Sys.bind at 1. unfold Sys.bind at 1. unfold Sys.get at 1.
  unfold Sys.bind at 1. unfold Sys.emit at 1. rewrite Hsubmit.
  unfold Sys.await, Sys.ret at 1. unfold Sys.bind at 1.
  destruct (poll_loop_pending id n Hpoll None (Sys.step (Sys.Submit audioUrl) w)) as [w' Hw'].
  rewrite Hw'. destruct n; simpl; by eexists.
Qed.

End Timeout.

(** *** What a new run keeps *)

(** The action items, the decisions and the topic links of [w] are still in
    [w']. *)
Definition rows_kept {T} : relation (Sys.World T) :=
  fun w w' =>
    (forall row, row ∈ Sys.action_items (Sys.store w) -> row ∈ Sys.action_items (Sys.store w')) /\
    (forall row, row ∈ Sys.decisions (Sys.store w) -> row ∈ Sys.decisions (Sys.store w')) /\
    (forall l, l ∈ Sys.meeting_topics (Sys.store w) -> l ∈ Sys.meeting_topics (Sys.store w')).

#[global] Instance rows_kept_preorder {T} : PreOrder (@rows_kept T).
Proof.
  split; [by intros w|].
  intros x y z (H1 & H2 & H3) (H1' & H2' & H3'). repeat split; eauto.
Qed.

Section Retry.
Context {T : Type}.
Variable env : Sys.Env T.

Lemma pipeline_rows_kept meetingId (w w' : Sys.World T) :
  steps (pipeline_kind meetingId) w w' -> rows_kept w w'.
Proof.
  apply steps_ind_rel; [exact _|]. intros ev w0 Hev.
  unfold pipeline_kind, transcribe_kind, insights_kind, topics_kind, embed_kind in Hev.
  destruct ev as [stmt| | | | |]; [destruct stmt|..]; simpl in Hev;
    (repeat split; simpl; intros ?; rewrite ?elem_of_app, ?elem_of_union; naive_solver).
Qed.

Lemma handleNewMeeting_kind meetingId audioUrl :
  respects (steps (pipeline_kind meetingId)) (Orchestrator.handleNewMeeting env meetingId audioUrl).
Proof.
  unfold Orchestrator.handleNewMeeting, Orchestrator.updateMeetingStatus.
  respects_tac; try (apply steps_one; by left). apply processMeeting_kind.
Qed.

(** X30.  A new run deletes nothing: whatever its outcome,
    [handleNewMeeting] leaves every action item, every decision and every
    topic link that was stored, of the meeting and of the others, where it
    was. *)
Theorem handleNewMeeting_keeps_rows (meetingId audioUrl : string) (w : Sys.World T) :
  rows_kept w (Orchestrator.handleNewMeeting env meetingId audioUrl w).2.
Proof. eapply pipeline_rows_kept, handleNewMeeting_kind. Qed.

End Retry.

(** * Further properties of the services *)

(** ** Traces *)

(** The world after a list of events. *)
Definition play {T} (evs : list (Sys.Event T)) (w : Sys.World T) : Sys.World T :=
  foldl (fun w ev => Sys.step ev w) w evs.

Definition is_poll {T} (ev : Sys.Event T) : bool :=
  match ev with Sys.Poll _ => true | _ => false end.

Definition is_submit {T} (ev : Sys.Event T) : bool :=
  match ev with Sys.Submit _ => true | _ => false end.

Definition is_sleep {T} (ev : Sys.Event T) : bool :=
  match ev with Sys.Sleep _ => true | _ => false end.

Definition is_db {T} (ev : Sys.Event T) : bool :=
  match ev with Sys.Db _ => true | _ => false end.

(** The time spent in the pauses of a trace, in milliseconds. *)
Definition total_pause {T} (evs : list (Sys.Event T)) : Z :=
  foldr (fun ev acc => (match ev with Sys.Sleep ms => ms | _ => 0 end + acc)%Z) 0%Z evs.

Section Traces.
Context {T : Type}.
Implicit Types (w : Sys.World T) (evs : list (Sys.Event T)).

Lemma play_cons ev evs w : play (ev :: evs) w = play evs (Sys.step ev w).
Proof. reflexivity. Qed.

Lemma play_app evs1 evs2 w : play (evs1 ++ evs2) w = play evs2 (play evs1 w).
Proof. apply foldl_app. Qed.

Lemma play_snoc evs ev w : play (evs ++ [ev]) w = Sys.step ev (play evs w).
Proof. by rewrite play_app. Qed.

Lemma trace_play evs : forall w, Sys.trace (play evs w) = Sys.trace w ++ evs.
Proof.
  induction evs as [|ev evs IH]; intros w; simpl; [by rewrite app_nil_r|].
  rewrite IH. simpl. by rewrite <- app_assoc.
Qed.

Lemma new_events_play evs w : new_events w (play evs w) = evs.
Proof. unfold new_events. rewrite trace_play. by rewrite drop_app_length. Qed.

Lemma steps_play (P : Sys.Event T -> Prop) w w' :
  steps P w w' <-> exists evs, Forall P evs /\ w' = play evs w.
Proof.
  split.
  - induction 1 as [w|w ev w' Hev _ (evs & Hevs & ->)]; [by exists []|].
    exists (ev :: evs). by split; [constructor|].
  - intros (evs & Hevs & ->). revert w.
    induction Hevs as [|ev evs Hev _ IH]; intros w; [constructor|].
    econstructor; [exact Hev | apply IH].
Qed.

(** Only the statements change the store. *)
Lemma store_play evs w :
  Forall (fun ev => is_db ev = false) evs -> Sys.store (play evs w) = Sys.store w.
Proof.
  intros Hevs. revert w. induction Hevs as [|ev evs Hev _ IH]; intros w; [done|].
  rewrite play_cons, IH. by destruct ev.
Qed.

Lemma total_pause_app evs1 evs2 :
  total_pause (evs1 ++ evs2) = (total_pause evs1 + total_pause evs2)%Z.
Proof. induction evs1 as [|ev evs1 IH]; simpl; [done|]. unfold total_pause in *. simpl. lia. Qed.

End Traces.

(** ** Transcription *)

Section Transcription.
Context {T : Type}.
Variable env : Sys.Env T.

(** The events of the polling loop: requests for the state of the job, each
    but a last one followed by a pause of five seconds. *)
Definition poll_event (ev : Sys.Event T) : Prop :=
  (exists id, ev = Sys.Poll id) \/ ev = Sys.Sleep 5000.

Lemma poll_loop_events remaining id : forall last w,
  exists evs, (AiService.poll_loop env remaining id last w).2 = play evs w /\
    Forall poll_event evs /\
    List.length (List.filter is_poll evs) <= remaining /\
    (total_pause evs <= 5000 * Z.of_nat remaining)%Z.
Proof.
  induction remaining as [|n IH]; intros last w.
  - exists []. simpl. repeat split; [constructor | lia | lia].
  - simpl. unfold AiService.fetch_poll. run_m.
    destruct (Sys.assemblyai_poll env (Sys.now w) id) as [e|[statusText|st text error]]; simpl.
    + exists [Sys.Poll id]. simpl. repeat split; [|lia|lia].
      constructor; [left; by eexists | constructor].
    + exists [Sys.Poll id]. simpl. repeat split; [|lia|lia].
      constructor; [left; by eexists | constructor].
    + assert (exists evs,
                (AiService.poll_loop env n id (Some (st, text))
                   (Sys.step (Sys.Sleep 5000) (Sys.step (Sys.Poll id) w))).2
                = play (Sys.Poll id :: Sys.Sleep 5000 :: evs) w /\
                Forall poll_event evs /\ List.length (List.filter is_poll evs) <= n /\
                (total_pause evs <= 5000 * Z.of_nat n)%Z) as (evs & Hw & Hevs & Hn & Hp).
      { destruct (IH (Some (st, text)) (Sys.step (Sys.Sleep 5000) (Sys.step (Sys.Poll id) w)))
          as (evs & ? & ? & ? & ?). by exists evs. }
      destruct st; simpl.
      * exists (Sys.Poll id :: Sys.Sleep 5000 :: evs). split; [exact Hw|].
        split; [constructor; [left; by eexists | constructor; [by right | done]]|].
        simpl. unfold total_pause in *. simpl. lia.
      * exists (Sys.Poll id :: Sys.Sleep 5000 :: evs). split; [exact Hw|].
        split; [constructor; [left; by eexists | constructor; [by right | done]]|].
        simpl. unfold total_pause in *. simpl. lia.
      * exists [Sys.Poll id]. simpl. repeat split; [|lia|lia].
        constructor; [left; by eexists | constructor].
      * exists [Sys.Poll id]. simpl. repeat split; [|lia|lia].
        constructor; [left; by eexists | constructor].
Qed.

(** A run of [transcribeMeeting]: without the key nothing happens; with it,
    the submission, the polls and their pauses, and one statement on the row
    of the meeting: the transcript on success, the status ['failed'] on an
    exception. *)
Lemma transcribeMeeting_run (meetingId audioUrl : string) (w : Sys.World T) :
  match Sys.truthy (Sys.VITE_ASSEMBLYAI_API_KEY env) with
  | None =>
      AiService.transcribeMeeting env meetingId audioUrl w
      = (Sys.Throw "VITE_ASSEMBLYAI_API_KEY environment variable is not set", w)
  | Some _ =>
      exists evs r stmt,
        AiService.transcribeMeeting env meetingId audioUrl w
        = (r, play (Sys.Submit audioUrl :: evs ++ [Sys.Db stmt]) w) /\
        Forall poll_event evs /\
        List.length (List.filter is_poll evs) <= AiService.maxAttempts /\
        (total_pause evs <= 5000 * Z.of_nat AiService.maxAttempts)%Z /\
        match r with
        | Sys.Ok text => stmt = Sys.UpdateTranscript meetingId text
        | Sys.Throw _ => stmt = Sys.UpdateStatus meetingId Sys.failed
        end
  end.
Proof.
  unfold AiService.transcribeMeeting, AiService.getAssemblyAIKey.
  destruct (Sys.truthy (Sys.VITE_ASSEMBLYAI_API_KEY env)) as [key|]; [|reflexivity].
  generalize AiService.maxAttempts. intros n.
  unfold AiService.fetch_submit. run_m.
  destruct (Sys.assemblyai_submit env (Sys.now w) audioUrl) as [e|[error|id]]; simpl.
  - exists [], (Sys.Throw e), (Sys.UpdateStatus meetingId Sys.failed).
    simpl. repeat split; [constructor | lia | lia].
  - eexists [], _, (Sys.UpdateStatus meetingId Sys.failed).
    simpl. split; [reflexivity|]. repeat split; [constructor | lia | lia].
  - destruct (poll_loop_events n id None (Sys.step (Sys.Submit audioUrl) w))
      as (evs & Hw & Hevs & Hn & Hp).
    destruct (AiService.poll_loop env n id None (Sys.step (Sys.Submit audioUrl) w))
      as [[last|e] w1] eqn:E; simpl in Hw; subst w1; simpl.
    + destruct last as [[[] text]|]; simpl;
        eexists evs, _, _; (split; [rewrite ?play_cons, play_snoc; reflexivity|]); done.
    + eexists evs, _, _. split; [rewrite ?play_cons, play_snoc; reflexivity|]. done.
Qed.

End Transcription.

Section TranscriptionFacts.
Context {T : Type}.
Variable env : Sys.Env T.

(** X1.  [transcribeMeeting] writes one row and nothing else.  When it returns
    a text, the row of the meeting has that text as transcript and the status
    ['ready']; when it throws, the row has the status ['failed'], unless the
    exception is the missing key, raised before the [try], which leaves the
    world as it was.  The data derived from the transcripts is not touched,
    and for an identifier that is not in the table no row is written. *)
Theorem transcribeMeeting_outcome (meetingId audioUrl : string) (w : Sys.World T) :
  match AiService.transcribeMeeting env meetingId audioUrl w with
  | (Sys.Ok text, w') =>
      Sys.meetings (Sys.store w')
      = alter (Sys.set_transcript text) meetingId (Sys.meetings (Sys.store w)) /\
      derived w' = derived w
  | (Sys.Throw e, w') =>
      derived w' = derived w /\
      match Sys.truthy (Sys.VITE_ASSEMBLYAI_API_KEY env) with
      | None => w' = w
      | Some _ =>
          Sys.meetings (Sys.store w')
          = alter (Sys.set_status Sys.failed) meetingId (Sys.meetings (Sys.store w))
      end
  end.
Proof.
  pose proof (transcribeMeeting_run env meetingId audioUrl w) as Hrun.
  destruct (Sys.truthy (Sys.VITE_ASSEMBLYAI_API_KEY env)) as [key|].
  - destruct Hrun as (evs & r & stmt & -> & Hevs & _ & _ & Hr).
    assert (Sys.store (play evs (Sys.step (Sys.Submit audioUrl) w)) = Sys.store w) as Hstore.
    { rewrite store_play; [done|].
      eapply Forall_impl; [exact Hevs|]. by intros ev [[id ->]| ->]. }
    rewrite play_cons, play_snoc.
    destruct r as [text|e]; subst stmt; unfold derived; simpl; by rewrite Hstore.
  - by rewrite Hrun.
Qed.

(** X2.  The cost of a transcription: at most one submission, at most 60
    requests for the state of the job, and pauses that add up to at most five
    minutes. *)
Theorem transcribeMeeting_budget (meetingId audioUrl : string) (w : Sys.World T) :
  let run := new_events w (AiService.transcribeMeeting env meetingId audioUrl w).2 in
  List.length (List.filter is_submit run) <= 1 /\
  List.length (List.filter is_poll run) <= 60 /\
  (total_pause run <= 5 * 60 * 1000)%Z.
Proof.
  pose proof (transcribeMeeting_run env meetingId audioUrl w) as Hrun.
  destruct (Sys.truthy (Sys.VITE_ASSEMBLYAI_API_KEY env)) as [key|].
  - destruct Hrun as (evs & r & stmt & -> & Hevs & Hpolls & Hpause & _).
    cbv zeta. cbn [snd]. rewrite new_events_play.
    assert (List.filter is_submit evs = []) as Hsub.
    { clear -Hevs. induction Hevs as [|ev evs [[id ->]| ->] _ IH]; simpl; done. }
    simpl. rewrite !List.filter_app, Hsub. simpl. rewrite app_nil_r.
    change (Sys.Submit audioUrl :: evs ++ [Sys.Db stmt])
      with ([Sys.Submit audioUrl] ++ evs ++ [Sys.Db stmt]).
    rewrite !total_pause_app. unfold AiService.maxAttempts in *.
    change (total_pause [Sys.Submit audioUrl]) with 0%Z.
    change (total_pause [@Sys.Db T stmt]) with 0%Z. simpl. lia.
  - rewrite Hrun. simpl. unfold new_events. rewrite drop_all. simpl. lia.
Qed.

End TranscriptionFacts.

(** ** The extraction of the insights *)

(** What the loop over a property of the response does with its value: the
    loop is skipped, [for ... of] throws, or it runs over elements. *)
Inductive LoopInput :=
| Skipped
| NotIterable
| Elements (items : list Sys.Json).

Definition is_null (v : Sys.Json) : bool :=
  match v with
  | Sys.JNull => true
  | _ => false
  end.

Section Shape.
Context {T : Type}.
Variable env : Sys.Env T.

Definition loop_input (v : Sys.Value) : LoopInput :=
  match v with
  | Some x =>
      if Sys.js_truthy v && Sys.length_positive env x
      then match Sys.iterate x with
           | Some items => Elements items
           | None => NotIterable
           end
      else Skipped
  | None => Skipped
  end.

(** The [TypeError] of a loop, if any: on a value that is not iterable, or on
    the first element that is [null], of which the loop reads [key]. *)
Definition loop_error (name key : string) (v : Sys.Value) : option string :=
  match loop_input v with
  | Skipped => None
  | NotIterable => Some (name +:+ " is not iterable")
  | Elements items =>
      if existsb is_null items
      then Some ("Cannot read properties of null (reading '" +:+ key +:+ "')")
      else None
  end.

(** The [TypeError] that a parsed response runs into, if any. *)
Definition shape_error (insights : Sys.Json) : option string :=
  if is_null insights then Some "Cannot read properties of null (reading 'actionItems')"
  else
    match loop_error "insights.actionItems" "description" (Sys.member "actionItems" insights) with
    | Some e => Some e
    | None => loop_error "insights.decisions" "decision_text" (Sys.member "decisions" insights)
    end.

End Shape.

Section Insights.
Context {T : Type}.
Variable env : Sys.Env T.
Variable meetingId : string.

Definition insert_item (row : Sys.ActionItem) : Sys.Event T := Sys.Db (Sys.InsertActionItem row).
Definition insert_decision (row : Sys.Decision) : Sys.Event T := Sys.Db (Sys.InsertDecision row).

Lemma play_items (rows : list Sys.ActionItem) : forall w : Sys.World T,
  let w' := play (map insert_item rows) w in
  Sys.action_items (Sys.store w') = Sys.action_items (Sys.store w) ++ rows /\
  Sys.meetings (Sys.store w') = Sys.meetings (Sys.store w) /\
  Sys.decisions (Sys.store w') = Sys.decisions (Sys.store w) /\
  Sys.topics (Sys.store w') = Sys.topics (Sys.store w) /\
  Sys.meeting_topics (Sys.store w') = Sys.meeting_topics (Sys.store w) /\
  Sys.meeting_embeddings (Sys.store w') = Sys.meeting_embeddings (Sys.store w) /\
  Sys.next_id (Sys.store w') = Sys.next_id (Sys.store w) + List.length rows.
Proof.
  induction rows as [|row rows IH]; intros w; simpl; [by rewrite app_nil_r, Nat.add_0_r|].
  destruct (IH (Sys.step (insert_item row) w)) as (-> & -> & -> & -> & -> & -> & ->).
  simpl. rewrite <- app_assoc. repeat split; try done; lia.
Qed.

Lemma play_decisions (rows : list Sys.Decision) : forall w : Sys.World T,
  let w' := play (map insert_decision rows) w in
  Sys.decisions (Sys.store w') = Sys.decisions (Sys.store w) ++ rows /\
  Sys.meetings (Sys.store w') = Sys.meetings (Sys.store w) /\
  Sys.action_items (Sys.store w') = Sys.action_items (Sys.store w) /\
  Sys.topics (Sys.store w') = Sys.topics (Sys.store w) /\
  Sys.meeting_topics (Sys.store w') = Sys.meeting_topics (Sys.store w) /\
  Sys.meeting_embeddings (Sys.store w') = Sys.meeting_embeddings (Sys.store w) /\
  Sys.next_id (Sys.store w') = Sys.next_id (Sys.store w) + List.length rows.
Proof.
  induction rows as [|row rows IH]; intros w; simpl; [by rewrite app_nil_r, Nat.add_0_r|].
  destruct (IH (Sys.step (insert_decision row) w)) as (-> & -> & -> & -> & -> & -> & ->).
  simpl. rewrite <- app_assoc. repeat split; try done; lia.
Qed.

(** One insertion: a [null] element throws; any other is stored or refused. *)
Lemma insertActionItem_cases (item : Sys.Json) (w : Sys.World T) :
  if is_null item
  then AiService.insertActionItem env meetingId item w
       = (Sys.Throw "Cannot read properties of null (reading 'description')", w)
  else exists r,
    AiService.insertActionItem env meetingId item w
    = (Sys.Ok r, match r with Some row => Sys.step (insert_item row) w | None => w end) /\
    match r with
    | Some row =>
        Sys.ai_meeting_id row = meetingId /\ Sys.ai_status row = Sys.pending /\
        is_Some (Sys.meetings (Sys.store w) !! meetingId)
    | None => True
    end.
Proof.
  pose proof (insertActionItem_run env meetingId item w) as Hrun.
  destruct item; simpl; try done;
    (destruct (AiService.insertActionItem env meetingId _ w) as [[[row|]|e] w'];
     [ destruct Hrun as (-> & _ & ? & ? & ?); by exists (Some row)
     | subst w'; by exists None
     | by destruct Hrun as (_ & ? & _) ]).
Qed.

Lemma insertDecision_cases (item : Sys.Json) (w : Sys.World T) :
  if is_null item
  then AiService.insertDecision env meetingId item w
       = (Sys.Throw "Cannot read properties of null (reading 'decision_text')", w)
  else exists r,
    AiService.insertDecision env meetingId item w
    = (Sys.Ok r, match r with Some row => Sys.step (insert_decision row) w | None => w end) /\
    match r with
    | Some row =>
        Sys.d_meeting_id row = meetingId /\ is_Some (Sys.meetings (Sys.store w) !! meetingId)
    | None => True
    end.
Proof.
  pose proof (insertDecision_run env meetingId item w) as Hrun.
  destruct item; simpl; try done;
    (destruct (AiService.insertDecision env meetingId _ w) as [[[row|]|e] w'];
     [ destruct Hrun as (-> & _ & ? & ?); by exists (Some row)
     | subst w'; by exists None
     | by destruct Hrun as (_ & ? & _) ]).
Qed.

(** The loop over the elements: the rows stored are rows of the meeting, in
    the order of the elements; the loop stops with a [TypeError] at the first
    element that is [null], after the rows before it have been stored; for a
    meeting that is not in the table no row is stored. *)
Lemma insert_all_items (items : list Sys.Json) : forall created (w : Sys.World T),
  exists rows,
    Forall (fun row => Sys.ai_meeting_id row = meetingId /\ Sys.ai_status row = Sys.pending) rows /\
    (Sys.meetings (Sys.store w) !! meetingId = None -> rows = []) /\
    AiService.insert_all (AiService.insertActionItem env meetingId) items created w
    = (if existsb is_null items
       then Sys.Throw "Cannot read properties of null (reading 'description')"
       else Sys.Ok (created ++ rows),
       play (map insert_item rows) w).
Proof.
  induction items as [|item items IH]; intros created w; simpl.
  - exists []. by rewrite app_nil_r.
  - unfold Sys.bind. pose proof (insertActionItem_cases item w) as Hitem.
    destruct (is_null item); simpl.
    + exists []. by rewrite Hitem.
    + destruct Hitem as ([row|] & -> & Hrow).
      * destruct Hrow as (Hid & Hst & Hm).
        destruct (IH (created ++ [row]) (Sys.step (insert_item row) w)) as (rows & Hrows & _ & ->).
        exists (row :: rows). split; [by constructor|]. split.
        { intros Hnone. rewrite Hnone in Hm. by destruct Hm. }
        rewrite <- app_assoc. done.
      * destruct (IH created w) as (rows & Hrows & Hnone & ->). by exists rows.
Qed.

Lemma insert_all_decisions (items : list Sys.Json) : forall created (w : Sys.World T),
  exists rows,
    Forall (fun row => Sys.d_meeting_id row = meetingId) rows /\
    (Sys.meetings (Sys.store w) !! meetingId = None -> rows = []) /\
    AiService.insert_all (AiService.insertDecision env meetingId) items created w
    = (if existsb is_null items
       then Sys.Throw "Cannot read properties of null (reading 'decision_text')"
       else Sys.Ok (created ++ rows),
       play (map insert_decision rows) w).
Proof.
  induction items as [|item items IH]; intros created w; simpl.
  - exists []. by rewrite app_nil_r.
  - unfold Sys.bind. pose proof (insertDecision_cases item w) as Hitem.
    destruct (is_null item); simpl.
    + exists []. by rewrite Hitem.
    + destruct Hitem as ([row|] & -> & Hrow).
      * destruct Hrow as (Hid & Hm).
        destruct (IH (created ++ [row]) (Sys.step (insert_decision row) w)) as (rows & Hrows & _ & ->).
        exists (row :: rows). split; [by constructor|]. split.
        { intros Hnone. rewrite Hnone in Hm. by destruct Hm. }
        rewrite <- app_assoc. done.
      * destruct (IH created w) as (rows & Hrows & Hnone & ->). by exists rows.
Qed.

Lemma insert_each_items (v : Sys.Value) (w : Sys.World T) :
  exists rows,
    Forall (fun row => Sys.ai_meeting_id row = meetingId /\ Sys.ai_status row = Sys.pending) rows /\
    (Sys.meetings (Sys.store w) !! meetingId = None -> rows = []) /\
    AiService.insert_each env "insights.actionItems" v (AiService.insertActionItem env meetingId) w
    = (match loop_error env "insights.actionItems" "description" v with
       | Some e => Sys.Throw e
       | None => Sys.Ok rows
       end, play (map insert_item rows) w).
Proof.
  unfold AiService.insert_each, loop_error, loop_input.
  destruct v as [x|]; [|by exists []].
  destruct (_ && _); [|by exists []].
  destruct (Sys.iterate x) as [items|]; [|by exists []].
  destruct (insert_all_items items [] w) as (rows & Hrows & Hnone & ->).
  exists rows. split; [done|]. split; [done|]. by destruct (existsb is_null items).
Qed.

Lemma insert_each_decisions (v : Sys.Value) (w : Sys.World T) :
  exists rows,
    Forall (fun row => Sys.d_meeting_id row = meetingId) rows /\
    (Sys.meetings (Sys.store w) !! meetingId = None -> rows = []) /\
    AiService.insert_each env "insights.decisions" v (AiService.insertDecision env meetingId) w
    = (match loop_error env "insights.decisions" "decision_text" v with
       | Some e => Sys.Throw e
       | None => Sys.Ok rows
       end, play (map insert_decision rows) w).
Proof.
  unfold AiService.insert_each, loop_error, loop_input.
  destruct v as [x|]; [|by exists []].
  destruct (_ && _); [|by exists []].
  destruct (Sys.iterate x) as [items|]; [|by exists []].
  destruct (insert_all_decisions items [] w) as (rows & Hrows & Hnone & ->).
  exists rows. split; [done|]. split; [done|]. by destruct (existsb is_null items).
Qed.

(** The summary never throws: a rejected request gives no summary. *)
Lemma generateMeetingSummary_run (transcript : string) (w : Sys.World T) :
  AiService.generateMeetingSummary env transcript w
  = (Sys.Ok match Sys.gemini_generate env (Sys.now w) (AiService.summaryPrompt transcript) with
            | Sys.Resolved text => Some text
            | Sys.Rejected _ => None
            end,
     Sys.step (Sys.Generate (AiService.summaryPrompt transcript)) w).
Proof.
  unfold AiService.generateMeetingSummary, AiService.generateContent. run_m.
  by destruct (Sys.gemini_generate _ _ _).
Qed.

(** What a run has written when it ends: rows of the meeting appended to the
    action items and to the decisions, and nothing else but, possibly, the
    summary. *)
Definition appended (items : list Sys.ActionItem) (decs : list Sys.Decision)
    (w w' : Sys.World T) : Prop :=
  Forall (fun row => Sys.ai_meeting_id row = meetingId /\ Sys.ai_status row = Sys.pending) items /\
  Forall (fun row => Sys.d_meeting_id row = meetingId) decs /\
  (Sys.meetings (Sys.store w) !! meetingId = None -> items = [] /\ decs = []) /\
  Sys.action_items (Sys.store w') = Sys.action_items (Sys.store w) ++ items /\
  Sys.decisions (Sys.store w') = Sys.decisions (Sys.store w) ++ decs /\
  Sys.topics (Sys.store w') = Sys.topics (Sys.store w) /\
  Sys.meeting_topics (Sys.store w') = Sys.meeting_topics (Sys.store w) /\
  Sys.meeting_embeddings (Sys.store w') = Sys.meeting_embeddings (Sys.store w) /\
  Sys.next_id (Sys.store w') = Sys.next_id (Sys.store w) + List.length items + List.length decs.

(** The part of [extractMeetingInsights] that follows [JSON.parse]. *)
Definition store_insights (transcript : string) (insights : Sys.Json)
  : Sys.M T AiService.MeetingInsightsResult :=
  Sys.bind (AiService.prop insights "actionItems")
    (fun actionItems =>
       Sys.bind
         (AiService.insert_each env "insights.actionItems" actionItems
            (AiService.insertActionItem env meetingId))
         (fun createdActionItems =>
            Sys.bind (AiService.prop insights "decisions")
              (fun decisions =>
                 Sys.bind
                   (AiService.insert_each env "insights.decisions" decisions
                      (AiService.insertDecision env meetingId))
                   (fun createdDecisions =>
                      Sys.bind (AiService.generateMeetingSummary env transcript)
                        (fun summary =>
                           Sys.bind
                             match Sys.truthy summary with
                             | Some s => Sys.exec (Sys.UpdateSummary meetingId s)
                             | None => Sys.ret tt
                             end
                             (fun _ =>
                                Sys.ret
                                  {| AiService.actionItems := createdActionItems;
                                     AiService.decisions := createdDecisions |})))))).

Lemma store_insights_run (transcript : string) (insights : Sys.Json) (w : Sys.World T) :
  exists items decs w',
    appended items decs w w' /\
    store_insights transcript insights w
    = (match shape_error env insights with
       | Some e => Sys.Throw e
       | None => Sys.Ok {| AiService.actionItems := items; AiService.decisions := decs |}
       end, w') /\
    match shape_error env insights with
    | Some e => Sys.meetings (Sys.store w') = Sys.meetings (Sys.store w)
    | None =>
        Sys.meetings (Sys.store w') = Sys.meetings (Sys.store w) \/
        exists summary, summary <> "" /\
          Sys.meetings (Sys.store w')
          = alter (Sys.set_summary summary) meetingId (Sys.meetings (Sys.store w))
    end.
Proof.
  unfold store_insights, shape_error, appended.
  destruct (is_null insights) eqn:Hnull.
  { destruct insights; try discriminate. exists [], [], w. simpl.
    rewrite !app_nil_r, !Nat.add_0_r. by repeat split. }
  assert (AiService.prop (T:=T) insights "actionItems"
          = Sys.ret (Sys.member "actionItems" insights)) as -> by (by destruct insights).
  assert (AiService.prop (T:=T) insights "decisions"
          = Sys.ret (Sys.member "decisions" insights)) as -> by (by destruct insights).
  unfold Sys.bind at 1. unfold Sys.ret at 1. unfold Sys.bind at 1.
  destruct (insert_each_items (Sys.member "actionItems" insights) w)
    as (items & Hitems & Hnone & ->).
  destruct (play_items items w) as (Ha1 & Hm1 & Hd1 & Ht1 & Hl1 & He1 & Hn1).
  destruct (loop_error env "insights.actionItems" "description" _) as [e|].
  { exists items, [], (play (map insert_item items) w). simpl in *.
    rewrite !app_nil_r, !Nat.add_0_r, Hd1. repeat split; try done. by apply Hnone. }
  unfold Sys.bind at 1. unfold Sys.ret at 1. unfold Sys.bind at 1.
  destruct (insert_each_decisions (Sys.member "decisions" insights) (play (map insert_item items) w))
    as (decs & Hdecs & Hnone' & ->).
  destruct (play_decisions decs (play (map insert_item items) w))
    as (Hd2 & Hm2 & Ha2 & Ht2 & Hl2 & He2 & Hn2).
  simpl in Hm1, Hnone'. rewrite Hm1 in Hnone'.
  set (w3 := play (map insert_decision decs) (play (map insert_item items) w)) in *.
  assert (Sys.meetings (Sys.store w) !! meetingId = None -> items = [] /\ decs = []) as Hno.
  { intros Hm. by rewrite (Hnone Hm), (Hnone' Hm). }
  destruct (loop_error env "insights.decisions" "decision_text" _) as [e|].
  { exists items, decs, w3. simpl in *.
    rewrite ?Ha2, ?Ha1, ?Hd2, ?Hd1, ?Ht2, ?Ht1, ?Hl2, ?Hl1, ?He2, ?He1, ?Hm2, ?Hm1, ?Hn2, ?Hn1.
    repeat split; try done; by first [apply Hnone | apply Hnone']. }
  cbv beta iota. unfold Sys.bind at 1. rewrite generateMeetingSummary_run.
  destruct (Sys.gemini_generate env (Sys.now w3) (AiService.summaryPrompt transcript))
    as [e|[|c summary]]; run_m;
    eexists items, decs, _; refine (conj _ (conj eq_refl _)); simpl;
    rewrite ?Ha2, ?Ha1, ?Hd2, ?Hd1, ?Ht2, ?Ht1, ?Hl2, ?Hl1, ?He2, ?He1, ?Hm2, ?Hm1, ?Hn2, ?Hn1;
    [ repeat split; try done; by first [apply Hnone | apply Hnone'] | by left
    | repeat split; try done; by first [apply Hnone | apply Hnone'] | by left
    | repeat split; try done; by first [apply Hnone | apply Hnone']
    | right; by exists (String c summary) ].
Qed.

(** A run of [extractMeetingInsights]. *)
Lemma extractMeetingInsights_run (transcript : string) (w : Sys.World T) :
  let w1 := Sys.step (Sys.Generate (AiService.insightsPrompt transcript)) w in
  AiService.extractMeetingInsights env meetingId transcript w
  = match Sys.truthy (Sys.VITE_GEMINI_API_KEY env) with
    | None => (Sys.Throw "VITE_GEMINI_API_KEY environment variable is not set", w)
    | Some _ =>
        match Sys.gemini_generate env (Sys.now w) (AiService.insightsPrompt transcript) with
        | Sys.Rejected e => (Sys.Throw e, w1)
        | Sys.Resolved responseText =>
            match Sys.json_parse env responseText with
            | None => (Sys.Throw "Failed to parse AI response as JSON", w1)
            | Some insights => store_insights transcript insights w1
            end
        end
    end.
Proof.
  intros w1. unfold AiService.extractMeetingInsights, AiService.getGeminiKey.
  destruct (Sys.truthy (Sys.VITE_GEMINI_API_KEY env)) as [key|]; [|done].
  unfold Sys.bind at 1. unfold Sys.ret at 1. unfold Sys.try_catch.
  unfold Sys.bind at 1. unfold AiService.generateContent at 1. run_m.
  destruct (Sys.gemini_generate env (Sys.now w) (AiService.insightsPrompt transcript))
    as [e|responseText]; [done|]. simpl.
  destruct (Sys.json_parse env responseText) as [insights|]; [|done].
  fold w1. change (match store_insights transcript insights w1 with
                   | (Sys.Ok a, w') => (Sys.Ok a, w')
                   | (Sys.Throw e, w') => (Sys.Throw e, w')
                   end = store_insights transcript insights w1).
  by destruct (store_insights transcript insights w1) as [[r|e] w'].
Qed.

(** X3.  What [extractMeetingInsights] returns is what it stored: on success
    the action items and the decisions of the result are the rows appended to
    the two tables, all of them rows of the meeting, the action items with
    the status ['pending']; the topics, the links and the embedding chunks are
    as before, and of the row of the meeting only the summary may have
    changed.  An exception leaves the meetings, the topics, the links and the
    embedding chunks as they were, and the two other tables with the rows of
    the meeting that were appended before it, if any. *)
Theorem extractMeetingInsights_stored (transcript : string) (w : Sys.World T) :
  match AiService.extractMeetingInsights env meetingId transcript w with
  | (Sys.Ok r, w') =>
      Sys.action_items (Sys.store w') = Sys.action_items (Sys.store w) ++ AiService.actionItems r /\
      Sys.decisions (Sys.store w') = Sys.decisions (Sys.store w) ++ AiService.decisions r /\
      Forall (fun row => Sys.ai_meeting_id row = meetingId /\ Sys.ai_status row = Sys.pending)
             (AiService.actionItems r) /\
      Forall (fun row => Sys.d_meeting_id row = meetingId) (AiService.decisions r) /\
      Sys.topics (Sys.store w') = Sys.topics (Sys.store w) /\
      Sys.meeting_topics (Sys.store w') = Sys.meeting_topics (Sys.store w) /\
      Sys.meeting_embeddings (Sys.store w') = Sys.meeting_embeddings (Sys.store w) /\
      (Sys.meetings (Sys.store w') = Sys.meetings (Sys.store w) \/
       exists summary, summary <> "" /\
         Sys.meetings (Sys.store w')
         = alter (Sys.set_summary summary) meetingId (Sys.meetings (Sys.store w)))
  | (Sys.Throw e, w') =>
      exists items decs,
        Sys.action_items (Sys.store w') = Sys.action_items (Sys.store w) ++ items /\
        Sys.decisions (Sys.store w') = Sys.decisions (Sys.store w) ++ decs /\
        Forall (fun row => Sys.ai_meeting_id row = meetingId /\ Sys.ai_status row = Sys.pending)
               items /\
        Forall (fun row => Sys.d_meeting_id row = meetingId) decs /\
        Sys.meetings (Sys.store w') = Sys.meetings (Sys.store w) /\
        Sys.topics (Sys.store w') = Sys.topics (Sys.store w) /\
        Sys.meeting_topics (Sys.store w') = Sys.meeting_topics (Sys.store w) /\
        Sys.meeting_embeddings (Sys.store w') = Sys.meeting_embeddings (Sys.store w)
  end.
Proof.
  rewrite extractMeetingInsights_run. cbv zeta.
  assert (forall w1 : Sys.World T, Sys.store w1 = Sys.store w ->
            exists items decs,
              Sys.action_items (Sys.store w1) = Sys.action_items (Sys.store w) ++ items /\
              Sys.decisions (Sys.store w1) = Sys.decisions (Sys.store w) ++ decs /\
              Forall (fun row => Sys.ai_meeting_id row = meetingId /\
                                 Sys.ai_status row = Sys.pending) items /\
              Forall (fun row => Sys.d_meeting_id row = meetingId) decs /\
              Sys.meetings (Sys.store w1) = Sys.meetings (Sys.store w) /\
              Sys.topics (Sys.store w1) = Sys.topics (Sys.store w) /\
              Sys.meeting_topics (Sys.store w1) = Sys.meeting_topics (Sys.store w) /\
              Sys.meeting_embeddings (Sys.store w1) = Sys.meeting_embeddings (Sys.store w))
    as Hsame.
  { intros w1 ->. exists [], []. rewrite !app_nil_r. by repeat split. }
  destruct (Sys.truthy (Sys.VITE_GEMINI_API_KEY env)) as [key|]; [|by apply Hsame].
  destruct (Sys.gemini_generate env (Sys.now w) (AiService.insightsPrompt transcript))
    as [e|responseText]; [by apply Hsame|].
  destruct (Sys.json_parse env responseText) as [insights|]; [|by apply Hsame].
  destruct (store_insights_run transcript insights
              (Sys.step (Sys.Generate (AiService.insightsPrompt transcript)) w))
    as (items & decs & w' & Happ & Hrun).
  destruct Happ as (Hi & Hd & _ & Ha & Hdc & Ht & Hl & He & _). simpl in *.
  destruct Hrun as [-> Hm]. destruct (shape_error env insights) as [e|]; simpl.
  - exists items, decs. by repeat split.
  - by repeat split.
Qed.

(** X4.  When [extractMeetingInsights] throws.  It returns exactly when the
    key is configured, the request is answered, the answer is JSON, and the
    value read from it is not [null], with [actionItems] and [decisions] that
    are each skipped by the loop or iterable without an element [null];
    otherwise it throws, with the message of the first of these that fails.
    For a meeting that is not in the table a call that returns has stored
    nothing and returns no row. *)
Theorem extractMeetingInsights_throws (transcript : string) (w : Sys.World T) :
  match AiService.extractMeetingInsights env meetingId transcript w with
  | (Sys.Ok r, w') =>
      (exists responseText insights,
         Sys.truthy (Sys.VITE_GEMINI_API_KEY env) <> None /\
         Sys.gemini_generate env (Sys.now w) (AiService.insightsPrompt transcript)
         = Sys.Resolved responseText /\
         Sys.json_parse env responseText = Some insights /\
         shape_error env insights = None) /\
      (Sys.meetings (Sys.store w) !! meetingId = None ->
         AiService.actionItems r = [] /\ AiService.decisions r = [] /\
         Sys.store w' = Sys.store w)
  | (Sys.Throw e, w') =>
      (Sys.truthy (Sys.VITE_GEMINI_API_KEY env) = None /\
       e = "VITE_GEMINI_API_KEY environment variable is not set") \/
      Sys.gemini_generate env (Sys.now w) (AiService.insightsPrompt transcript) = Sys.Rejected e \/
      exists responseText,
        Sys.gemini_generate env (Sys.now w) (AiService.insightsPrompt transcript)
        = Sys.Resolved responseText /\
        match Sys.json_parse env responseText with
        | None => e = "Failed to parse AI response as JSON"
        | Some insights => shape_error env insights = Some e
        end
  end.
Proof.
  rewrite extractMeetingInsights_run. cbv zeta.
  destruct (Sys.truthy (Sys.VITE_GEMINI_API_KEY env)) as [key|] eqn:Hkey; [|by left].
  destruct (Sys.gemini_generate env (Sys.now w) (AiService.insightsPrompt transcript))
    as [e|responseText]; [right; by left|].
  destruct (Sys.json_parse env responseText) as [insights|] eqn:Hparse;
    [|right; right; exists responseText; by rewrite Hparse].
  destruct (store_insights_run transcript insights
              (Sys.step (Sys.Generate (AiService.insightsPrompt transcript)) w))
    as (items & decs & w' & Happ & Hrun).
  destruct Hrun as [-> Hm]. destruct (shape_error env insights) as [e|] eqn:Hshape.
  - right. right. exists responseText. by rewrite Hparse.
  - split; [by exists responseText, insights|]. simpl. intros Hmt.
    destruct Happ as (_ & _ & Hno & Ha & Hd & Ht & Hl & He & Hn). simpl in *.
    destruct (Hno Hmt) as [-> ->]. split; [done|]. split; [done|].
    rewrite !app_nil_r in *. simpl in Hn. rewrite !Nat.add_0_r in Hn.
    assert (Sys.meetings (Sys.store w') = Sys.meetings (Sys.store w)) as Hm'.
    { destruct Hm as [|(summary & _ & ->)]; [done|].
      apply map_eq. intros id. destruct (decide (meetingId = id)) as [<-|Hne].
      - by rewrite lookup_alter_eq, Hmt.
      - by rewrite lookup_alter_ne. }
    destruct (Sys.store w'), (Sys.store w). simpl in *. congruence.
Qed.

End Insights.

(** An answer whose second action item is [null]: the first one is stored,
    then the loop throws. *)
Example extractMeetingInsights_partial :
  let env :=
    {| Sys.VITE_ASSEMBLYAI_API_KEY := Some "assemblyai-key";
       Sys.VITE_GEMINI_API_KEY := Some "gemini-key";
       Sys.assemblyai_submit := fun _ _ => Sys.Rejected "offline";
       Sys.assemblyai_poll := fun _ _ => Sys.Rejected "offline";
       Sys.gemini_generate := fun _ _ => Sys.Resolved "{...}";
       Sys.gemini_embed := fun _ _ => Sys.Resolved [1%float];
       Sys.json_parse := fun _ =>
         Some (Sys.JObject
                 [ ("actionItems",
                    Sys.JArray [ Sys.JObject [("description", Sys.JString "a")]; Sys.JNull ]) ]);
       Sys.to_number := fun _ => 0%float;
       Sys.pg_text := example_text;
       Sys.pg_date := example_text;
       Sys.pg_text_array := fun _ => None |} in
  let '(r, w') := AiService.extractMeetingInsights env "m1" "we agreed on the budget"
                    (example_world Sys.ready None) in
  r = Sys.Throw "Cannot read properties of null (reading 'description')" /\
  map Sys.ai_description (Sys.action_items (Sys.store w')) = ["book a room"; "a"] /\
  map Sys.ai_priority (Sys.action_items (Sys.store w')) = ["low"; "medium"].
Proof. vm_compute. repeat split. Qed.

(** ** The events of a run *)

(** Everything a run of the pipeline for one meeting may do: requests to the
    providers, pauses of five seconds between two polls, and statements on
    the row and on the derived rows of that meeting and on the topics. *)
Definition run_event {T} (meetingId : string) (ev : Sys.Event T) : Prop :=
  match ev with
  | Sys.Submit _ | Sys.Poll _ | Sys.Generate _ | Sys.Embed _ => True
  | Sys.Sleep ms => ms = 5000%Z
  | Sys.Db stmt =>
      match stmt with
      | Sys.UpdateStatus id _ | Sys.UpdateTranscript id _ | Sys.UpdateSummary id _
      | Sys.InsertMeetingTopic id _
      | Sys.DeleteActionItems id | Sys.DeleteDecisions id
      | Sys.DeleteMeetingTopics id | Sys.DeleteEmbeddings id => id = meetingId
      | Sys.InsertActionItem row => Sys.ai_meeting_id row = meetingId
      | Sys.InsertDecision row => Sys.d_meeting_id row = meetingId
      | Sys.InsertEmbedding row => Sys.e_meeting_id row = meetingId
      | Sys.InsertTopic _ _ | Sys.UpdateTopic _ _ _ => True
      end
  end.

Section RunEvents.
Context {T : Type}.
Variable env : Sys.Env T.
Variable meetingId : string.

Ltac run_tac := respects_tac; try (apply steps_one; simpl; done).

Lemma transcribeMeeting_events audioUrl :
  respects (steps (run_event meetingId)) (AiService.transcribeMeeting env meetingId audioUrl).
Proof.
  intros w. pose proof (transcribeMeeting_run env meetingId audioUrl w) as Hrun.
  destruct (Sys.truthy (Sys.VITE_ASSEMBLYAI_API_KEY env)) as [key|].
  - destruct Hrun as (evs & r & stmt & -> & Hevs & _ & _ & Hr). cbn [snd].
    apply steps_play. eexists. split; [|reflexivity].
    constructor; [done|]. apply Forall_app. split.
    + eapply Forall_impl; [exact Hevs|]. by intros ev [[id ->]| ->].
    + constructor; [|constructor]. by destruct r; subst stmt.
  - rewrite Hrun. constructor.
Qed.

Lemma extractMeetingInsights_events transcript :
  respects (steps (run_event meetingId))
    (AiService.extractMeetingInsights env meetingId transcript).
Proof.
  eapply respects_mono; [|apply extractMeetingInsights_kind].
  intros [[]| | | | |]; done.
Qed.

Lemma updateTopicsAndEmbeddings_events transcript :
  respects (steps (run_event meetingId))
    (AiService.updateTopicsAndEmbeddings env meetingId transcript).
Proof.
  unfold AiService.updateTopicsAndEmbeddings, AiService.getGeminiKey,
    AiService.generateAndStoreEmbeddings.
  run_tac.
  - eapply respects_mono; [|apply extractTopics_kind]. intros [[]| | | | |]; done.
  - eapply respects_mono; [|apply upsertTopicAndLink_kind]. intros [[]| | | | |]; done.
  - eapply respects_mono; [|apply (embed_chunks_kind env meetingId)]. intros [[]| | | | |]; done.
Qed.

Lemma processMeeting_events audioUrl :
  respects (steps (run_event meetingId)) (AiService.processMeeting env meetingId audioUrl).
Proof.
  unfold AiService.processMeeting.
  run_tac; [apply transcribeMeeting_events | apply extractMeetingInsights_events
           | apply updateTopicsAndEmbeddings_events].
Qed.

Lemma handleNewMeeting_events audioUrl :
  respects (steps (run_event meetingId)) (Orchestrator.handleNewMeeting env meetingId audioUrl).
Proof.
  unfold Orchestrator.handleNewMeeting, Orchestrator.updateMeetingStatus.
  run_tac. apply processMeeting_events.
Qed.

Lemma handleUpdatedMeeting_events newAudioUrl :
  respects (steps (run_event meetingId))
    (Orchestrator.handleUpdatedMeeting env meetingId newAudioUrl).
Proof.
  unfold Orchestrator.handleUpdatedMeeting, Orchestrator.getMeeting,
    Orchestrator.updateMeetingStatus, Orchestrator.deleteExistingActionItems,
    Orchestrator.deleteExistingDecisions, Orchestrator.deleteExistingMeetingTopics,
    Orchestrator.deleteExistingEmbeddings.
  run_tac; first [apply transcribeMeeting_events | apply extractMeetingInsights_events
                 | apply updateTopicsAndEmbeddings_events].
Qed.

(** Both handlers catch every exception and answer for the meeting they were
    given. *)
Lemma handleNewMeeting_returns audioUrl (w : Sys.World T) :
  exists result evs,
    Orchestrator.handleNewMeeting env meetingId audioUrl w = (Sys.Ok result, play evs w) /\
    Orchestrator.meetingId result = meetingId /\ Forall (run_event meetingId) evs.
Proof.
  pose proof (handleNewMeeting_events audioUrl w) as Hev.
  apply steps_play in Hev as (evs & Hevs & Hw).
  assert (exists result w', Orchestrator.handleNewMeeting env meetingId audioUrl w
                            = (Sys.Ok result, w') /\ Orchestrator.meetingId result = meetingId)
    as (result & w' & Hrun & Hid).
  { unfold Orchestrator.handleNewMeeting, Sys.try_catch.
    match goal with |- context [let (_, _) := ?m w in _] => destruct (m w) as [[r|e] w1] eqn:E end.
    - unfold Sys.bind in E. simpl in E.
      destruct (AiService.processMeeting env meetingId audioUrl _) as [[p|e] w2]; [|done].
      injection E as <- <-. by eexists _, _.
    - by eexists _, _. }
  rewrite Hrun in Hw. simpl in Hw. subst w'. by exists result, evs.
Qed.

Lemma handleUpdatedMeeting_returns newAudioUrl (w : Sys.World T) :
  exists result evs,
    Orchestrator.handleUpdatedMeeting env meetingId newAudioUrl w = (Sys.Ok result, play evs w) /\
    Orchestrator.meetingId result = meetingId /\ Forall (run_event meetingId) evs.
Proof.
  pose proof (handleUpdatedMeeting_events newAudioUrl w) as Hev.
  apply steps_play in Hev as (evs & Hevs & Hw).
  assert (exists result w', Orchestrator.handleUpdatedMeeting env meetingId newAudioUrl w
                            = (Sys.Ok result, w') /\ Orchestrator.meetingId result = meetingId)
    as (result & w' & Hrun & Hid).
  { destruct (Sys.meetings (Sys.store w) !! meetingId) as [mt|] eqn:Hmt.
    - rewrite (handleUpdatedMeeting_unfold env meetingId newAudioUrl w mt Hmt).
      unfold Sys.try_catch.
      destruct (reprocess_rest env meetingId newAudioUrl mt (cleanup meetingId w))
        as [[r|e] w1] eqn:E.
      + unfold reprocess_rest, Sys.bind in E.
        repeat match type of E with
               | (let (_, _) := ?m ?w in _) = _ => destruct (m w) as [[?|?] ?]; try done
               end.
        simpl in E. injection E as <- <-. by eexists _, _.
      + by eexists _, _.
    - unfold Orchestrator.handleUpdatedMeeting, Orchestrator.getMeeting. run_m. rewrite Hmt.
      simpl. by eexists _, _. }
  rewrite Hrun in Hw. simpl in Hw. subst w'. by exists result, evs.
Qed.

End RunEvents.

(** ** What a run leaves alone *)

(** The row of a meeting and the rows derived from it are the same in both
    worlds. *)
Definition untouched {T} (id : string) : relation (Sys.World T) :=
  fun w w' =>
    Sys.meetings (Sys.store w') !! id = Sys.meetings (Sys.store w) !! id /\
    filter (fun row => Sys.ai_meeting_id row = id) (Sys.action_items (Sys.store w'))
    = filter (fun row => Sys.ai_meeting_id row = id) (Sys.action_items (Sys.store w)) /\
    filter (fun row => Sys.d_meeting_id row = id) (Sys.decisions (Sys.store w'))
    = filter (fun row => Sys.d_meeting_id row = id) (Sys.decisions (Sys.store w)) /\
    (forall topicId, (id, topicId) ∈ Sys.meeting_topics (Sys.store w') <->
                     (id, topicId) ∈ Sys.meeting_topics (Sys.store w)) /\
    filter (fun row => Sys.e_meeting_id row = id) (Sys.meeting_embeddings (Sys.store w'))
    = filter (fun row => Sys.e_meeting_id row = id) (Sys.meeting_embeddings (Sys.store w)).

#[global] Instance untouched_preorder {T} id : PreOrder (@untouched T id).
Proof.
  split; [by intros w|].
  intros x y z (H1 & H2 & H3 & H4 & H5) (H1' & H2' & H3' & H4' & H5').
  unfold untouched. rewrite H1', H1, H2', H2, H3', H3, H5', H5.
  repeat split; try done; intros ?; [by apply H4, H4' | by apply H4', H4].
Qed.

Lemma filter_snoc_other {A} (key : A -> string) (id : string) (l : list A) (row : A) :
  key row <> id ->
  filter (fun r => key r = id) (l ++ [row]) = filter (fun r => key r = id) l.
Proof.
  intros Hne. rewrite filter_app, filter_cons_False, filter_nil by done. apply app_nil_r.
Qed.

Lemma filter_filter_other {A} (key : A -> string) (id other : string) (l : list A) :
  other <> id ->
  filter (fun r => key r = id) (filter (fun r => key r <> other) l)
  = filter (fun r => key r = id) l.
Proof.
  intros Hne. induction l as [|x l IH]; [done|].
  destruct (decide (key x = other)) as [Ho|Ho].
  - rewrite (filter_cons_False (fun r => key r <> other)) by (intros H; by apply H).
    rewrite (filter_cons_False (fun r => key r = id)) by congruence. exact IH.
  - rewrite (filter_cons_True (fun r => key r <> other)) by done.
    destruct (decide (key x = id)) as [Hi|Hi].
    + rewrite !(filter_cons_True (fun r => key r = id)) by done. by rewrite IH.
    + rewrite !(filter_cons_False (fun r => key r = id)) by done. exact IH.
Qed.

(** An event of the run of one meeting leaves every other meeting alone. *)
Lemma run_event_untouched {T} (meetingId id : string) (ev : Sys.Event T) (w : Sys.World T) :
  id <> meetingId -> run_event meetingId ev -> untouched id w (Sys.step ev w).
Proof.
  intros Hne Hev. destruct ev as [stmt| | | | |]; try done.
  destruct stmt; simpl in Hev; unfold untouched; simpl; subst;
    rewrite ?lookup_alter_ne by done;
    rewrite ?filter_snoc_other by congruence;
    rewrite ?filter_filter_other by done;
    repeat split; try done; set_solver.
Qed.

Lemma run_events_untouched {T} (meetingId id : string) (w w' : Sys.World T) :
  id <> meetingId -> steps (run_event meetingId) w w' -> untouched id w w'.
Proof.
  intros Hne. apply steps_ind_rel; [exact _|].
  intros ev w0. by apply run_event_untouched.
Qed.

Section Isolation.
Context {T : Type}.
Variable env : Sys.Env T.

(** X5.  A run works on one meeting.  Whatever its outcome, [handleNewMeeting]
    and [handleUpdatedMeeting] for a meeting leave the row of every other
    meeting, and its action items, decisions, topic links and embedding
    chunks, exactly as they were. *)
Theorem run_leaves_other_meetings (meetingId audioUrl : string) (newAudioUrl : option string)
    (w : Sys.World T) (id : string) :
  id = meetingId \/
  (untouched id w (Orchestrator.handleNewMeeting env meetingId audioUrl w).2 /\
   untouched id w (Orchestrator.handleUpdatedMeeting env meetingId newAudioUrl w).2).
Proof.
  destruct (decide (id = meetingId)) as [->|Hne]; [by left|right].
  split; apply (run_events_untouched meetingId); try done.
  - apply handleNewMeeting_events.
  - apply handleUpdatedMeeting_events.
Qed.

End Isolation.

(** ** Batches *)

Definition is_pause {T} (ms : Z) (ev : Sys.Event T) : bool :=
  match ev with Sys.Sleep ms' => (ms' =? ms)%Z | _ => false end.

Section Batches.
Context {T : Type}.
Variable env : Sys.Env T.

Lemma no_pause_run_events (ms : Z) (meetingId : string) (evs : list (Sys.Event T)) :
  ms <> 5000%Z -> Forall (run_event meetingId) evs -> List.filter (is_pause ms) evs = [].
Proof.
  intros Hms Hevs. induction Hevs as [|ev evs Hev _ IH]; [done|]. simpl. rewrite IH.
  destruct ev as [| | | | |ms']; try done. simpl in *. subst ms'.
  by destruct (Z.eqb_spec 5000 ms).
Qed.

(** The events of a batch: the runs of its meetings, and the pauses. *)
Definition batch_event (ids : list string) (ms : Z) (ev : Sys.Event T) : Prop :=
  (exists id, id ∈ ids /\ run_event id ev) \/ ev = Sys.Sleep ms.

Lemma batch_event_mono ids ids' ms ev :
  (forall id, id ∈ ids -> id ∈ ids') -> batch_event ids ms ev -> batch_event ids' ms ev.
Proof. intros Hsub [(id & Hid & Hev)| ->]; [left; eauto | by right]. Qed.

Lemma batch_loop_run (meetings : list (string * string)) : forall results (w : Sys.World T),
  exists rs evs,
    Orchestrator.batch_loop env meetings results w = (Sys.Ok (results ++ rs), play evs w) /\
    map Orchestrator.meetingId rs = map fst meetings /\
    List.length (List.filter (is_pause Orchestrator.batch_delay) evs) = List.length meetings - 1 /\
    Forall (batch_event (map fst meetings) Orchestrator.batch_delay) evs.
Proof.
  induction meetings as [|[id url] rest IH]; intros results w.
  - exists [], []. simpl. by rewrite app_nil_r.
  - simpl. unfold Sys.bind at 1.
    destruct (handleNewMeeting_returns env id url w) as (result & evs1 & -> & Hid & Hevs1).
    assert (List.filter (is_pause Orchestrator.batch_delay) evs1 = []) as Hp1
      by (by eapply no_pause_run_events).
    assert (Forall (batch_event (id :: map fst rest) Orchestrator.batch_delay) evs1) as Hb1.
    { eapply Forall_impl; [exact Hevs1|]. intros ev Hev. left. exists id. split; [left|done]. }
    destruct rest as [|next rest].
    + exists [result], evs1. simpl. rewrite Hid, Hp1. run_m. done.
    + unfold Sys.bind at 1. unfold Sys.emit at 1.
      destruct (IH (results ++ [result])
                  (Sys.step (Sys.Sleep Orchestrator.batch_delay) (play evs1 w)))
        as (rs & evs2 & Hrun & Hids & Hp2 & Hb2).
      rewrite Hrun. exists (result :: rs), (evs1 ++ Sys.Sleep Orchestrator.batch_delay :: evs2).
      rewrite <- app_assoc, play_app. split; [done|].
      split; [simpl; by rewrite Hid, Hids|]. split.
      * rewrite List.filter_app, Hp1. simpl in *. rewrite Hp2. lia.
      * apply Forall_app. split; [exact Hb1|].
        constructor; [by right|].
        eapply Forall_impl; [exact Hb2|]. intros ev. apply batch_event_mono.
        intros i Hi. by right.
Qed.

Lemma retry_loop_run (failedMeetings : list (string * option string)) :
  forall results (w : Sys.World T),
  exists rs evs,
    Orchestrator.retry_loop env failedMeetings results w = (Sys.Ok (results ++ rs), play evs w) /\
    map Orchestrator.meetingId rs = map fst failedMeetings /\
    List.length (List.filter (is_pause Orchestrator.retry_delay) evs)
    = List.length failedMeetings /\
    Forall (batch_event (map fst failedMeetings) Orchestrator.retry_delay) evs.
Proof.
  induction failedMeetings as [|[id url] rest IH]; intros results w.
  - exists [], []. simpl. by rewrite app_nil_r.
  - simpl. unfold Sys.bind at 1.
    assert (exists result evs1,
              match Sys.truthy url with
              | Some audioUrl => Orchestrator.handleNewMeeting env id audioUrl
              | None => Orchestrator.handleUpdatedMeeting env id None
              end w = (Sys.Ok result, play evs1 w) /\
              Orchestrator.meetingId result = id /\ Forall (run_event id) evs1)
      as (result & evs1 & -> & Hid & Hevs1).
    { destruct (Sys.truthy url);
        [apply handleNewMeeting_returns | apply handleUpdatedMeeting_returns]. }
    assert (List.filter (is_pause Orchestrator.retry_delay) evs1 = []) as Hp1
      by (by eapply no_pause_run_events).
    unfold Sys.bind at 1. unfold Sys.emit at 1.
    destruct (IH (results ++ [result])
                (Sys.step (Sys.Sleep Orchestrator.retry_delay) (play evs1 w)))
      as (rs & evs2 & Hrun & Hids & Hp2 & Hb2).
    rewrite Hrun. exists (result :: rs), (evs1 ++ Sys.Sleep Orchestrator.retry_delay :: evs2).
    rewrite <- app_assoc, play_app. split; [done|].
    split; [simpl; by rewrite Hid, Hids|]. split.
    + rewrite List.filter_app, Hp1. simpl in *. by rewrite Hp2.
    + apply Forall_app. split.
      * eapply Forall_impl; [exact Hevs1|]. intros ev Hev. left. exists id. split; [left|done].
      * constructor; [by right|].
        eapply Forall_impl; [exact Hb2|]. intros ev. apply batch_event_mono.
        intros i Hi. by right.
Qed.

Lemma batch_events_untouched (ids : list string) (ms : Z) (id : string)
    (evs : list (Sys.Event T)) (w : Sys.World T) :
  id ∉ ids -> Forall (batch_event ids ms) evs -> untouched id w (play evs w).
Proof.
  intros Hid Hevs. revert w. induction Hevs as [|ev evs Hev _ IH]; intros w; [done|].
  rewrite play_cons. etrans; [|apply IH].
  destruct Hev as [(i & Hi & Hev)| ->]; [|done].
  apply (run_event_untouched i); [|done]. intros ->. by apply Hid.
Qed.

(** X6.  [batchProcessMeetings] never throws and answers for every meeting
    of the batch, in the order of the batch, a failed run included.  Between
    two meetings, and not after the last one, it pauses for one second.  The
    meetings that are not in the batch are left as they were. *)
Theorem batchProcessMeetings_results (meetings : list (string * string)) (w : Sys.World T) :
  exists results w',
    Orchestrator.batchProcessMeetings env meetings w = (Sys.Ok results, w') /\
    map Orchestrator.meetingId results = map fst meetings /\
    List.length (List.filter (is_pause 1000) (new_events w w')) = List.length meetings - 1 /\
    forall id, id ∈ map fst meetings \/ untouched id w w'.
Proof.
  destruct (batch_loop_run meetings [] w) as (rs & evs & Hrun & Hids & Hp & Hevs).
  exists rs, (play evs w). unfold Orchestrator.batchProcessMeetings. rewrite Hrun.
  rewrite new_events_play. repeat split; try done.
  intros id. destruct (decide (id ∈ map fst meetings)) as [Hin|Hout]; [by left|right].
  by eapply batch_events_untouched.
Qed.

(** X7.  [reprocessFailedMeetings] never throws and returns one result for
    each meeting whose status is ['failed'] when it starts, and for no other
    meeting; it pauses for two seconds after every one of them, the last one
    included; the meetings that were not ['failed'] are left as they were. *)
Theorem reprocessFailedMeetings_results (w : Sys.World T) :
  exists results w',
    Orchestrator.reprocessFailedMeetings env w = (Sys.Ok results, w') /\
    NoDup (map Orchestrator.meetingId results) /\
    (forall id, id ∈ map Orchestrator.meetingId results <-> status_of id w = Some Sys.failed) /\
    List.length (List.filter (is_pause 2000) (new_events w w')) = List.length results /\
    forall id, status_of id w = Some Sys.failed \/ untouched id w w'.
Proof.
  unfold Orchestrator.reprocessFailedMeetings, Orchestrator.fetchFailedMeetings. run_m.
  set (failed := map_to_list (filter (fun kv => Sys.m_status kv.2 = Sys.failed)
                                      (Sys.meetings (Sys.store w)))).
  set (l := map (fun kv => (kv.1, Sys.m_video_url kv.2)) failed).
  assert (map fst l = map fst failed) as Hfst.
  { unfold l. rewrite map_map. by apply map_ext. }
  assert (forall id, id ∈ map fst l <-> status_of id w = Some Sys.failed) as Hin.
  { intros id. rewrite Hfst. unfold failed, status_of. rewrite list_elem_of_fmap. split.
    - intros ([i mt] & -> & Hmt). apply elem_of_map_to_list, map_lookup_filter_Some in Hmt.
      destruct Hmt as [Hmt Hst]. simpl in *. rewrite Hmt. simpl. by rewrite Hst.
    - intros Hst. destruct (Sys.meetings (Sys.store w) !! id) as [mt|] eqn:Hmt; [|done].
      exists (id, mt). split; [done|]. apply elem_of_map_to_list, map_lookup_filter_Some.
      split; [done|]. simpl in *. congruence. }
  destruct (retry_loop_run l [] w) as (rs & evs & Hrun & Hids & Hp & Hevs).
  exists rs, (play evs w). rewrite Hrun, new_events_play, Hids.
  split; [done|]. split.
  { rewrite Hfst. apply NoDup_fst_map_to_list. }
  split; [exact Hin|]. split.
  { rewrite <- (length_map Orchestrator.meetingId), Hids, length_map. exact Hp. }
  intros id. destruct (decide (id ∈ map fst l)) as [Hi|Hout]; [left; by apply Hin|right].
  by eapply batch_events_untouched.
Qed.

End Batches.

(** ** Topics, links and embedding chunks *)

Section UpsertFacts.
Context {T : Type}.
Variable env : Sys.Env T.

(** The topic [upsertTopicAndLink] works on: the one of that name, or a new
    one. *)
Definition upsert_id (name : string) (s : Sys.Store T) : nat :=
  match AiService.single_topic name s with
  | Some (id, _) => id
  | None => fresh (dom (Sys.topics s))
  end.

Lemma upsertTopicAndLink_run (meetingId topicName : string) (w : Sys.World T) :
  let name := Text.trim (Text.toLowerCase topicName) in
  exists w',
    AiService.upsertTopicAndLink meetingId topicName w = (Sys.Ok tt, w') /\
    Sys.topics (Sys.store w') =
      match AiService.single_topic name (Sys.store w) with
      | Some _ => Sys.topics (Sys.store w)
      | None =>
          <[ fresh (dom (Sys.topics (Sys.store w))) :=
               {| Sys.t_name := name; Sys.t_meeting_count := Some 1%Z;
                  Sys.t_last_discussed := Some (Sys.now w) |} ]> (Sys.topics (Sys.store w))
      end /\
    Sys.meeting_topics (Sys.store w') =
      match Sys.meetings (Sys.store w) !! meetingId with
      | Some _ => {[ (meetingId, upsert_id name (Sys.store w)) ]} ∪ Sys.meeting_topics (Sys.store w)
      | None => Sys.meeting_topics (Sys.store w)
      end /\
    Sys.meetings (Sys.store w') = Sys.meetings (Sys.store w) /\
    Sys.action_items (Sys.store w') = Sys.action_items (Sys.store w) /\
    Sys.decisions (Sys.store w') = Sys.decisions (Sys.store w) /\
    Sys.meeting_embeddings (Sys.store w') = Sys.meeting_embeddings (Sys.store w) /\
    Sys.next_id (Sys.store w') = Sys.next_id (Sys.store w).
Proof.
  intros name. unfold AiService.upsertTopicAndLink, upsert_id. fold name. run_m.
  destruct (AiService.single_topic name (Sys.store w)) as [[id t]|]; run_m;
    case_decide as Hin; simpl in Hin; run_m;
    destruct (Sys.meetings (Sys.store w) !! meetingId) as [mt|]; run_m;
    eexists; (split; [reflexivity|]); simpl; repeat split; try done; set_solver.
Qed.

(** The names stay distinct. *)
Lemma upsertTopicAndLink_unique (meetingId topicName : string) (w : Sys.World T) :
  unique_names (Sys.store w) ->
  unique_names (Sys.store (AiService.upsertTopicAndLink meetingId topicName w).2).
Proof.
  intros Huniq. set (name := Text.trim (Text.toLowerCase topicName)).
  intros i j ti tj. rewrite upsertTopicAndLink_topics. fold name.
  destruct (AiService.single_topic name (Sys.store w)) as [[id t]|] eqn:E; [apply Huniq|].
  assert (forall k tk, Sys.topics (Sys.store w) !! k = Some tk -> Sys.t_name tk <> name)
    as Hnone.
  { intros k tk Hk Hn. by rewrite (single_topic_Some name _ k tk) in E. }
  rewrite !lookup_insert_Some. intros [[<- <-]|[Hni Hi]] [[<- <-]|[Hnj Hj]] Hn; try done.
  - simpl in Hn. symmetry in Hn. by apply Hnone in Hj.
  - simpl in Hn. by apply Hnone in Hi.
  - by eapply Huniq.
Qed.

(** X8.  [upsertTopicAndLink] never throws.  When it returns there is a topic
    with the name lower-cased and trimmed: the topic it found, which is left
    as it was (schema.sql gives [topics] no UPDATE policy, so that the update
    of the counter and of the time reaches no row), or else a new topic with
    counter 1, the only change to the table.  With the meeting in the table
    that topic is linked to the meeting (a link that is there already is
    left) and no other link is added; for a meeting that is not in the table
    the link is refused, but a topic that was missing has been created all
    the same. *)
Theorem upsertTopicAndLink_links (meetingId topicName : string) (w : Sys.World T) :
  let name := Text.trim (Text.toLowerCase topicName) in
  exists id t w',
    AiService.upsertTopicAndLink meetingId topicName w = (Sys.Ok tt, w') /\
    Sys.topics (Sys.store w') !! id = Some t /\ Sys.t_name t = name /\
    match Sys.topics (Sys.store w) !! id with
    | Some t0 => t = t0 /\ Sys.topics (Sys.store w') = Sys.topics (Sys.store w)
    | None =>
        t = {| Sys.t_name := name; Sys.t_meeting_count := Some 1%Z;
               Sys.t_last_discussed := Some (Sys.now w) |} /\
        Sys.topics (Sys.store w') = <[ id := t ]> (Sys.topics (Sys.store w))
    end /\
    Sys.meeting_topics (Sys.store w') =
      match Sys.meetings (Sys.store w) !! meetingId with
      | Some _ => {[ (meetingId, id) ]} ∪ Sys.meeting_topics (Sys.store w)
      | None => Sys.meeting_topics (Sys.store w)
      end.
Proof.
  intros name.
  destruct (upsertTopicAndLink_run meetingId topicName w) as (w' & Hrun & Ht & Hl & _).
  fold name in Ht, Hl. exists (upsert_id name (Sys.store w)).
  unfold upsert_id in *.
  destruct (AiService.single_topic name (Sys.store w)) as [[id t]|] eqn:E.
  - apply single_topic_inv in E as [Hid Hn].
    exists t, w'. rewrite Ht, Hid. repeat split; done.
  - eexists _, w'. rewrite Ht, lookup_insert_eq. split; [done|]. split; [done|].
    split; [done|]. split; [|done].
    destruct (Sys.topics (Sys.store w) !! fresh _) as [t0|] eqn:Ht0; [|done].
    exfalso. apply (is_fresh (dom (Sys.topics (Sys.store w)))).
    apply elem_of_dom. by eexists.
Qed.

(** X9.  Calling again changes nothing.  In a table without two topics of the
    same name, a second [upsertTopicAndLink] for the same meeting, under a
    name with the same normal form, leaves every table as the first call left
    it: it adds no topic and no link, and the counter of the topic is what it
    was. *)
Theorem upsertTopicAndLink_again (meetingId name1 name2 : string) (w : Sys.World T) :
  unique_names (Sys.store w) ->
  Text.trim (Text.toLowerCase name1) = Text.trim (Text.toLowerCase name2) ->
  let w1 := (AiService.upsertTopicAndLink meetingId name1 w).2 in
  let w2 := (AiService.upsertTopicAndLink meetingId name2 w1).2 in
  Sys.store w2 = Sys.store w1.
Proof.
  intros Huniq Hname w1 w2.
  destruct (upsertTopicAndLink_run meetingId name1 w) as (w1' & Hrun1 & Ht1 & Hl1 & Hm1 & _).
  assert (w1' = w1) as -> by (unfold w1; by rewrite Hrun1).
  assert (unique_names (Sys.store w1)) as Huniq1 by by apply upsertTopicAndLink_unique.
  destruct (upsertTopicAndLink_run meetingId name2 w1)
    as (w2' & Hrun2 & Ht2 & Hl2 & Hm2 & Ha2 & Hd2 & He2 & Hn2).
  assert (w2' = w2) as -> by (unfold w2; by rewrite Hrun2).
  set (name := Text.trim (Text.toLowerCase name1)) in *.
  assert (exists t1, Sys.topics (Sys.store w1) !! upsert_id name (Sys.store w) = Some t1 /\
                     Sys.t_name t1 = name) as (t1 & Hid & Hn).
  { rewrite Ht1. unfold upsert_id.
    destruct (AiService.single_topic name (Sys.store w)) as [[id t]|] eqn:E.
    - apply single_topic_inv in E as [Hid Hn]. by eexists.
    - rewrite lookup_insert_eq. by eexists. }
  rewrite <- Hname in Ht2, Hl2. unfold upsert_id in Hl2 at 1.
  rewrite (single_topic_Some _ _ _ t1 Huniq1 Hid Hn) in Ht2, Hl2.
  assert (Sys.meeting_topics (Sys.store w2) = Sys.meeting_topics (Sys.store w1)) as Hl.
  { rewrite Hl2, Hm1, Hl1. destruct (Sys.meetings (Sys.store w) !! meetingId); set_solver. }
  destruct (Sys.store w2), (Sys.store w1). simpl in *. congruence.
Qed.

End UpsertFacts.

Lemma upsertTopicAndLink_again_witness :
  let w1 := (AiService.upsertTopicAndLink "m1" "  Budget " topics_world).2 in
  let w2 := (AiService.upsertTopicAndLink "m1" "budget" w1).2 in
  Sys.store w2 = Sys.store w1.
Proof.
  apply (upsertTopicAndLink_again "m1" "  Budget " "budget" topics_world).
  - exact topics_world_unique.
  - reflexivity.
Defined.

(** *** The names of the topics *)

(** The table of topics is in order: no two topics have the same name, and
    every name is in normal form, lower-cased and trimmed. *)
Definition topics_ok {T} (w : Sys.World T) : Prop :=
  unique_names (Sys.store w) /\
  forall id t, Sys.topics (Sys.store w) !! id = Some t ->
    Text.trim (Text.toLowerCase (Sys.t_name t)) = Sys.t_name t.

Section TopicNames.
Context {T : Type}.
Variable env : Sys.Env T.

Lemma same_topics_ok (w w' : Sys.World T) :
  Sys.topics (Sys.store w) = Sys.topics (Sys.store w') -> keeps topics_ok w w'.
Proof.
  intros Heq [Hu Hn]. split.
  - intros i j ti tj. rewrite <- Heq. apply Hu.
  - intros id t. rewrite <- Heq. apply Hn.
Qed.

Lemma steps_topics_ok (P : Sys.Event T -> Prop) (w w' : Sys.World T) :
  (forall ev, P ev -> match ev with
                      | Sys.Db (Sys.InsertTopic _ _) | Sys.Db (Sys.UpdateTopic _ _ _) => False
                      | _ => True
                      end) ->
  steps P w w' -> keeps topics_ok w w'.
Proof.
  intros HP Hs. apply same_topics_ok. revert Hs.
  apply (steps_ind_rel _ (same (fun w => Sys.topics (Sys.store w)))).
  intros ev w0 Hev. apply HP in Hev. destruct ev as [stmt| | | | |]; try done.
  by destruct stmt.
Qed.

Lemma upsertTopicAndLink_ok meetingId topicName :
  respects (keeps topics_ok) (AiService.upsertTopicAndLink (T:=T) meetingId topicName).
Proof.
  intros w [Hu Hn]. split; [by apply upsertTopicAndLink_unique|].
  intros id t. rewrite upsertTopicAndLink_topics.
  destruct (AiService.single_topic _ (Sys.store w)) as [[id' t']|] eqn:E; [apply Hn|].
  rewrite lookup_insert_Some. intros [[_ <-]|[_ Ht]]; [|by eapply Hn].
  simpl. apply normalize_idem.
Qed.

Ltac ok_tac :=
  respects_tac;
  try (apply same_topics_ok; reflexivity);
  try (eapply steps_topics_ok; [|apply steps_one; exact I]; by intros [[]| | | | |]).

Lemma transcribeMeeting_ok meetingId audioUrl :
  respects (keeps topics_ok) (AiService.transcribeMeeting env meetingId audioUrl).
Proof.
  eapply respects_impl; [|apply transcribeMeeting_kind].
  intros w w'. apply steps_topics_ok. by intros [[]| | | | |].
Qed.

Lemma extractMeetingInsights_ok meetingId transcript :
  respects (keeps topics_ok) (AiService.extractMeetingInsights env meetingId transcript).
Proof.
  eapply respects_impl; [|apply extractMeetingInsights_kind].
  intros w w'. apply steps_topics_ok. by intros [[]| | | | |].
Qed.

Lemma embed_chunks_ok meetingId chunks i :
  respects (keeps topics_ok) (AiService.embed_chunks env meetingId chunks i).
Proof.
  eapply respects_impl; [|apply (embed_chunks_kind env meetingId)].
  intros w w'. apply steps_topics_ok. by intros [[]| | | | |].
Qed.

Lemma extractTopics_ok transcript :
  respects (keeps topics_ok) (AiService.extractTopics env transcript).
Proof. unfold AiService.extractTopics, AiService.generateContent. ok_tac. Qed.

Lemma updateTopicsAndEmbeddings_ok meetingId transcript :
  respects (keeps topics_ok) (AiService.updateTopicsAndEmbeddings env meetingId transcript).
Proof.
  unfold AiService.updateTopicsAndEmbeddings, AiService.getGeminiKey,
    AiService.generateAndStoreEmbeddings.
  ok_tac; [apply extractTopics_ok | apply upsertTopicAndLink_ok | apply embed_chunks_ok].
Qed.

Lemma processMeeting_ok meetingId audioUrl :
  respects (keeps topics_ok) (AiService.processMeeting env meetingId audioUrl).
Proof.
  unfold AiService.processMeeting.
  ok_tac; [apply transcribeMeeting_ok | apply extractMeetingInsights_ok
          | apply updateTopicsAndEmbeddings_ok].
Qed.

Lemma handleNewMeeting_ok meetingId audioUrl :
  respects (keeps topics_ok) (Orchestrator.handleNewMeeting env meetingId audioUrl).
Proof.
  unfold Orchestrator.handleNewMeeting, Orchestrator.updateMeetingStatus.
  ok_tac. apply processMeeting_ok.
Qed.

Lemma handleUpdatedMeeting_ok meetingId newAudioUrl :
  respects (keeps topics_ok) (Orchestrator.handleUpdatedMeeting env meetingId newAudioUrl).
Proof.
  unfold Orchestrator.handleUpdatedMeeting, Orchestrator.getMeeting,
    Orchestrator.updateMeetingStatus, Orchestrator.deleteExistingActionItems,
    Orchestrator.deleteExistingDecisions, Orchestrator.deleteExistingMeetingTopics,
    Orchestrator.deleteExistingEmbeddings.
  ok_tac; first [apply transcribeMeeting_ok | apply extractMeetingInsights_ok
                | apply updateTopicsAndEmbeddings_ok].
Qed.

Lemma batch_loop_ok meetings : forall results,
  respects (keeps topics_ok) (Orchestrator.batch_loop env meetings results).
Proof.
  induction meetings as [|[id url] rest IH]; intros results; simpl.
  - apply respects_ret. exact _.
  - ok_tac; first [apply handleNewMeeting_ok | apply IH].
Qed.

Lemma retry_loop_ok failedMeetings : forall results,
  respects (keeps topics_ok) (Orchestrator.retry_loop env failedMeetings results).
Proof.
  induction failedMeetings as [|[id url] rest IH]; intros results; simpl.
  - apply respects_ret. exact _.
  - ok_tac; first [apply handleNewMeeting_ok | apply handleUpdatedMeeting_ok | apply IH].
Qed.

(** X10.  The schema puts no constraint on the names of the topics; the
    services keep them in order.  From a table in which the names are distinct
    and in normal form, every operation of the orchestrator (a new run, a
    reprocessing, a batch, the retry of the failed meetings), whatever its
    outcome, leads to a table in which they still are. *)
Theorem topic_names_kept (w : Sys.World T) :
  topics_ok w ->
  (forall meetingId audioUrl,
     topics_ok (Orchestrator.handleNewMeeting env meetingId audioUrl w).2) /\
  (forall meetingId newAudioUrl,
     topics_ok (Orchestrator.handleUpdatedMeeting env meetingId newAudioUrl w).2) /\
  (forall meetings, topics_ok (Orchestrator.batchProcessMeetings env meetings w).2) /\
  topics_ok (Orchestrator.reprocessFailedMeetings env w).2.
Proof.
  intros Hok. split; [|split; [|split]].
  - intros meetingId audioUrl. by apply handleNewMeeting_ok.
  - intros meetingId newAudioUrl. by apply handleUpdatedMeeting_ok.
  - intros meetings. by apply batch_loop_ok.
  - revert Hok. unfold Orchestrator.reprocessFailedMeetings.
    apply respects_bind; [exact _ | | intros l; apply retry_loop_ok].
    intros w1 Hw1. exact Hw1.
Qed.

End TopicNames.

Lemma topics_world_ok : topics_ok topics_world.
Proof.
  split; [exact topics_world_unique|].
  intros id t Ht. simpl in Ht. apply lookup_singleton_Some in Ht as [_ <-]. reflexivity.
Qed.

Lemma topic_names_kept_witness :
  let env := example_env [1%float; 0%float] in
  (forall meetingId audioUrl,
     topics_ok (Orchestrator.handleNewMeeting env meetingId audioUrl topics_world).2) /\
  (forall meetingId newAudioUrl,
     topics_ok (Orchestrator.handleUpdatedMeeting env meetingId newAudioUrl topics_world).2) /\
  (forall meetings, topics_ok (Orchestrator.batchProcessMeetings env meetings topics_world).2) /\
  topics_ok (Orchestrator.reprocessFailedMeetings env topics_world).2.
Proof.
  intros env. apply (topic_names_kept env topics_world). exact topics_world_ok.
Defined.

(** *** The embedding chunks of a transcript *)

(** The position and the text of a stored chunk. *)
Definition chunk_key {T} (row : Sys.EmbeddingRow T) : nat * string :=
  (Sys.e_chunk_index row, Sys.e_content_chunk row).

Section Chunks.
Context {T : Type}.
Variable env : Sys.Env T.
Variable meetingId : string.

(** A row written by the loop: a chunk of the meeting with a vector that the
    embedding model returned for its text. *)
Definition embedded (row : Sys.EmbeddingRow T) : Prop :=
  Sys.e_meeting_id row = meetingId /\
  exists t, Sys.gemini_embed env t (Sys.e_content_chunk row) = Sys.Resolved (Sys.e_embedding row).

Lemma embed_chunks_run (chunks : list string) : forall i (w : Sys.World T),
  exists rows w',
    AiService.embed_chunks env meetingId chunks i w = (Sys.Ok tt, w') /\
    Sys.meeting_embeddings (Sys.store w') = Sys.meeting_embeddings (Sys.store w) ++ rows /\
    Sys.meetings (Sys.store w') = Sys.meetings (Sys.store w) /\
    Forall embedded rows /\
    sublist (map chunk_key rows) (combine (seq i (List.length chunks)) chunks) /\
    (is_Some (Sys.meetings (Sys.store w) !! meetingId) ->
     (forall t text, exists v, Sys.gemini_embed env t text = Sys.Resolved v) ->
     map chunk_key rows = combine (seq i (List.length chunks)) chunks).
Proof.
  induction chunks as [|chunk chunks IH]; intros i w.
  - exists [], w. simpl. rewrite app_nil_r. repeat split; done.
  - simpl. unfold AiService.embedContent, AiService.insertEmbedding. run_m.
    destruct (Sys.gemini_embed env (Sys.now w) chunk) as [e|v] eqn:Hv; simpl.
    + destruct (IH (S i) (Sys.step (Sys.Embed chunk) w))
        as (rows & w' & -> & He & Hm & Hrows & Hsub & Hall).
      exists rows, w'. split; [done|]. split; [done|]. split; [done|]. split; [done|].
      split; [by apply sublist_cons|].
      intros _ Hres. destruct (Hres (Sys.now w) chunk) as [v Hv']. congruence.
    + destruct (Sys.meetings (Sys.store w) !! meetingId) as [mt|] eqn:Hmt; simpl.
      * match goal with
        | |- context [AiService.embed_chunks env meetingId chunks (S i) ?w1] =>
            destruct (IH (S i) w1) as (rows & w' & -> & He & Hm & Hrows & Hsub & Hall)
        end.
        simpl in He, Hm, Hall. rewrite <- app_assoc in He. simpl in He.
        eexists (_ :: rows), w'. split; [done|]. split; [exact He|]. split; [done|].
        split; [constructor; [|done]; split; [done|]; by exists (Sys.now w)|].
        split; [by apply sublist_skip|].
        intros _ Hres. unfold chunk_key at 1. simpl. f_equal. apply Hall; [|done].
        rewrite Hmt. by eexists.
      * destruct (IH (S i) (Sys.step (Sys.Embed chunk) w))
          as (rows & w' & -> & He & Hm & Hrows & Hsub & Hall).
        exists rows, w'. split; [done|]. split; [done|]. split; [done|]. split; [done|].
        split; [by apply sublist_cons|].
        intros [mt Hmt']. congruence.
Qed.

(** X11.  [generateAndStoreEmbeddings] never throws: a chunk that cannot be
    embedded or stored is skipped.  Afterwards the chunks stored for other
    meetings are as before, and the chunks stored for the meeting are new rows
    only: each of them a chunk of the transcript, cut at 500 words, under its
    position among the chunks, with a vector returned for its text, in the
    order of the transcript.  When the meeting is in the table and the
    embedding model answers every request, every chunk of the transcript is
    stored. *)
Theorem generateAndStoreEmbeddings_rows (transcript : string) (w : Sys.World T) :
  let chunks := AiService.chunks_of transcript in
  exists rows w',
    AiService.generateAndStoreEmbeddings env meetingId transcript w = (Sys.Ok tt, w') /\
    Sys.meeting_embeddings (Sys.store w')
    = filter (fun row => Sys.e_meeting_id row <> meetingId)
             (Sys.meeting_embeddings (Sys.store w)) ++ rows /\
    Forall embedded rows /\
    sublist (map chunk_key rows) (combine (seq 0 (List.length chunks)) chunks) /\
    (is_Some (Sys.meetings (Sys.store w) !! meetingId) ->
     (forall t text, exists v, Sys.gemini_embed env t text = Sys.Resolved v) ->
     map chunk_key rows = combine (seq 0 (List.length chunks)) chunks).
Proof.
  intros chunks. unfold AiService.generateAndStoreEmbeddings. fold chunks. run_m.
  destruct (embed_chunks_run chunks 0 (Sys.step (Sys.Db (Sys.DeleteEmbeddings meetingId)) w))
    as (rows & w' & -> & He & Hm & Hrows & Hsub & Hall).
  exists rows, w'. by repeat split.
Qed.

(** The events of the last stage: topics and chunks. *)
Definition tail_event (ev : Sys.Event T) : Prop :=
  topics_kind meetingId ev \/ embed_kind meetingId ev \/
  ev = Sys.Db (Sys.DeleteEmbeddings meetingId).

Lemma updateTopicsAndEmbeddings_tail transcript :
  respects (steps tail_event) (AiService.updateTopicsAndEmbeddings env meetingId transcript).
Proof.
  unfold AiService.updateTopicsAndEmbeddings, AiService.getGeminiKey,
    AiService.generateAndStoreEmbeddings.
  respects_tac.
  - eapply respects_mono; [|apply extractTopics_kind]. intros ev Hev. left. exact Hev.
  - eapply respects_mono; [|apply upsertTopicAndLink_kind]. intros ev Hev. left. exact Hev.
  - apply steps_one. right. by right.
  - eapply respects_mono; [|apply (embed_chunks_kind env meetingId)].
    intros ev Hev. right. left. exact Hev.
Qed.

(** The last stage writes neither the meetings nor the insights. *)
Lemma tail_keeps_insights (w w' : Sys.World T) :
  steps tail_event w w' ->
  Sys.meetings (Sys.store w') = Sys.meetings (Sys.store w) /\
  Sys.action_items (Sys.store w') = Sys.action_items (Sys.store w) /\
  Sys.decisions (Sys.store w') = Sys.decisions (Sys.store w).
Proof.
  intros Hs.
  assert (same (fun w => (Sys.meetings (Sys.store w), Sys.action_items (Sys.store w),
                          Sys.decisions (Sys.store w))) w w') as Heq.
  { revert Hs. apply steps_ind_rel; [exact _|].
    intros ev w0 [Hev|[Hev| ->]]; [| |done];
      destruct ev as [stmt| | | | |]; try done; by destruct stmt. }
  unfold same in Heq. injection Heq as H1 H2 H3. by rewrite H1, H2, H3.
Qed.

Lemma for_each_upsert (topics : list string) : forall w : Sys.World T,
  exists w', Sys.for_each topics (AiService.upsertTopicAndLink meetingId) w = (Sys.Ok tt, w').
Proof.
  induction topics as [|topic topics IH]; intros w; simpl; [by eexists|].
  unfold Sys.bind.
  destruct (upsertTopicAndLink_run meetingId topic w) as (w1 & -> & _). apply IH.
Qed.

Lemma extractTopics_run (transcript : string) (w : Sys.World T) :
  exists topics,
    AiService.extractTopics env transcript w
    = (Sys.Ok topics, Sys.step (Sys.Generate (AiService.topicsPrompt transcript)) w) /\
    Forall (fun t => t <> "") topics.
Proof.
  unfold AiService.extractTopics, AiService.generateContent. run_m.
  destruct (Sys.gemini_generate env (Sys.now w) (AiService.topicsPrompt transcript))
    as [e|text]; simpl; [by exists []|].
  destruct (Sys.json_parse env text) as [[| | | |topics|]|]; simpl; try by exists [].
  eexists. split; [reflexivity|].
  apply Forall_forall. intros t Ht. unfold AiService.topic_names in Ht.
  apply list_elem_of_omap in Ht as (v & _ & Hv).
  destruct v as [| | |[|c s]| |]; simpl in Hv; try discriminate. by injection Hv as <-.
Qed.

(** X12.  The last stage of the pipeline fails in one way only.  With the key
    of the language model configured, [updateTopicsAndEmbeddings] returns
    whatever the providers and the store answer: a rejected or unreadable list
    of topics counts as no topic, a topic or a link that cannot be written is
    skipped, and so is a chunk that cannot be embedded or stored.  Without the
    key it throws before doing anything.  In both cases the meetings, the
    action items and the decisions are not written. *)
Theorem updateTopicsAndEmbeddings_total (transcript : string) (w : Sys.World T) :
  match Sys.truthy (Sys.VITE_GEMINI_API_KEY env) with
  | Some _ =>
      exists w', AiService.updateTopicsAndEmbeddings env meetingId transcript w = (Sys.Ok tt, w') /\
        Sys.meetings (Sys.store w') = Sys.meetings (Sys.store w) /\
        Sys.action_items (Sys.store w') = Sys.action_items (Sys.store w) /\
        Sys.decisions (Sys.store w') = Sys.decisions (Sys.store w)
  | None =>
      AiService.updateTopicsAndEmbeddings env meetingId transcript w
      = (Sys.Throw "VITE_GEMINI_API_KEY environment variable is not set", w)
  end.
Proof.
  destruct (Sys.truthy (Sys.VITE_GEMINI_API_KEY env)) as [key|] eqn:Hkey.
  - assert (exists w', AiService.updateTopicsAndEmbeddings env meetingId transcript w
                       = (Sys.Ok tt, w')) as [w' Hrun].
    { unfold AiService.updateTopicsAndEmbeddings, AiService.getGeminiKey. rewrite Hkey.
      unfold Sys.bind at 1. unfold Sys.ret at 1. unfold Sys.try_catch.
      unfold Sys.bind at 1.
      destruct (extractTopics_run transcript w) as (topics & -> & _).
      unfold Sys.bind at 1.
      match goal with
      | |- context [Sys.for_each topics _ ?w1] =>
          destruct (for_each_upsert topics w1) as (w2 & ->)
      end.
      unfold AiService.generateAndStoreEmbeddings. unfold Sys.bind at 1.
      unfold Sys.exec, Sys.emit.
      match goal with
      | |- context [AiService.embed_chunks env meetingId ?c 0 ?w3] =>
          destruct (embed_chunks_run c 0 w3) as (rows & w' & -> & _)
      end.
      by exists w'. }
    pose proof (updateTopicsAndEmbeddings_tail transcript w) as Htail.
    rewrite Hrun in Htail. apply tail_keeps_insights in Htail. by exists w'.
  - unfold AiService.updateTopicsAndEmbeddings, AiService.getGeminiKey. by rewrite Hkey.
Qed.

End Chunks.

(** ** The handlers *)

Section Handlers.
Context {T : Type}.
Variable env : Sys.Env T.
Variable meetingId : string.

(** The store after a transcription. *)
Lemma transcribeMeeting_store (audioUrl : string) (w : Sys.World T) :
  match AiService.transcribeMeeting env meetingId audioUrl w with
  | (Sys.Ok text, w') =>
      Sys.store w' = Sys.apply_stmt (Sys.UpdateTranscript meetingId text) (Sys.store w)
  | (Sys.Throw e, w') =>
      Sys.store w' = Sys.store w \/
      Sys.store w' = Sys.apply_stmt (Sys.UpdateStatus meetingId Sys.failed) (Sys.store w)
  end.
Proof.
  pose proof (transcribeMeeting_run env meetingId audioUrl w) as Hrun.
  destruct (Sys.truthy (Sys.VITE_ASSEMBLYAI_API_KEY env)) as [key|].
  - destruct Hrun as (evs & r & stmt & -> & Hevs & _ & _ & Hr).
    assert (Sys.store (play evs (Sys.step (Sys.Submit audioUrl) w)) = Sys.store w) as Hstore.
    { rewrite store_play; [done|].
      eapply Forall_impl; [exact Hevs|]. by intros ev [[id ->]| ->]. }
    rewrite play_cons, play_snoc.
    destruct r as [text|e]; subst stmt; simpl; rewrite Hstore; [done|by right].
  - rewrite Hrun. by left.
Qed.

(** The store after a successful extraction. *)
Lemma extractMeetingInsights_appends (transcript : string) (w w' : Sys.World T) r :
  AiService.extractMeetingInsights env meetingId transcript w = (Sys.Ok r, w') ->
  Sys.action_items (Sys.store w') = Sys.action_items (Sys.store w) ++ AiService.actionItems r /\
  Sys.decisions (Sys.store w') = Sys.decisions (Sys.store w) ++ AiService.decisions r /\
  (Sys.meetings (Sys.store w') = Sys.meetings (Sys.store w) \/
   exists summary,
     Sys.meetings (Sys.store w')
     = alter (Sys.set_summary summary) meetingId (Sys.meetings (Sys.store w))).
Proof.
  intros Hok. rewrite extractMeetingInsights_run in Hok. cbv zeta in Hok.
  destruct (Sys.truthy (Sys.VITE_GEMINI_API_KEY env)) as [key|]; [|done].
  destruct (Sys.gemini_generate env (Sys.now w) (AiService.insightsPrompt transcript))
    as [e|responseText]; [done|].
  destruct (Sys.json_parse env responseText) as [insights|]; [|done].
  destruct (store_insights_run env meetingId transcript insights
              (Sys.step (Sys.Generate (AiService.insightsPrompt transcript)) w))
    as (items & decs & w0 & Happ & Hrun & Hm).
  rewrite Hrun in Hok. destruct (shape_error env insights) as [e|]; [done|].
  injection Hok as <- <-. destruct Happ as (_ & _ & _ & Ha & Hd & _). simpl in *.
  split; [done|]. split; [done|].
  destruct Hm as [Hm|(summary & _ & Hm)]; [by left|right; by exists summary].
Qed.

(** The three stages of a successful run. *)
Lemma processMeeting_inv (audioUrl : string) (w w' : Sys.World T) p :
  AiService.processMeeting env meetingId audioUrl w = (Sys.Ok p, w') ->
  exists w1 w2,
    AiService.transcribeMeeting env meetingId audioUrl w
    = (Sys.Ok (AiService.p_transcript p), w1) /\
    AiService.extractMeetingInsights env meetingId (AiService.p_transcript p) w1
    = (Sys.Ok {| AiService.actionItems := AiService.p_actionItems p;
                 AiService.decisions := AiService.p_decisions p |}, w2) /\
    AiService.updateTopicsAndEmbeddings env meetingId (AiService.p_transcript p) w2
    = (Sys.Ok tt, w').
Proof.
  unfold AiService.processMeeting, Sys.try_catch, Sys.bind.
  destruct (AiService.transcribeMeeting env meetingId audioUrl w) as [[text|e] w1]; [|done].
  destruct (AiService.extractMeetingInsights env meetingId text w1) as [[r|e] w2] eqn:E2;
    [|done].
  destruct (AiService.updateTopicsAndEmbeddings env meetingId text w2) as [[[]|e] w3] eqn:E3;
    [|done].
  simpl. intros Heq. injection Heq as <- <-. exists w1, w2. simpl.
  rewrite E2, E3. by destruct r.
Qed.

(** X13.  A successful [handleNewMeeting].  When the result says
    [success: true], it carries the transcript; the row of the meeting, when
    there is one, has the status ['ready'], that transcript and the audio
    reference it had; and the action items and decisions of the result are
    the rows the run has appended to the two tables.  The handler never
    throws. *)
Theorem handleNewMeeting_success (audioUrl : string) (w : Sys.World T) :
  match Orchestrator.handleNewMeeting env meetingId audioUrl w with
  | (Sys.Ok result, w') =>
      Orchestrator.success result = true ->
      exists text,
        Orchestrator.transcript result = Some text /\
        Orchestrator.error result = None /\
        (forall mt, Sys.meetings (Sys.store w) !! meetingId = Some mt ->
           exists mt', Sys.meetings (Sys.store w') !! meetingId = Some mt' /\
             Sys.m_status mt' = Sys.ready /\ Sys.m_transcript mt' = Some text /\
             Sys.m_video_url mt' = Sys.m_video_url mt) /\
        Sys.action_items (Sys.store w')
        = Sys.action_items (Sys.store w) ++ Orchestrator.actionItems result /\
        Sys.decisions (Sys.store w')
        = Sys.decisions (Sys.store w) ++ Orchestrator.decisions result
  | (Sys.Throw _, _) => False
  end.
Proof.
  unfold Orchestrator.handleNewMeeting, Sys.try_catch, Orchestrator.updateMeetingStatus.
  unfold Sys.bind at 1. unfold Sys.exec, Sys.emit. unfold Sys.bind at 1.
  set (w0 := Sys.step (Sys.Db (Sys.UpdateStatus meetingId Sys.processing)) w).
  destruct (AiService.processMeeting env meetingId audioUrl w0) as [[p|e] w'] eqn:Hp;
    [|cbn; done].
  cbn -[Sys.step]. intros _. exists (AiService.p_transcript p).
  split; [done|]. split; [done|].
  apply processMeeting_inv in Hp as (w1 & w2 & Ht & Hi & Hu).
  pose proof (transcribeMeeting_store audioUrl w0) as Hs1. rewrite Ht in Hs1.
  apply extractMeetingInsights_appends in Hi as (Ha & Hd & Hm). simpl in Ha, Hd.
  pose proof (updateTopicsAndEmbeddings_tail env meetingId (AiService.p_transcript p) w2) as Htail.
  rewrite Hu in Htail. apply tail_keeps_insights in Htail as (Hm3 & Ha3 & Hd3).
  simpl in Hm3, Ha3, Hd3.
  rewrite Ha3, Ha, Hd3, Hd, Hm3, Hs1. simpl. split; [|done].
  intros mt Hmt.
  destruct Hm as [->|(summary & ->)]; rewrite Hs1; simpl;
    rewrite ?lookup_alter_eq, Hmt; simpl; by eexists.
Qed.

(** X14.  [handleUpdatedMeeting] on an identifier that is not in the table:
    the result is a failure that names the identifier, no request is sent,
    and the store is as it was; the only statement is the update of the
    status to ['failed'], which finds no row. *)
Theorem handleUpdatedMeeting_not_found (newAudioUrl : option string) (w : Sys.World T) :
  Sys.meetings (Sys.store w) !! meetingId = None ->
  let '(r, w') := Orchestrator.handleUpdatedMeeting env meetingId newAudioUrl w in
  r = Sys.Ok (Orchestrator.failure meetingId ("Meeting " +:+ meetingId +:+ " not found")) /\
  new_events w w' = [Sys.Db (Sys.UpdateStatus meetingId Sys.failed)] /\
  Sys.store w' = Sys.store w.
Proof.
  intros Hmt. unfold Orchestrator.handleUpdatedMeeting, Orchestrator.getMeeting,
    Orchestrator.updateMeetingStatus.
  run_m. rewrite Hmt. simpl. split; [done|]. split.
  - unfold new_events. simpl. by rewrite drop_app_length.
  - destruct (Sys.store w) as [ms ? ? ? ? ? ?]. unfold Sys.with_meetings. simpl in *. f_equal.
    apply map_eq. intros id. destruct (decide (meetingId = id)) as [<-|Hne].
    + by rewrite lookup_alter_eq, Hmt.
    + by rewrite lookup_alter_ne.
Qed.

(** X15.  [handleUpdatedMeeting] with neither a new audio reference nor a
    stored transcript fails, but only after the cleanup: the result is a
    failure, the status is ['failed'], and the action items, decisions and
    embedding chunks the meeting had are gone, while the rows of the other
    meetings, the topics and the topic links (those of the meeting too:
    schema.sql gives [meeting_topics] no DELETE policy) are as before. *)
Theorem handleUpdatedMeeting_no_source (newAudioUrl : option string) (w : Sys.World T) mt :
  Sys.meetings (Sys.store w) !! meetingId = Some mt ->
  Sys.truthy newAudioUrl = None ->
  Sys.truthy (Sys.m_transcript mt) = None ->
  let '(r, w') := Orchestrator.handleUpdatedMeeting env meetingId newAudioUrl w in
  r = Sys.Ok (Orchestrator.failure meetingId
                "No audio URL provided and no existing transcript found") /\
  status_of meetingId w' = Some Sys.failed /\
  Sys.action_items (Sys.store w')
  = filter (fun row => Sys.ai_meeting_id row <> meetingId) (Sys.action_items (Sys.store w)) /\
  Sys.decisions (Sys.store w')
  = filter (fun row => Sys.d_meeting_id row <> meetingId) (Sys.decisions (Sys.store w)) /\
  Sys.meeting_topics (Sys.store w') = Sys.meeting_topics (Sys.store w) /\
  Sys.meeting_embeddings (Sys.store w')
  = filter (fun row => Sys.e_meeting_id row <> meetingId)
           (Sys.meeting_embeddings (Sys.store w)) /\
  Sys.topics (Sys.store w') = Sys.topics (Sys.store w).
Proof.
  intros Hmt Hurl Htext.
  rewrite (handleUpdatedMeeting_unfold env meetingId newAudioUrl w mt Hmt).
  unfold reprocess_rest, reprocess_handler, Orchestrator.updateMeetingStatus.
  rewrite Hurl, Htext. unfold cleanup. run_m.
  split; [done|]. split; [|done].
  unfold status_of. simpl. rewrite !lookup_alter_eq, Hmt. done.
Qed.

(** The events of a reprocessing that keeps the transcript. *)
Definition rerun_event (ev : Sys.Event T) : Prop :=
  is_submit ev = false /\ is_poll ev = false /\
  match ev with
  | Sys.Sleep _ | Sys.Db (Sys.UpdateTranscript _ _) => False
  | _ => True
  end.

Lemma rerun_keeps_transcript (w w' : Sys.World T) :
  steps rerun_event w w' ->
  Sys.m_transcript <$> Sys.meetings (Sys.store w') !! meetingId
  = Sys.m_transcript <$> Sys.meetings (Sys.store w) !! meetingId.
Proof.
  intros Hs. symmetry. revert Hs.
  apply (steps_ind_rel _ (same (fun w => Sys.m_transcript <$> Sys.meetings (Sys.store w) !! meetingId))).
  intros ev w0 (_ & _ & Hev). unfold same.
  destruct ev as [stmt| | | | |]; try done.
  destruct stmt as [id s|id t|id s| | | | | | | | | |]; try done; simpl;
    (destruct (decide (id = meetingId)) as [->|Hne];
     [rewrite lookup_alter_eq; by destruct (_ !! _) | by rewrite lookup_alter_ne]).
Qed.

Lemma rerun_body (newAudioUrl : option string) mt text :
  Sys.truthy newAudioUrl = None ->
  Sys.truthy (Sys.m_transcript mt) = Some text ->
  respects (steps rerun_event) (reprocess_rest env meetingId newAudioUrl mt).
Proof.
  intros Hurl Htext. unfold reprocess_rest, Orchestrator.updateMeetingStatus.
  rewrite Hurl, Htext.
  respects_tac; try (apply steps_one; done).
  - eapply respects_mono; [|apply (extractMeetingInsights_kind env meetingId)].
    intros [[]| | | | |]; done.
  - eapply respects_mono; [|apply (updateTopicsAndEmbeddings_tail env meetingId)].
    intros [[]| | | | |] [Hev|[Hev|Hev]]; done.
Qed.

Lemma rerun_handler (errorMessage : string) :
  respects (steps rerun_event) (reprocess_handler (T:=T) meetingId errorMessage).
Proof.
  unfold reprocess_handler, Orchestrator.updateMeetingStatus.
  respects_tac. apply steps_one. done.
Qed.

(** X16.  [handleUpdatedMeeting] without a new audio reference, on a meeting
    that has a transcript, works from that transcript: no request goes to the
    transcription provider and there is no pause, the stored transcript is not
    rewritten, and the result carries it.  The handler returns, and the
    status of the meeting tells the outcome: ['ready'] after a success,
    ['failed'] after a failure. *)
Theorem handleUpdatedMeeting_keeps_transcript (newAudioUrl : option string)
    (w : Sys.World T) mt text :
  Sys.meetings (Sys.store w) !! meetingId = Some mt ->
  Sys.truthy newAudioUrl = None ->
  Sys.truthy (Sys.m_transcript mt) = Some text ->
  let '(r, w') := Orchestrator.handleUpdatedMeeting env meetingId newAudioUrl w in
  Forall (fun ev => is_submit ev = false /\ is_poll ev = false /\ is_sleep ev = false)
         (new_events w w') /\
  Sys.m_transcript <$> Sys.meetings (Sys.store w') !! meetingId = Some (Sys.m_transcript mt) /\
  exists result,
    r = Sys.Ok result /\
    status_of meetingId w'
    = Some (if Orchestrator.success result then Sys.ready else Sys.failed) /\
    (Orchestrator.success result = true -> Orchestrator.transcript result = Some text).
Proof.
  intros Hmt Hurl Htext.
  rewrite (handleUpdatedMeeting_unfold env meetingId newAudioUrl w mt Hmt).
  assert (respects (steps rerun_event)
            (Sys.try_catch (reprocess_rest env meetingId newAudioUrl mt)
               (reprocess_handler meetingId))) as Hsteps.
  { apply respects_try_catch; [exact _ | by eapply rerun_body | apply rerun_handler]. }
  specialize (Hsteps (cleanup meetingId w)).
  assert (steps rerun_event w (cleanup meetingId w)) as Hclean.
  { apply steps_play.
    exists [ Sys.Db (Sys.UpdateStatus meetingId Sys.processing);
             Sys.Db (Sys.DeleteActionItems meetingId); Sys.Db (Sys.DeleteDecisions meetingId);
             Sys.Db (Sys.DeleteMeetingTopics meetingId); Sys.Db (Sys.DeleteEmbeddings meetingId) ].
    split; [|reflexivity]. repeat constructor. }
  assert (is_Some (Sys.meetings (Sys.store (cleanup meetingId w)) !! meetingId)) as Hsome.
  { apply (steps_meetings_kept _ _ _ Hclean). by eexists. }
  destruct (Sys.try_catch (reprocess_rest env meetingId newAudioUrl mt)
              (reprocess_handler meetingId) (cleanup meetingId w)) as [r w'] eqn:Hrun.
  simpl in Hsteps.
  assert (steps rerun_event w w') as Hall by (etrans; eassumption).
  split; [|split].
  - apply steps_play in Hall as (evs & Hevs & ->). rewrite new_events_play.
    eapply Forall_impl; [exact Hevs|]. intros ev (? & ? & Hev).
    repeat split; try done. by destruct ev.
  - rewrite (rerun_keeps_transcript _ _ Hall), Hmt. done.
  - revert Hrun. unfold Sys.try_catch.
    destruct (reprocess_rest env meetingId newAudioUrl mt (cleanup meetingId w))
      as [[result|e] w1] eqn:Hrest.
    + intros Heq. injection Heq as <- <-. exists result. split; [done|].
      revert Hrest. unfold reprocess_rest. rewrite Hurl, Htext.
      unfold Sys.bind at 1. unfold Sys.ret at 1. unfold Sys.bind at 1.
      destruct (AiService.extractMeetingInsights env meetingId text (cleanup meetingId w))
        as [[insights|e] w2] eqn:Hi; [|done].
      unfold Sys.bind at 1.
      destruct (AiService.updateTopicsAndEmbeddings env meetingId text w2)
        as [[[]|e] w3] eqn:Hu; [|done].
      unfold Orchestrator.updateMeetingStatus. run_m. intros Heq. injection Heq as <- <-.
      simpl. split; [|done]. apply status_after_update.
      pose proof (extractMeetingInsights_kind env meetingId text (cleanup meetingId w)) as H1.
      pose proof (updateTopicsAndEmbeddings_tail env meetingId text w2) as H2.
      rewrite Hi in H1. rewrite Hu in H2. simpl in H1, H2.
      apply steps_meetings_kept in H1, H2. apply H2, H1, Hsome.
    + unfold reprocess_handler, Orchestrator.updateMeetingStatus. run_m.
      intros Heq. injection Heq as <- <-. eexists. split; [done|]. simpl. split; [|done].
      apply status_after_update.
      pose proof (rerun_body newAudioUrl mt text Hurl Htext (cleanup meetingId w)) as H1.
      rewrite Hrest in H1. simpl in H1.
      apply steps_meetings_kept in H1. apply H1, Hsome.
Qed.

End Handlers.

(** A meeting that was never transcribed. *)
Definition untranscribed_world : Sys.World float :=
  {| Sys.store :=
       {| Sys.meetings :=
            {[ "m1" := {| Sys.m_status := Sys.failed; Sys.m_transcript := None;
                          Sys.m_summary := None; Sys.m_video_url := None |} ]};
          Sys.action_items := [stale_item]; Sys.decisions := [];
          Sys.topics := {[ 7 := budget_topic ]}; Sys.meeting_topics := {[ ("m1", 7) ]};
          Sys.meeting_embeddings := []; Sys.next_id := 8 |};
     Sys.trace := [] |}.

Lemma handleUpdatedMeeting_not_found_witness :
  let env := example_env [1%float; 0%float] in
  let w := example_world Sys.ready None in
  let '(r, w') := Orchestrator.handleUpdatedMeeting env "m9" None w in
  r = Sys.Ok (Orchestrator.failure "m9" ("Meeting " +:+ "m9" +:+ " not found")) /\
  new_events w w' = [Sys.Db (Sys.UpdateStatus "m9" Sys.failed)] /\
  Sys.store w' = Sys.store w.
Proof.
  intros env w. apply (handleUpdatedMeeting_not_found env "m9" None w). reflexivity.
Defined.

Lemma handleUpdatedMeeting_no_source_witness :
  let env := example_env [1%float; 0%float] in
  let w := untranscribed_world in
  let '(r, w') := Orchestrator.handleUpdatedMeeting env "m1" None w in
  r = Sys.Ok (Orchestrator.failure "m1"
                "No audio URL provided and no existing transcript found") /\
  status_of "m1" w' = Some Sys.failed /\
  Sys.action_items (Sys.store w')
  = filter (fun row => Sys.ai_meeting_id row <> "m1") (Sys.action_items (Sys.store w)) /\
  Sys.decisions (Sys.store w')
  = filter (fun row => Sys.d_meeting_id row <> "m1") (Sys.decisions (Sys.store w)) /\
  Sys.meeting_topics (Sys.store w') = Sys.meeting_topics (Sys.store w) /\
  Sys.meeting_embeddings (Sys.store w')
  = filter (fun row => Sys.e_meeting_id row <> "m1") (Sys.meeting_embeddings (Sys.store w)) /\
  Sys.topics (Sys.store w') = Sys.topics (Sys.store w).
Proof.
  intros env w.
  apply (handleUpdatedMeeting_no_source env "m1" None w
           {| Sys.m_status := Sys.failed; Sys.m_transcript := None;
              Sys.m_summary := None; Sys.m_video_url := None |}); reflexivity.
Defined.

Lemma handleUpdatedMeeting_keeps_transcript_witness :
  let env := example_env [1%float; 0%float] in
  let w := example_world Sys.failed None in
  let '(r, w') := Orchestrator.handleUpdatedMeeting env "m1" None w in
  Forall (fun ev => is_submit ev = false /\ is_poll ev = false /\ is_sleep ev = false)
         (new_events w w') /\
  Sys.m_transcript <$> Sys.meetings (Sys.store w') !! "m1"
  = Some (Some "we agreed on the budget") /\
  exists result,
    r = Sys.Ok result /\
    status_of "m1" w'
    = Some (if Orchestrator.success result then Sys.ready else Sys.failed) /\
    (Orchestrator.success result = true ->
     Orchestrator.transcript result = Some "we agreed on the budget").
Proof.
  intros env w.
  apply (handleUpdatedMeeting_keeps_transcript env "m1" None w
           {| Sys.m_status := Sys.failed; Sys.m_transcript := Some "we agreed on the budget";
              Sys.m_summary := None; Sys.m_video_url := None |} "we agreed on the budget");
    reflexivity.
Defined.

(** ** Retrieval *)

Section SortMore.
Context {A B : Type}.

Lemma insert_by_map (f : A -> B) (before : B -> B -> bool) x l :
  map f (QaService.insert_by (fun a b => before (f a) (f b)) x l)
  = QaService.insert_by before (f x) (map f l).
Proof.
  induction l as [|y l IH]; [done|]. simpl.
  destruct (before (f x) (f y)); simpl; [done|]. by rewrite IH.
Qed.

(** Sorting commutes with a projection through which the comparison goes. *)
Lemma sort_by_map (f : A -> B) (before : B -> B -> bool) l :
  map f (QaService.sort_by (fun a b => before (f a) (f b)) l)
  = QaService.sort_by before (map f l).
Proof.
  induction l as [|x l IH]; [done|]. simpl.
  change (map f (QaService.insert_by (fun a b => before (f a) (f b)) x
                   (QaService.sort_by (fun a b => before (f a) (f b)) l))
          = QaService.insert_by before (f x) (QaService.sort_by before (map f l))).
  by rewrite insert_by_map, IH.
Qed.

Lemma firsts_map (f : A -> B) (key : B -> string) l : forall seen,
  map f (firsts (fun a => key (f a)) l seen) = firsts key (map f l) seen.
Proof.
  induction l as [|x l IH]; intros seen; [done|]. simpl.
  destruct (decide (key (f x) ∈ seen)); simpl; by rewrite IH.
Qed.

Lemma sort_by_length (before : A -> A -> bool) l :
  List.length (QaService.sort_by before l) = List.length l.
Proof. apply Permutation_length, sort_by_perm. Qed.

End SortMore.

Lemma firsts_covers {A} (key : A -> string) (l : list A) : forall seen x,
  x ∈ l -> key x ∈ seen \/ key x ∈ map key (firsts key l seen).
Proof.
  induction l as [|y l IH]; intros seen x Hx; [by apply elem_of_nil in Hx|].
  apply elem_of_cons in Hx as [->|Hx]; simpl.
  - destruct (decide (key y ∈ seen)); [by left|right]. simpl. by left.
  - destruct (decide (key y ∈ seen)) as [Hy|Hy]; [by apply IH|].
    destruct (IH ({[ key y ]} ∪ seen) x Hx) as [Hin|Hin].
    + apply elem_of_union in Hin as [Hin|Hin]; [|by left].
      apply elem_of_singleton in Hin. right. simpl. rewrite Hin. by left.
    + right. simpl. by right.
Qed.

Lemma firsts_length {A} (key : A -> string) (l : list A) seen :
  List.length (firsts key l seen) <= List.length l.
Proof. apply sublist_length, firsts_sublist. Qed.

Lemma slice_to_length {A B} (n : Z) (l : list A) (l' : list B) :
  List.length l = List.length l' ->
  List.length (Text.slice_to n l) = List.length (Text.slice_to n l').
Proof.
  intros Hlen. unfold Text.slice_to. rewrite Hlen.
  destruct (n <? 0)%Z; rewrite !length_take; lia.
Qed.

Lemma slice_to_take {A} (n : Z) (l : list A) :
  (0 <= n)%Z -> Text.slice_to n l = take (Z.to_nat n) l.
Proof. intros Hn. unfold Text.slice_to. by destruct (Z.ltb_spec n 0); [lia|]. Qed.

Section Retrieval.
Context {T : Type} `{Numbers.Num T}.
Variable env : Sys.Env T.

Lemma blank_trim (s : string) : Text.blank (Text.trim s) = Text.blank s.
Proof. unfold Text.blank. by rewrite trim_idem. Qed.

(** X17.  The white space around a query does not count: [searchMeetings]
    and [findRelevantChunks] run the same on a query and on the query
    trimmed, as the search page sends it. *)
Theorem search_ignores_outer_space (query : string) (topK : Z) (w : Sys.World T) :
  QaService.searchMeetings env (Text.trim query) topK w
  = QaService.searchMeetings env query topK w /\
  QaService.findRelevantChunks env (Text.trim query) topK w
  = QaService.findRelevantChunks env query topK w.
Proof.
  unfold QaService.searchMeetings, QaService.findRelevantChunks.
  by rewrite blank_trim, trim_idem.
Qed.

(** The outcome of the request for the embedding of a text. *)
Lemma embedContent_run (text : string) (w : Sys.World T) :
  AiService.embedContent env text w
  = (match Sys.gemini_embed env (Sys.now w) text with
     | Sys.Resolved v => Sys.Ok v
     | Sys.Rejected e => Sys.Throw e
     end, Sys.step (Sys.Embed text) w).
Proof.
  unfold AiService.embedContent. run_m. by destruct (Sys.gemini_embed _ _ _).
Qed.

Lemma searchMeetings_run (query : string) (topK : Z) (w : Sys.World T) :
  QaService.searchMeetings env query topK w =
  if Text.blank query then (Sys.Throw "Search query cannot be empty", w)
  else
    match Sys.truthy (Sys.VITE_GEMINI_API_KEY env) with
    | None => (Sys.Throw "VITE_GEMINI_API_KEY environment variable is not set", w)
    | Some _ =>
        (match Sys.gemini_embed env (Sys.now w) (Text.trim query) with
         | Sys.Rejected e => Sys.Throw ("Search failed: " +:+ e)
         | Sys.Resolved q =>
             Sys.Ok match Sys.meeting_embeddings (Sys.store w) with
                    | [] => []
                    | _ => QaService.rank q (Sys.meeting_embeddings (Sys.store w)) topK
                    end
         end, Sys.step (Sys.Embed (Text.trim query)) w)
    end.
Proof.
  unfold QaService.searchMeetings. destruct (Text.blank query); [done|].
  unfold AiService.getGeminiKey.
  destruct (Sys.truthy (Sys.VITE_GEMINI_API_KEY env)); [|done].
  unfold Sys.bind at 1. unfold Sys.ret at 1. unfold Sys.try_catch.
  unfold Sys.bind at 1. rewrite embedContent_run.
  destruct (Sys.gemini_embed env (Sys.now w) (Text.trim query)) as [e|q]; [done|].
  unfold QaService.fetchEmbeddings. run_m.
  by destruct (Sys.meeting_embeddings (Sys.store w)).
Qed.

Lemma searchMeetings_ai_run (query : string) (limit : Z) (w : Sys.World T) :
  QaService.searchMeetings_ai env query limit w =
  match Sys.truthy (Sys.VITE_GEMINI_API_KEY env) with
  | None => (Sys.Throw "VITE_GEMINI_API_KEY environment variable is not set", w)
  | Some _ =>
      (match Sys.gemini_embed env (Sys.now w) query with
       | Sys.Rejected e => Sys.Throw e
       | Sys.Resolved q =>
           Sys.Ok (Text.slice_to limit
                     (fold_left QaService.dedupe_reduce
                        (QaService.sort_by
                           (fun a b => QaService.desc (QaService.r_similarity a)
                                                      (QaService.r_similarity b))
                           (map (QaService.score_row q) (Sys.meeting_embeddings (Sys.store w))))
                        []))
       end, Sys.step (Sys.Embed query) w)
  end.
Proof.
  unfold QaService.searchMeetings_ai, AiService.getGeminiKey.
  destruct (Sys.truthy (Sys.VITE_GEMINI_API_KEY env)); [|done].
  unfold Sys.bind at 1. unfold Sys.ret at 1. unfold Sys.try_catch.
  unfold Sys.bind at 1. rewrite embedContent_run.
  destruct (Sys.gemini_embed env (Sys.now w) query) as [e|q]; [done|].
  unfold QaService.fetchEmbeddings. by run_m.
Qed.

Lemma findRelevantChunks_run (query : string) (topK : Z) (w : Sys.World T) :
  QaService.findRelevantChunks env query topK w
  = (match Sys.gemini_embed env (Sys.now w) (Text.trim query) with
     | Sys.Resolved q =>
         Sys.Ok (Text.slice_to topK
                   (QaService.sort_by
                      (fun a b => QaService.desc (QaService.c_relevance a) (QaService.c_relevance b))
                      (map (QaService.score_chunk q) (Sys.meeting_embeddings (Sys.store w)))))
     | Sys.Rejected e => Sys.Throw e
     end, Sys.step (Sys.Embed (Text.trim query)) w).
Proof.
  unfold QaService.findRelevantChunks. unfold Sys.bind at 1. rewrite embedContent_run.
  destruct (Sys.gemini_embed env (Sys.now w) (Text.trim query)) as [e|q]; [done|].
  unfold QaService.fetchEmbeddings. run_m.
  destruct (Sys.meeting_embeddings (Sys.store w)) as [|row rows] eqn:E; [|done].
  simpl. unfold Text.slice_to. by destruct (topK <? 0)%Z; rewrite take_nil.
Qed.

(** What [answerMeetingQuestion] does, case by case. *)
Lemma answerMeetingQuestion_run (question : string) (topK : Z) (w : Sys.World T) :
  let w1 := Sys.step (Sys.Embed (Text.trim question)) w in
  QaService.answerMeetingQuestion env question topK w =
  if Text.blank question then (Sys.Throw "Question cannot be empty", w)
  else
    match Sys.truthy (Sys.VITE_GEMINI_API_KEY env) with
    | None => (Sys.Throw "VITE_GEMINI_API_KEY environment variable is not set", w)
    | Some _ =>
        match Sys.gemini_embed env (Sys.now w) (Text.trim question) with
        | Sys.Rejected e => (Sys.Throw ("Q&A failed: " +:+ e), w1)
        | Sys.Resolved q =>
            match Text.slice_to topK
                    (QaService.sort_by
                       (fun a b => QaService.desc (QaService.c_relevance a)
                                                  (QaService.c_relevance b))
                       (map (QaService.score_chunk q) (Sys.meeting_embeddings (Sys.store w))))
            with
            | [] => (Sys.Ok {| QaService.answer := QaService.canned_answer;
                               QaService.sources := [] |}, w1)
            | chunk :: chunks =>
                let relevantChunks := chunk :: chunks in
                let prompt :=
                  QaService.answerPrompt
                    (Text.join "

" (QaService.label_sources relevantChunks 0)) question in
                (match Sys.gemini_generate env (Sys.now w1) prompt with
                 | Sys.Rejected e => Sys.Throw ("Q&A failed: " +:+ e)
                 | Sys.Resolved text =>
                     Sys.Ok {| QaService.answer := Text.trim text;
                               QaService.sources :=
                                 map (fun chunk =>
                                        {| QaService.s_meetingId := QaService.c_meetingId chunk;
                                           QaService.s_snippet :=
                                             QaService.truncateSnippet
                                               (QaService.c_content chunk) 200 |})
                                     relevantChunks |}
                 end, Sys.step (Sys.Generate prompt) w1)
            end
        end
    end.
Proof.
  intros w1. unfold QaService.answerMeetingQuestion.
  destruct (Text.blank question); [done|].
  unfold AiService.getGeminiKey.
  destruct (Sys.truthy (Sys.VITE_GEMINI_API_KEY env)) as [key|]; [|done].
  unfold Sys.bind at 1. unfold Sys.ret at 1. unfold Sys.try_catch.
  unfold Sys.bind at 1. rewrite findRelevantChunks_run. fold w1.
  destruct (Sys.gemini_embed env (Sys.now w) (Text.trim question)) as [e|q]; [done|].
  destruct (Text.slice_to topK _) as [|chunk chunks]; [done|].
  unfold AiService.generateContent. run_m.
  by destruct (Sys.gemini_generate _ _ _).
Qed.

(** X18.  Retrieval reads and never writes.  Both searches, the answer of a
    question and its wrapper in the orchestrator leave the store as it was,
    whatever their outcome; a search sends at most one request, the embedding
    of the query, and an answer at most that request followed by one request
    to the language model. *)
Theorem retrieval_reads_only (query : string) (topK : Z) (w : Sys.World T) :
  (let w' := (QaService.searchMeetings env query topK w).2 in
   Sys.store w' = Sys.store w /\
   (new_events w w' = [] \/ new_events w w' = [Sys.Embed (Text.trim query)])) /\
  (let w' := (QaService.searchMeetings_ai env query topK w).2 in
   Sys.store w' = Sys.store w /\
   (new_events w w' = [] \/ new_events w w' = [Sys.Embed query])) /\
  (let w' := (QaService.answerMeetingQuestion env query topK w).2 in
   Sys.store w' = Sys.store w /\
   (new_events w w' = [] \/ new_events w w' = [Sys.Embed (Text.trim query)] \/
    exists prompt, new_events w w' = [Sys.Embed (Text.trim query); Sys.Generate prompt])) /\
  (let w' := (Orchestrator.getAnswerForQuestion env query topK w).2 in
   Sys.store w' = Sys.store w /\
   (new_events w w' = [] \/ new_events w w' = [Sys.Embed (Text.trim query)] \/
    exists prompt, new_events w w' = [Sys.Embed (Text.trim query); Sys.Generate prompt])).
Proof.
  assert (forall ev : Sys.Event T, new_events w (Sys.step ev w) = [ev]) as Hone.
  { intros ev. apply (new_events_play [ev]). }
  assert (forall ev1 ev2 : Sys.Event T,
            new_events w (Sys.step ev2 (Sys.step ev1 w)) = [ev1; ev2]) as Htwo.
  { intros ev1 ev2. apply (new_events_play [ev1; ev2]). }
  assert (new_events w w = []) as Hnil by apply (new_events_play []).
  assert (let w' := (QaService.answerMeetingQuestion env query topK w).2 in
          Sys.store w' = Sys.store w /\
          (new_events w w' = [] \/ new_events w w' = [Sys.Embed (Text.trim query)] \/
           exists prompt, new_events w w' = [Sys.Embed (Text.trim query); Sys.Generate prompt]))
    as Hanswer.
  { rewrite answerMeetingQuestion_run.
    destruct (Text.blank query); [by split; [|left]|].
    destruct (Sys.truthy (Sys.VITE_GEMINI_API_KEY env)); [|by split; [|left]].
    destruct (Sys.gemini_embed env (Sys.now w) (Text.trim query)) as [e|q];
      [split; [done|right; left; apply Hone]|].
    destruct (Text.slice_to topK _) as [|chunk chunks];
      [split; [done|right; left; apply Hone]|].
    cbv zeta. cbn [snd]. split; [done|]. right. right. eexists. apply Htwo. }
  split; [|split; [|split]].
  - rewrite searchMeetings_run.
    destruct (Text.blank query); [by split; [|left]|].
    destruct (Sys.truthy (Sys.VITE_GEMINI_API_KEY env)); [|by split; [|left]].
    cbv zeta. cbn [snd]. split; [done|right; apply Hone].
  - rewrite searchMeetings_ai_run.
    destruct (Sys.truthy (Sys.VITE_GEMINI_API_KEY env)); [|by split; [|left]].
    cbv zeta. cbn [snd]. split; [done|right; apply Hone].
  - exact Hanswer.
  - unfold Orchestrator.getAnswerForQuestion.
    destruct (Text.blank query) eqn:Hb; [by split; [|left]|].
    unfold Sys.try_catch, Sys.bind. cbv zeta in Hanswer.
    destruct (QaService.answerMeetingQuestion env query topK w) as [[r|e] w']; exact Hanswer.
Qed.

(** X19.  With a bound that is not below the number of stored chunks, the
    search leaves no meeting out: every meeting that has a stored chunk is in
    the results. *)
Theorem searchMeetings_complete (query : string) (topK : Z) (w : Sys.World T) :
  (1 <= topK)%Z ->
  (Z.of_nat (List.length (Sys.meeting_embeddings (Sys.store w))) <= topK)%Z ->
  match (QaService.searchMeetings env query topK w).1 with
  | Sys.Ok results =>
      forall row, row ∈ Sys.meeting_embeddings (Sys.store w) ->
        Sys.e_meeting_id row ∈ map QaService.meetingId results
  | Sys.Throw _ => True
  end.
Proof.
  intros Hk Hlen. rewrite searchMeetings_run.
  destruct (Text.blank query); [done|].
  destruct (Sys.truthy (Sys.VITE_GEMINI_API_KEY env)); [|done].
  cbn [fst].
  destruct (Sys.gemini_embed env (Sys.now w) (Text.trim query)) as [e|q]; [done|].
  set (embeddings := Sys.meeting_embeddings (Sys.store w)) in *.
  assert (forall row, row ∈ embeddings ->
            Sys.e_meeting_id row ∈ map QaService.meetingId (QaService.rank q embeddings topK))
    as Hrank.
  { intros row Hrow. rewrite rank_firsts by done.
    set (sorted := QaService.sort_by _ _).
    assert (List.length sorted = List.length embeddings) as Hs.
    { unfold sorted. by rewrite sort_by_length, length_map. }
    rewrite take_ge.
    2:{ pose proof (firsts_length QaService.meetingId sorted ∅). lia. }
    assert (QaService.score q row ∈ sorted) as Hin.
    { unfold sorted. rewrite sort_by_perm. apply list_elem_of_fmap. by exists row. }
    destruct (firsts_covers QaService.meetingId sorted ∅ _ Hin) as [Hseen|Hres];
      [set_solver|exact Hres]. }
  destruct embeddings as [|row rows] eqn:E; simpl.
  - intros row Hrow. by apply elem_of_nil in Hrow.
  - exact Hrank.
Qed.

Lemma slice_to_elem_of {A} (n : Z) (l : list A) (x : A) : x ∈ Text.slice_to n l -> x ∈ l.
Proof.
  unfold Text.slice_to. destruct (n <? 0)%Z; intros Hx;
    (eapply elem_of_sublist; [exact Hx | apply sublist_take]).
Qed.

(** X20.  The sources of an answer.  When [answerMeetingQuestion] returns,
    it cites as many sources as [slice(0, topK)] keeps of the stored chunks
    (the first [topK] of them, none for [topK = 0], all but the last [-topK]
    for a negative [topK]); every source is a stored chunk, under the
    identifier of its meeting, with its text cut at 200 characters; and with
    no source the answer is the canned one and the language model is not
    called.  When it throws, the question was blank, or the key is missing,
    or the message begins with ["Q&A failed: "]. *)
Theorem answerMeetingQuestion_sources (question : string) (topK : Z) (w : Sys.World T) :
  match QaService.answerMeetingQuestion env question topK w with
  | (Sys.Ok r, w') =>
      List.length (QaService.sources r)
      = List.length (Text.slice_to topK (Sys.meeting_embeddings (Sys.store w))) /\
      Forall (fun s => exists row, row ∈ Sys.meeting_embeddings (Sys.store w) /\
                QaService.s_meetingId s = Sys.e_meeting_id row /\
                QaService.s_snippet s
                = QaService.truncateSnippet (Sys.e_content_chunk row) 200)
             (QaService.sources r) /\
      (QaService.sources r = [] ->
         QaService.answer r = QaService.canned_answer /\
         new_events w w' = [Sys.Embed (Text.trim question)])
  | (Sys.Throw e, w') =>
      (Text.blank question = true /\ e = "Question cannot be empty") \/
      Sys.truthy (Sys.VITE_GEMINI_API_KEY env) = None \/
      exists e', e = "Q&A failed: " +:+ e'
  end.
Proof.
  rewrite answerMeetingQuestion_run.
  destruct (Text.blank question) eqn:Hb; [by left|].
  destruct (Sys.truthy (Sys.VITE_GEMINI_API_KEY env)); [|right; by left].
  destruct (Sys.gemini_embed env (Sys.now w) (Text.trim question)) as [e|q];
    [right; right; by eexists|].
  set (sorted := QaService.sort_by _ _).
  assert (List.length sorted = List.length (Sys.meeting_embeddings (Sys.store w))) as Hlen.
  { unfold sorted. by rewrite sort_by_length, length_map. }
  assert (forall c, c ∈ Text.slice_to topK sorted ->
            exists row, row ∈ Sys.meeting_embeddings (Sys.store w) /\
                        c = QaService.score_chunk q row) as Hsrc.
  { intros c Hc. apply slice_to_elem_of in Hc. unfold sorted in Hc.
    rewrite sort_by_perm in Hc. apply list_elem_of_fmap in Hc as (row & -> & Hrow). eauto. }
  pose proof (slice_to_length topK sorted _ Hlen) as Hcount.
  destruct (Text.slice_to topK sorted) as [|chunk chunks] eqn:E.
  - split; [done|]. split; [constructor|]. intros _. split; [done|].
    apply (new_events_play [Sys.Embed (Text.trim question)]).
  - cbv zeta.
    destruct (Sys.gemini_generate env _ _) as [e|text]; [right; right; by eexists|].
    cbn [QaService.sources QaService.answer]. rewrite length_map.
    split; [done|]. split; [|done].
    apply Forall_forall. intros src Hs.
    apply list_elem_of_fmap in Hs as (c & -> & Hc).
    destruct (Hsrc c Hc) as (row & Hrow & ->). by exists row.
Qed.

(** The identifier and the score of a result, in the two services. *)
Definition hit (r : QaService.MeetingSearchResult T) : string * T :=
  (QaService.meetingId r, QaService.relevance r).
Definition hit_ai (r : QaService.ScoredRow (T:=T)) : string * T :=
  (QaService.r_meeting_id r, QaService.r_similarity r).

(** The two copies of [cosineSimilarity] agree, as they do on the binary64
    numbers of the code. *)
Hypothesis cosine_agree : forall a b : list T,
  Numbers.cosineSimilarity a b = Numbers.cosineSimilarity_ai a b.

Lemma rank_agree (q : list T) (embeddings : list (Sys.EmbeddingRow T)) (topK : Z) :
  (1 <= topK)%Z ->
  map hit (QaService.rank q embeddings topK)
  = map hit_ai
      (Text.slice_to topK
         (fold_left QaService.dedupe_reduce
            (QaService.sort_by
               (fun a b => QaService.desc (QaService.r_similarity a) (QaService.r_similarity b))
               (map (QaService.score_row q) embeddings)) [])).
Proof.
  intros Hk. rewrite rank_firsts by done. rewrite slice_to_take by lia.
  rewrite (fold_dedupe_reduce _ [] ∅) by set_solver. simpl.
  rewrite <- !List.firstn_map.
  change (firsts QaService.meetingId) with (firsts (fun a => fst (hit a))).
  change (firsts QaService.r_meeting_id) with (firsts (fun a => fst (hit_ai a))).
  rewrite !(firsts_map _ fst). f_equal. f_equal.
  change (fun a b => QaService.desc (QaService.relevance a) (QaService.relevance b))
    with (fun a b => (fun x y : string * T => QaService.desc (snd x) (snd y)) (hit a) (hit b)).
  change (fun a b => QaService.desc (QaService.r_similarity a) (QaService.r_similarity b))
    with (fun a b => (fun x y : string * T => QaService.desc (snd x) (snd y))
                       (hit_ai a) (hit_ai b)).
  set (cmp := fun x y : string * T => QaService.desc x.2 y.2).
  transitivity (QaService.sort_by cmp (map hit (map (QaService.score q) embeddings)));
    [exact (sort_by_map hit cmp _)|].
  transitivity (QaService.sort_by cmp (map hit_ai (map (QaService.score_row q) embeddings)));
    [|symmetry; exact (sort_by_map hit_ai cmp _)].
  f_equal. rewrite !map_map. apply map_ext.
  intros row. unfold hit, hit_ai. simpl. by rewrite cosine_agree.
Qed.

(** X21.  The two searches agree, in an arithmetic in which the two copies of
    [cosineSimilarity] do.  On a query that is not blank and with a bound of
    at least 1, [searchMeetings] of the Q&A service and
    [searchMeetings] of the AI service, given the query trimmed, return the
    same meetings with the same scores in the same order, and leave the same
    world; when one throws so does the other, and the message of the former is
    the message of the latter, behind ["Search failed: "] unless the key is
    missing. *)
Theorem searchMeetings_agree (query : string) (topK : Z) (w : Sys.World T) :
  (1 <= topK)%Z ->
  Text.blank query = false ->
  match QaService.searchMeetings env query topK w,
        QaService.searchMeetings_ai env (Text.trim query) topK w with
  | (Sys.Ok results, w1), (Sys.Ok rows, w2) => map hit results = map hit_ai rows /\ w1 = w2
  | (Sys.Throw e1, w1), (Sys.Throw e2, w2) =>
      w1 = w2 /\
      match Sys.truthy (Sys.VITE_GEMINI_API_KEY env) with
      | Some _ => e1 = "Search failed: " +:+ e2
      | None => e1 = e2
      end
  | _, _ => False
  end.
Proof.
  intros Hk Hb. rewrite searchMeetings_run, searchMeetings_ai_run, Hb.
  destruct (Sys.truthy (Sys.VITE_GEMINI_API_KEY env)); [|done].
  destruct (Sys.gemini_embed env (Sys.now w) (Text.trim query)) as [e|q]; [done|].
  split; [|done]. rewrite <- rank_agree by done.
  by destruct (Sys.meeting_embeddings (Sys.store w)).
Qed.

End Retrieval.

Lemma searchMeetings_complete_witness :
  let env := example_env [1%float; 0%float] in
  let w := example_corpus [1%float; 0%float] [1%float; 0%float] [0%float; 1%float] in
  match (QaService.searchMeetings env "budget" 3 w).1 with
  | Sys.Ok results =>
      forall row, row ∈ Sys.meeting_embeddings (Sys.store w) ->
        Sys.e_meeting_id row ∈ map QaService.meetingId results
  | Sys.Throw _ => True
  end.
Proof.
  intros env w. apply (searchMeetings_complete env "budget" 3 w); simpl; lia.
Defined.

Lemma searchMeetings_agree_witness :
  let env := example_env [1%float; 0%float] in
  let w := example_corpus [1%float; 0%float] [1%float; 0%float] [0%float; 1%float] in
  match QaService.searchMeetings env "budget" 3 w,
        QaService.searchMeetings_ai env (Text.trim "budget") 3 w with
  | (Sys.Ok results, w1), (Sys.Ok rows, w2) => map hit results = map hit_ai rows /\ w1 = w2
  | (Sys.Throw e1, w1), (Sys.Throw e2, w2) =>
      w1 = w2 /\
      match Sys.truthy (Sys.VITE_GEMINI_API_KEY env) with
      | Some _ => e1 = "Search failed: " +:+ e2
      | None => e1 = e2
      end
  | _, _ => False
  end.
Proof.
  intros env w. apply (searchMeetings_agree env cosine_copies_agree "budget" 3 w).
  - lia.
  - reflexivity.
Defined.

(** ** Chunks and snippets *)

Section LengthFacts.

Lemma length_app_s (a b : string) :
  String.length (a +:+ b) = String.length a + String.length b.
Proof. induction a as [|c a IH]; [done|]. rewrite app_cons_s. simpl. by rewrite IH. Qed.

Lemma length_trimStart (s : string) : String.length (Text.trimStart s) <= String.length s.
Proof. induction s as [|c s IH]; simpl; [done|]. destruct (Text.is_ws c); simpl; lia. Qed.

Lemma length_trimEnd (s : string) : String.length (Text.trimEnd s) <= String.length s.
Proof.
  induction s as [|c s IH]; simpl; [done|].
  destruct (Text.trimEnd s) as [|c' r]; [destruct (Text.is_ws c)|]; simpl in *; lia.
Qed.

Lemma length_trim (s : string) : String.length (Text.trim s) <= String.length s.
Proof.
  unfold Text.trim. etrans; [apply length_trimEnd | apply length_trimStart].
Qed.

Lemma length_substring_0 (n : nat) : forall s : string,
  String.length (String.substring 0 n s) <= n.
Proof.
  induction n as [|n IH]; intros [|c s]; simpl; try lia. specialize (IH s). lia.
Qed.

End LengthFacts.

(** X22.  A snippet is short: [truncateSnippet] returns a text that fits as
    it is, and for a longer one at most [maxLength] characters followed by
    three dots.  A text only just too long gets longer by it. *)
Theorem truncateSnippet_length (text : string) (maxLength : nat) :
  String.length (QaService.truncateSnippet text maxLength) <= maxLength + 3 /\
  (String.length text <= maxLength -> QaService.truncateSnippet text maxLength = text) /\
  (maxLength < String.length text ->
     exists head, QaService.truncateSnippet text maxLength = head +:+ "..." /\
                  String.length head <= maxLength).
Proof.
  unfold QaService.truncateSnippet.
  destruct (Nat.leb_spec (String.length text) maxLength) as [Hle|Hgt].
  - split; [lia|]. split; [done|]. lia.
  - assert (String.length (Text.trim (String.substring 0 maxLength text)) <= maxLength) as Hh.
    { etrans; [apply length_trim | apply length_substring_0]. }
    split; [rewrite length_app_s; simpl; lia|]. split; [lia|].
    intros _. by eexists.
Qed.

Example truncateSnippet_grows :
  QaService.truncateSnippet "abcd" 3 = "abc..." /\
  String.length "abcd" < String.length (QaService.truncateSnippet "abcd" 3).
Proof. split; [reflexivity | simpl; lia]. Qed.

Section MoreChunks.

Lemma filter_split_go_nil (s : string) : forall cur prev,
  List.filter nonempty (Text.split_go s cur prev) = [] <-> cur = "" /\ all_ws s.
Proof.
  induction s as [|c s IH]; intros cur prev; simpl.
  - unfold nonempty. destruct cur; simpl; [tauto|]. split; [done | by intros [? _]].
  - destruct (Text.is_ws c) eqn:E.
    + destruct prev.
      * rewrite IH. tauto.
      * simpl. unfold nonempty at 1. destruct cur as [|x cur]; simpl.
        -- rewrite IH. tauto.
        -- split; [done | by intros [? _]].
    + rewrite IH. split.
      * intros [Hc _]. by apply snoc_nonempty in Hc.
      * intros [_ [Hws _]]. congruence.
Qed.

(** A text has no word exactly when it is made of white space. *)
Lemma words_nil (s : string) : Text.words s = [] <-> all_ws s.
Proof.
  unfold Text.words, Text.split_ws. rewrite (filter_split_go_nil s "" false). tauto.
Qed.

Lemma blank_all_ws (s : string) : Text.blank s = true <-> all_ws s.
Proof.
  rewrite <- nonblank_false. unfold Text.blank, nonblank.
  destruct (String.length (Text.trim s)); simpl; split; done.
Qed.

Lemma split_go_nonempty (s : string) : forall cur prev, Text.split_go s cur prev <> [].
Proof.
  induction s as [|c s IH]; intros cur prev; simpl; [done|].
  destruct (Text.is_ws c); [destruct prev|]; [apply IH | done | apply IH].
Qed.

Lemma pieces_bound {A} (w fuel : nat) : forall (l : list A) p,
  p ∈ pieces fuel w l -> List.length p <= w /\ forall x, x ∈ p -> x ∈ l.
Proof.
  induction fuel as [|fuel IH]; intros l p Hp.
  - destruct l; by apply elem_of_nil in Hp.
  - destruct l as [|x l]; [by apply elem_of_nil in Hp|].
    change (pieces (S fuel) w (x :: l))
      with (take w (x :: l) :: pieces fuel w (drop w (x :: l))) in Hp.
    apply elem_of_cons in Hp as [->|Hp].
    + split; [rewrite length_take; lia|]. intros y Hy.
      eapply elem_of_sublist; [exact Hy | apply sublist_take].
    + apply IH in Hp as [Hlen Hin]. split; [done|]. intros y Hy.
      eapply elem_of_sublist; [by apply Hin | apply sublist_drop].
Qed.

End MoreChunks.

(** X23.  No chunk for no word.  For a positive chunk size, [splitIntoChunks]
    returns the empty array exactly for the texts made of white space, the
    empty text among them: a blank transcript gets no embedding chunk, and
    every other transcript gets at least one. *)
Theorem splitIntoChunks_none (text : string) (w : nat) :
  0 < w ->
  (Text.splitIntoChunks text w = Some [] <-> Text.blank text = true).
Proof.
  intros Hw. destruct (splitIntoChunks_words text w Hw) as (chunks & Hrun & Hnb & Hwords).
  rewrite Hrun, blank_all_ws, <- words_nil, <- Hwords. split.
  - intros Heq. injection Heq as ->. reflexivity.
  - intros Hnil. apply words_nil, all_ws_join in Hnil.
    destruct chunks as [|c chunks]; [done|]. exfalso.
    apply Forall_cons in Hnil as [Hc _], Hnb as [Hn _].
    apply nonblank_false in Hc. unfold nonblank in Hc.
    apply Nat.ltb_ge in Hc. lia.
Qed.

Lemma splitIntoChunks_none_witness :
  Text.splitIntoChunks " 	 " 500 = Some [] <-> Text.blank " 	 " = true.
Proof. apply splitIntoChunks_none. lia. Defined.

(** X24.  The size of a chunk.  For a positive chunk size, every chunk that
    [splitIntoChunks] returns has at least one word and at most
    [wordsPerChunk] words. *)
Theorem splitIntoChunks_sizes (text : string) (w : nat) :
  0 < w ->
  exists chunks, Text.splitIntoChunks text w = Some chunks /\
    Forall (fun chunk => 1 <= List.length (Text.words chunk) <= w) chunks.
Proof.
  intros Hw. eexists. split; [by apply splitIntoChunks_pieces|].
  apply Forall_forall. intros chunk Hc.
  apply list_elem_of_In, List.filter_In in Hc as [Hc Hnb].
  apply list_elem_of_In, list_elem_of_fmap in Hc as (p & -> & Hp).
  apply pieces_bound in Hp as [Hlen Hin].
  assert (Forall ws_free p) as Hfree.
  { apply Forall_forall. intros x Hx. apply Hin in Hx.
    pose proof (split_go_ws_free text "" false I) as Hall.
    rewrite Forall_forall in Hall. by apply Hall. }
  split.
  - destruct (Text.words (Text.join " " p)) as [|x l] eqn:E; [|simpl; lia].
    apply words_nil, nonblank_false in E. congruence.
  - rewrite words_join by done. etrans; [|exact Hlen].
    clear. induction p as [|x p IH]; simpl; [done|].
    destruct (nonempty x); simpl; lia.
Qed.

Lemma splitIntoChunks_sizes_witness :
  exists chunks, Text.splitIntoChunks "one two three" 2 = Some chunks /\
    Forall (fun chunk => 1 <= List.length (Text.words chunk) <= 2) chunks.
Proof. apply splitIntoChunks_sizes. lia. Defined.

(** X25.  A chunk size of zero hangs.  Every text splits into at least one
    piece, and with [wordsPerChunk = 0] the index of the loop never moves:
    whatever the number of iterations allowed, the loop has not ended. *)
Theorem splitIntoChunks_zero_hangs (text : string) (fuel : nat) :
  Text.chunk_loop fuel (Text.split_ws text) 0 0 = None /\
  Text.splitIntoChunks text 0 = None.
Proof.
  assert (0 < List.length (Text.split_ws text)) as Hlen.
  { pose proof (split_go_nonempty text "" false) as Hne. unfold Text.split_ws.
    destruct (Text.split_go text "" false); [done | simpl; lia]. }
  split; [|unfold Text.splitIntoChunks; cbv zeta]; by apply chunk_loop_zero_diverges.
Qed.

(** ** More on the similarity *)

Section CosineSymmetry.
Context {T : Type} `{Numbers.Num T}.

Hypothesis mul_comm : forall x y : T, Numbers.num_mul x y = Numbers.num_mul y x.

Lemma cosine_loop_swap (a : list T) : forall (b : list T) d na nb,
  fold_left Numbers.cosine_step (combine b a) (d, nb, na)
  = (let '(d', na', nb') := fold_left Numbers.cosine_step (combine a b) (d, na, nb) in
     (d', nb', na')).
Proof.
  induction a as [|x a IH]; intros [|y b] d na nb; try done.
  simpl. rewrite (mul_comm y x). apply IH.
Qed.

(** X26.  The similarity is symmetric: in any arithmetic in which the
    product of two numbers does not depend on their order, the binary64
    numbers of the code among them, both copies of [cosineSimilarity] give the same number for
    [(a, b)] and for [(b, a)]. *)
Theorem cosineSimilarity_symmetric (a b : list T) :
  Numbers.cosineSimilarity a b = Numbers.cosineSimilarity b a /\
  Numbers.cosineSimilarity_ai a b = Numbers.cosineSimilarity_ai b a.
Proof.
  assert (Numbers.cosine_result (Numbers.cosine_loop a b)
          = Numbers.cosine_result (Numbers.cosine_loop b a)) as Hloop.
  { unfold Numbers.cosine_loop. rewrite (cosine_loop_swap a b).
    destruct (fold_left Numbers.cosine_step (combine a b) _) as [[d na] nb].
    unfold Numbers.cosine_result. by rewrite mul_comm. }
  unfold Numbers.cosineSimilarity, Numbers.cosineSimilarity_ai.
  rewrite (Nat.eqb_sym (List.length b) (List.length a)).
  destruct (Nat.eqb_spec (List.length a) (List.length b)) as [E|E]; simpl; [|done].
  rewrite <- E, Hloop. done.
Qed.

End CosineSymmetry.

Lemma cosineSimilarity_symmetric_witness :
  Numbers.cosineSimilarity [1; 2]%float [3; 4]%float
  = Numbers.cosineSimilarity [3; 4]%float [1; 2]%float /\
  Numbers.cosineSimilarity_ai [1; 2]%float [3; 4]%float
  = Numbers.cosineSimilarity_ai [3; 4]%float [1; 2]%float.
Proof. apply (cosineSimilarity_symmetric (T:=float)). exact float_mul_comm. Defined.
